(** * A shallow embedding of the Julia-set tile engine

    The development follows the tiled server ([generateJuliaTile],
    [getTileKey], [cacheTile], [generateJuliaSet], [wsHandler]) and the
    colouring registry ([ReturnRGBA]).

    - Go's [int] is a 64-bit two's-complement integer: it is a [Z] and every
      arithmetic operation wraps explicitly ([wrap64]).
    - Go's [float64] is the kernel's binary64 type [float]; its operations are
      the IEEE-754 ones, specified by [Prim2SF] and the [SF...] functions.
    - Library code that the repository calls but does not contain
      (transcendental functions, the HSV conversion, the PNG serialisation,
      the clock, the transport) is a parameter of the definitions that use it.
*)

From Stdlib Require Import ZArith Lia Bool Ascii String List Floats.
From Stdlib.Strings Require Import Byte.
From Stdlib Require Import DecimalString DecimalZ DecimalFacts.
From stdpp Require Import base option list sorting gmap strings relations.

Local Open Scope Z_scope.

(* ===================================================================== *)
(** ** Machine integers *)

Module GoInt.

(** Two's-complement wrap-around of a mathematical integer into [int]. *)
Definition wrap64 (z : Z) : Z := (z + 2 ^ 63) mod 2 ^ 64 - 2 ^ 63.

Definition in_range (z : Z) : Prop := - 2 ^ 63 <= z < 2 ^ 63.

Definition add (a b : Z) : Z := wrap64 (a + b).
Definition sub (a b : Z) : Z := wrap64 (a - b).
Definition mul (a b : Z) : Z := wrap64 (a * b).
(** [a / b] truncates toward zero; the result of [a % b] has the sign
    of [a]. *)
Definition div (a b : Z) : Z := wrap64 (Z.quot a b).
Definition rem (a b : Z) : Z := Z.rem a b.
(** [uint8(n)] of an integer keeps the low eight bits. *)
Definition to_uint8 (n : Z) : Z := n mod 256.

End GoInt.

(* ===================================================================== *)
(** ** float64 and complex128 *)

Module F64.

Local Open Scope float_scope.

Definition two : float := 0x1p+1.
Definition minus_two_pow_63 : float := -0x1p+63.

(** [float64(n)] for an [int] [n]: the nearest binary64 value, ties to
    even.  [of_uint63] covers [0 <= n < 2^63]; a negative [n] is the
    opposite of the conversion of [-n], and [-2^63] is a power of two. *)
Definition of_int (n : Z) : float :=
  if (n <? 0)%Z then
    if (n =? - 2 ^ 63)%Z then minus_two_pow_63
    else - PrimFloat.of_uint63 (Uint63.of_Z (- n))
  else PrimFloat.of_uint63 (Uint63.of_Z n).

(** The integer part of a finite float, toward zero. *)
Definition trunc_SF (x : spec_float) : option Z :=
  match x with
  | S754_zero _ => Some 0%Z
  | S754_finite s m e =>
      let a := match e with
               | Z.neg p => (Z.pos m / 2 ^ Z.pos p)%Z
               | _ => (Z.pos m * 2 ^ e)%Z
               end in
      Some (if s then (- a)%Z else a)
  | _ => None
  end.

(** [int(f)]: truncation toward zero.  When the value does not fit (or is
    not a number) Go leaves the result to the implementation; amd64's
    CVTTSD2SQ yields [-2^63], which is what is written here. *)
Definition to_int (f : float) : Z :=
  match trunc_SF (Prim2SF f) with
  | Some z => if ((- 2 ^ 63 <=? z) && (z <? 2 ^ 63))%Z then z else (- 2 ^ 63)%Z
  | None => (- 2 ^ 63)%Z
  end.

Definition IsNaN (f : float) : bool := negb (f =? f).
(** [math.IsInf(f, sign)]. *)
Definition IsInf (f : float) (sign : Z) : bool :=
  ((0 <=? sign)%Z && (f =? infinity)) || ((sign <=? 0)%Z && (f =? neg_infinity)).
Definition Signbit (f : float) : bool := PrimFloat.get_sign f.

(** [math.Min], with its special cases in the order the library tests
    them. *)
Definition Min (x y : float) : float :=
  if IsInf x (-1) || IsInf y (-1) then neg_infinity
  else if IsNaN x || IsNaN y then nan
  else if (x =? 0) && (x =? y) then (if Signbit x then x else y)
  else if x <? y then x else y.

(** [math.Hypot], the portable algorithm: sqrt(p*p + q*q) computed as
    p * sqrt(1 + (q/p)^2) after ordering the magnitudes. *)
Definition Hypot (p q : float) : float :=
  let p := PrimFloat.abs p in
  let q := PrimFloat.abs q in
  if IsInf p 1 || IsInf q 1 then infinity
  else if IsNaN p || IsNaN q then nan
  else
    let '(p, q) := if p <? q then (q, p) else (p, q) in
    if p =? 0 then 0
    else
      let q := q / p in
      p * PrimFloat.sqrt (1 + q * q).

(** [math.Pow(x, 2)]: with exponent 2 the library squares the mantissa
    of [x] once and rescales, which is the correctly rounded product
    [x * x] for every [x] whose square neither overflows nor underflows
    (the callers pass converted integers). *)
Definition Pow2 (x : float) : float := x * x.

End F64.

Record complex128 : Type := Complex128 { re : float; im : float }.

Module C128.

Local Open Scope float_scope.

(** [x * y] on complex128: the compiler emits the four products and
    combines them, each operation rounded separately. *)
Definition mul (x y : complex128) : complex128 :=
  Complex128 (re x * re y - im x * im y) (re x * im y + im x * re y).

Definition add (x y : complex128) : complex128 :=
  Complex128 (re x + re y) (im x + im y).

(** [cmplx.Abs]. *)
Definition Abs (z : complex128) : float := F64.Hypot (re z) (im z).

End C128.

(* ===================================================================== *)
(** ** The request data *)

Record Complex : Type := mkComplex { Real : float; Imag : float }.

Record JuliaParams : Type := mkJuliaParams {
  C : Complex;
  Center : Complex;
  Zoom : float;
  Coloring : Z;
  MaxIterations : Z;
  Width : Z;
  Height : Z;
  LOD : Z
}.

Record Offset : Type := mkOffset { Offset_X : float; Offset_Y : float }.

Record TileRequest : Type := mkTileRequest { Req_X : Z; Req_Y : Z; Req_LOD : Z }.

Definition TileSize : Z := 128.
Definition MaxCacheSize : Z := 1000.

(* ===================================================================== *)
(** ** The escape-time loop of [generateJuliaTile] *)

Section EscapeTime.

Local Open Scope float_scope.

(** One pass of the loop body: leave when [cmplx.Abs(z) > 2], otherwise
    replace [z] by [z*z + c] and count.  The fuel is the number of passes
    the loop header still allows. *)
Fixpoint escape_loop (fuel : nat) (c : complex128) (i : Z) (z : complex128)
  : Z * complex128 :=
  match fuel with
  | O => (i, z)
  | S fuel' =>
      if F64.two <? C128.Abs z then (i, z)
      else escape_loop fuel' c (i + 1)%Z (C128.add (C128.mul z z) c)
  end.

(** [for i = 0; i < maxIterations; i++ { ... }] started at [z0]: the final
    [i] and [z]. *)
Definition escape_time (c z0 : complex128) (maxIterations : Z) : Z * complex128 :=
  escape_loop (Z.to_nat maxIterations) c 0%Z z0.

(** The fractal-plane point of the pixel at tile-local [(px, py)]. *)
Definition pixel_point (params : JuliaParams) (offset : Offset)
    (tileX tileY px py : Z) : complex128 :=
  let y := (F64.of_int (GoInt.add tileY py) - Offset_Y offset) / Zoom params
           - F64.of_int (Height params) / (F64.two * Zoom params)
           + Imag (Center params) in
  let x := (F64.of_int (GoInt.add tileX px) - Offset_X offset) / Zoom params
           - F64.of_int (Width params) / (F64.two * Zoom params)
           + Real (Center params) in
  Complex128 x y.

End EscapeTime.


(* ===================================================================== *)
(** ** [fmt.Sprintf] as [getTileKey] uses it *)

Module Fmt.

Local Open Scope string_scope.

(** The verb [%d] on an [int]: decimal digits, a leading minus sign for a
    negative number. *)
Definition fmt_d (n : Z) : string := NilZero.string_of_int (Z.to_int n).

Definition digit (d : Z) : ascii := ascii_of_nat (48 + Z.to_nat (d mod 10)).

(** The six digits after the point. *)
Definition frac6 (n : Z) : string :=
  String (digit (n / 100000)) (String (digit (n / 10000))
    (String (digit (n / 1000)) (String (digit (n / 100))
      (String (digit (n / 10)) (String (digit n) EmptyString))))).

(** [num / den] rounded to the nearest integer, a tie going to the even
    neighbour ([num >= 0], [den > 0]). *)
Definition round_half_even (num den : Z) : Z :=
  let q := num / den in
  let r := num mod den in
  match 2 * r ?= den with
  | Lt => q
  | Gt => q + 1
  | Eq => if Z.even q then q else q + 1
  end.

(** [n] millionths, written with six decimals; the sign is the float's
    sign bit, also when the magnitude rounds to zero. *)
Definition fixed6 (s : bool) (n : Z) : string :=
  (if s then "-" else EmptyString) +:+ fmt_d (n / 10 ^ 6) +:+ "." +:+ frac6 (n mod 10 ^ 6).

(** The magnitude [m * 2^e] in millionths, correctly rounded. *)
Definition millionths (m : positive) (e : Z) : Z :=
  match e with
  | Z.neg p => round_half_even (Z.pos m * 10 ^ 6) (2 ^ Z.pos p)
  | _ => Z.pos m * 2 ^ e * 10 ^ 6
  end.

(** The verb [%f] on a float64: precision 6, the exact decimal expansion
    of the binary value rounded half-to-even at the sixth decimal. *)
Definition fmt_f (f : float) : string :=
  match Prim2SF f with
  | S754_nan => "NaN"
  | S754_infinity s => if s then "-Inf" else "+Inf"
  | S754_zero s => fixed6 s 0
  | S754_finite s m e => fixed6 s (millionths m e)
  end.

(** The formatted operands joined by the commas of the format string. *)
Fixpoint join_comma (fields : list string) : string :=
  match fields with
  | [] => EmptyString
  | [s] => s
  | s :: rest => s +:+ "," +:+ join_comma rest
  end.

End Fmt.

(** [getTileKey]: the format is
    [%f,%f,%f,%f,%f,%d,%d,%d,%d,%d,%d,%d,%f,%f]. *)
Definition getTileKey (params : JuliaParams) (x y lod : Z) (offset : Offset) : string :=
  Fmt.join_comma
    [ Fmt.fmt_f (Real (C params)); Fmt.fmt_f (Imag (C params));
      Fmt.fmt_f (Real (Center params)); Fmt.fmt_f (Imag (Center params));
      Fmt.fmt_f (Zoom params);
      Fmt.fmt_d (MaxIterations params); Fmt.fmt_d (Width params);
      Fmt.fmt_d (Height params); Fmt.fmt_d (Coloring params);
      Fmt.fmt_d x; Fmt.fmt_d y; Fmt.fmt_d lod;
      Fmt.fmt_f (Offset_X offset); Fmt.fmt_f (Offset_Y offset) ].

(* ===================================================================== *)
(** ** The colouring registry *)

Record RGBA : Type := mkRGBA { R : Z; G : Z; B : Z; A : Z }.

(** [color.Black] as [img.Set] stores it. *)
Definition color_Black : RGBA := mkRGBA 0 0 0 255.

(** The library functions the colourings call.  [uint8_unrepresentable] is
    the result of the conversion [uint8(f)] when the integer part of [f] is
    not a uint8 value, which Go leaves to the implementation. *)
Record MathLib : Type := mkMathLib {
  math_Log : float -> float;
  math_Sin : float -> float;
  math_Cos : float -> float;
  math_Pow : float -> float -> float;
  math_Atan2 : float -> float -> float;
  Hsv_RGB255 : float -> float -> float -> Z * Z * Z;
  uint8_unrepresentable : float -> Z
}.

Module Color.
Section Colorings.

Context (M : MathLib).
Local Open Scope float_scope.

Definition Pi : float := 0x1.921fb54442d18p+1.
Definition TwoPi : float := 0x1.921fb54442d18p+2.
Definition TwoPiOver3 : float := 0x1.0c152382d7366p+1.
Definition FourPiOver3 : float := 0x1.0c152382d7366p+2.
Definition c0_1 : float := 0x1.999999999999ap-4.
Definition c0_2 : float := 0x1.999999999999ap-3.
Definition c0_3 : float := 0x1.3333333333333p-2.
Definition c0_7 : float := 0x1.6666666666666p-1.
Definition c0_8 : float := 0x1.999999999999ap-1.

(** [uint8(f)] on a float64. *)
Definition uint8 (f : float) : Z :=
  match F64.trunc_SF (Prim2SF f) with
  | Some z => if ((0 <=? z) && (z <? 256))%Z then z else uint8_unrepresentable M f
  | None => uint8_unrepresentable M f
  end.

Definition of_rgb (c : Z * Z * Z) (a : Z) : RGBA :=
  let '(r, g, b) := c in mkRGBA r g b a.

(** [float64(i) - math.Log(math.Log(cmplx.Abs(z)))/math.Log(2)]. *)
Definition smoothColor (i : Z) (z : complex128) : float :=
  F64.of_int i - math_Log M (math_Log M (C128.Abs z)) / math_Log M 2.

Definition SmoothColorHSV (i maxIterations : Z) (z : complex128) : RGBA :=
  if (i =? maxIterations)%Z then mkRGBA 0 0 0 255
  else
    let hue := math_Sin M (smoothColor i z * c0_1) in
    of_rgb (Hsv_RGB255 M (hue * 360) c0_8 1) 255.

Definition StripePattern (i maxIterations : Z) (z : complex128) : RGBA :=
  if (i =? maxIterations)%Z then mkRGBA 0 0 0 255
  else
    let stripeWidth := 10%Z in
    let stripeIndex := GoInt.div i stripeWidth in
    let inStripe := GoInt.rem i stripeWidth in
    let baseHue := F64.of_int (GoInt.rem stripeIndex 6) / 6 in
    let hue := baseHue + F64.of_int inStripe / (F64.of_int stripeWidth * 6) in
    let saturation := c0_8 + c0_2 * math_Sin M (F64.of_int i * c0_1) in
    let value := 1 - 0.5 * F64.of_int inStripe / F64.of_int stripeWidth in
    of_rgb (Hsv_RGB255 M (hue * 360) saturation value) 255.

Definition ElectricPlasma (i maxIterations : Z) (z : complex128) : RGBA :=
  if (i =? maxIterations)%Z then mkRGBA 0 0 0 255
  else
    let t := smoothColor i z / F64.of_int maxIterations in
    let r := uint8 (math_Sin M (t * Pi) * 127 + 128) in
    let g := uint8 (math_Sin M (t * Pi * 2) * 127 + 128) in
    let b := uint8 (math_Sin M (t * Pi * 4) * 127 + 128) in
    mkRGBA r g b 255.

Definition PsychedelicSwirl (i maxIterations : Z) (z : complex128) : RGBA :=
  if (i =? maxIterations)%Z then mkRGBA 0 0 0 255
  else
    let angle := math_Atan2 M (im z) (re z) in
    let radius := C128.Abs z in
    let hue := (math_Atan2 M angle (math_Log M radius) + Pi) / TwoPi in
    let saturation := c0_8 + c0_2 * math_Sin M (F64.of_int i * c0_1) in
    let value := 1 - math_Pow M (F64.of_int i / F64.of_int maxIterations) c0_3 in
    of_rgb (Hsv_RGB255 M (hue * 360) saturation value) 255.

Definition MetallicSheen (i maxIterations : Z) (z : complex128) : RGBA :=
  if (i =? maxIterations)%Z then mkRGBA 0 0 0 255
  else
    let t := smoothColor i z / F64.of_int maxIterations in
    let r := uint8 (128 + 127 * math_Sin M (t * 2 * Pi + 0)) in
    let g := uint8 (128 + 127 * math_Sin M (t * 2 * Pi + TwoPiOver3)) in
    let b := uint8 (128 + 127 * math_Sin M (t * 2 * Pi + FourPiOver3)) in
    mkRGBA r g b 255.

Definition RainbowSpiral (i maxIterations : Z) (z : complex128) : RGBA :=
  if (i =? maxIterations)%Z then mkRGBA 0 0 0 255
  else
    let t := smoothColor i z / F64.of_int maxIterations in
    let intensity := uint8 (255 * math_Pow M (1 - t) 3) in
    of_rgb (Hsv_RGB255 M (t * 360) 1 1) intensity.

Definition AutumnLeaves (i maxIterations : Z) (z : complex128) : RGBA :=
  if (i =? maxIterations)%Z then mkRGBA 0 0 0 255
  else
    let t := smoothColor i z / F64.of_int maxIterations in
    let hue := 30 + 60 * math_Sin M (t * Pi) in
    let saturation := c0_8 + c0_2 * math_Cos M (t * 2 * Pi) in
    let value := c0_7 + c0_3 * math_Sin M (t * 4 * Pi) in
    of_rgb (Hsv_RGB255 M hue saturation value) 255.

Definition OceanDepths (i maxIterations : Z) (z : complex128) : RGBA :=
  if (i =? maxIterations)%Z then mkRGBA 0 0 0 255
  else
    let t := smoothColor i z / F64.of_int maxIterations in
    let hue := 180 + 60 * math_Sin M (t * Pi) in
    let saturation := c0_7 + c0_3 * math_Cos M (t * 2 * Pi) in
    let value := 0.5 + 0.5 * math_Pow M t 0.5 in
    of_rgb (Hsv_RGB255 M hue saturation value) 255.

Definition MoltenLava (i maxIterations : Z) (z : complex128) : RGBA :=
  if (i =? maxIterations)%Z then mkRGBA 0 0 0 255
  else
    let t := smoothColor i z / F64.of_int maxIterations in
    let r := uint8 (255 * math_Pow M t 0.5) in
    let g := uint8 (128 * math_Pow M t 2) in
    let b := uint8 (64 * math_Pow M t 4) in
    mkRGBA r g b 255.

Definition BlendTwoAlgorithms (i maxIterations : Z) (z : complex128) : RGBA :=
  let color1 := SmoothColorHSV i maxIterations z in
  let color2 := MetallicSheen i maxIterations z in
  let blendFactor := math_Sin M (F64.of_int i / F64.of_int maxIterations * Pi) in
  let mix (a b : Z) := uint8 (F64.of_int a * blendFactor + F64.of_int b * (1 - blendFactor)) in
  mkRGBA (mix (R color1) (R color2)) (mix (G color1) (G color2))
         (mix (B color1) (B color2)) 255.

Definition AlternateAlgorithms (i maxIterations : Z) (z : complex128) (x y : Z) : RGBA :=
  if (GoInt.rem (GoInt.add x y) 2 =? 0)%Z then ElectricPlasma i maxIterations z
  else AutumnLeaves i maxIterations z.

Definition MixMultipleAlgorithms (i maxIterations : Z) (z : complex128) : RGBA :=
  let color1 := StripePattern i maxIterations z in
  let color2 := MetallicSheen i maxIterations z in
  let color3 := OceanDepths i maxIterations z in
  let t := F64.of_int i / F64.of_int maxIterations in
  let weight1 := math_Sin M (t * Pi) in
  let weight2 := math_Sin M (t * 2 * Pi) in
  let weight3 := math_Sin M (t * 4 * Pi) in
  let totalWeight := weight1 + weight2 + weight3 in
  let mix (a b c : Z) :=
    uint8 ((F64.of_int a * weight1 + F64.of_int b * weight2 + F64.of_int c * weight3)
           / totalWeight) in
  mkRGBA (mix (R color1) (R color2) (R color3)) (mix (G color1) (G color2) (G color3))
         (mix (B color1) (B color2) (B color3)) 255.

End Colorings.

(** [int(math.Exp(x))] for the arguments [createGreyPalette] passes,
    [x = -i/50 <= 0]: [e^x] is 1 at zero and lies strictly between 0 and 1
    below it, so the conversion gives 1 or 0. *)
Definition int_Exp_nonpos (x : float) : Z := if (x <? 0)%float then 0 else 1.

(** One entry of the table [createGreyPalette] fills. *)
Definition greyEntry (i : Z) : Z :=
  let p := GoInt.to_uint8
             (i + 512 - 512 * int_Exp_nonpos (- F64.of_int i / 50)%float / 3) in
  Z.lor (Z.lor (Z.shiftl p 16) (Z.shiftl p 8)) p.

(** [createGreyPalette]: 256 entries, the last one overwritten by 0. *)
Definition createGreyPalette : list Z :=
  <[ 255%nat := 0 ]> (map (fun n => greyEntry (Z.of_nat n)) (seq 0 256)).

Definition greyPalette : list Z := Eval vm_compute in createGreyPalette.

(** [GreyPalette]: the table lookup [greyPalette[i%256]] panics on a
    negative index, which is [None] here. *)
Definition GreyPalette (i maxIterations : Z) (z : complex128) : option RGBA :=
  if i =? maxIterations then Some (mkRGBA 0 0 0 255)
  else
    let k := GoInt.rem i 256 in
    if k <? 0 then None
    else
      colorInt ← greyPalette !! Z.to_nat k;
      Some (mkRGBA (Z.land colorInt 255) (Z.land (Z.shiftr colorInt 8) 255)
                   (Z.land (Z.shiftr colorInt 16) 255) 255).

End Color.

(** [ReturnRGBA]: the switch over the colouring id, [default:] last. *)
Definition ReturnRGBA (M : MathLib) (coloring i maxIterations : Z) (z : complex128)
    (x y : Z) : option RGBA :=
  match coloring with
  | 1 => Some (Color.SmoothColorHSV M i maxIterations z)
  | 2 => Some (Color.StripePattern M i maxIterations z)
  | 3 => Some (Color.ElectricPlasma M i maxIterations z)
  | 4 => Some (Color.PsychedelicSwirl M i maxIterations z)
  | 5 => Some (Color.MetallicSheen M i maxIterations z)
  | 6 => Some (Color.RainbowSpiral M i maxIterations z)
  | 7 => Some (Color.AutumnLeaves M i maxIterations z)
  | 8 => Some (Color.OceanDepths M i maxIterations z)
  | 9 => Some (Color.MoltenLava M i maxIterations z)
  | 10 => Color.GreyPalette i maxIterations z
  | 11 => Some (Color.AlternateAlgorithms M i maxIterations z x y)
  | 12 => Some (Color.MixMultipleAlgorithms M i maxIterations z)
  | _ => Some (Color.SmoothColorHSV M i maxIterations z)
  end.

(* ===================================================================== *)
(** ** Images and the PNG step *)

Record Rectangle : Type := mkRectangle { MinX : Z; MinY : Z; MaxX : Z; MaxY : Z }.

(** [image.Rect]: the corners are put in order, so the rectangle is
    well-formed whatever the sign of its arguments. *)
Definition image_Rect (x0 y0 x1 y1 : Z) : Rectangle :=
  let '(x0, x1) := if x1 <? x0 then (x1, x0) else (x0, x1) in
  let '(y0, y1) := if y1 <? y0 then (y1, y0) else (y0, y1) in
  mkRectangle x0 y0 x1 y1.

Definition Dx (r : Rectangle) : Z := MaxX r - MinX r.
Definition Dy (r : Rectangle) : Z := MaxY r - MinY r.

Record RGBAImage : Type := mkRGBAImage { Pix : list Z; Stride : Z; Rect : Rectangle }.

(** The longest slice [make] hands out on a 64-bit platform; a longer one
    is a panic of the runtime. *)
Definition maxAlloc : Z := 2 ^ 48.

(** Whether [image.NewRGBA] returns for the rectangle [r].  The library
    takes [Dx] and [Dy] in [int] and panics when one of them is negative,
    when [4 * Dx] does not fit 64 bits, or when [4 * Dx * Dy] does not fit an
    [int]; [make] then panics on a length above [maxAlloc].  A machine
    that runs out of memory below that length, which ends the program, is
    not modelled. *)
Definition NewRGBA_returns (r : Rectangle) : bool :=
  let dx := GoInt.sub (MaxX r) (MinX r) in
  let dy := GoInt.sub (MaxY r) (MinY r) in
  (0 <=? dx) && (0 <=? dy) && (4 * dx <? 2 ^ 64) && (4 * dx * dy <? 2 ^ 63)
  && (4 * dx * dy <=? maxAlloc).

(** [image.NewRGBA]: a zeroed buffer of four bytes a pixel.  This is the
    image the library returns on a rectangle for which [NewRGBA_returns]
    holds; on any other rectangle the library panics, and what is proved of
    a rendering holds where the rectangle passes that test. *)
Definition NewRGBA (r : Rectangle) : RGBAImage :=
  mkRGBAImage (replicate (Z.to_nat (4 * Dx r * Dy r)) 0) (4 * Dx r) r.

Definition PointIn (x y : Z) (r : Rectangle) : bool :=
  (MinX r <=? x) && (x <? MaxX r) && (MinY r <=? y) && (y <? MaxY r).

Definition PixOffset (p : RGBAImage) (x y : Z) : Z :=
  (y - MinY (Rect p)) * Stride p + (x - MinX (Rect p)) * 4.

(** The method [Set] of [image.RGBA]: nothing happens outside the rectangle. *)
Definition RGBA_Set (p : RGBAImage) (x y : Z) (c : RGBA) : RGBAImage :=
  if PointIn x y (Rect p) then
    let i := Z.to_nat (PixOffset p x y) in
    mkRGBAImage
      (<[ (i + 3)%nat := A c ]> (<[ (i + 2)%nat := B c ]>
         (<[ (i + 1)%nat := G c ]> (<[ i := R c ]> (Pix p)))))
      (Stride p) (Rect p)
  else p.

Inductive png_error : Type := InvalidImageSize.

(** [png.Encode] into a [bytes.Buffer]: an image with an empty side (or one
    of 2^32 pixels or more) is refused before anything is written; otherwise
    the serialisation [codec] of the image is appended and, the buffer never
    failing a write, there is no error. *)
Definition png_Encode (codec : RGBAImage -> list byte) (buf : list byte) (m : RGBAImage)
  : list byte * option png_error :=
  let mw := Dx (Rect m) in
  let mh := Dy (Rect m) in
  if (mw <=? 0) || (mh <=? 0) || (2 ^ 32 <=? mw) || (2 ^ 32 <=? mh)
  then (buf, Some InvalidImageSize)
  else (buf ++ codec m, None).

(* ===================================================================== *)
(** ** Tiles *)

Record Tile : Type := mkTile {
  Tile_X : Z;
  Tile_Y : Z;
  Tile_Width : Z;
  Tile_Height : Z;
  Tile_LOD : Z;
  Tile_Image : list byte;
  Tile_LastAccessed : Z
}.

Section Render.

Context (M : MathLib) (codec : RGBAImage -> list byte).

(** The colour of one pixel: the body of the inner loop after [z] has been
    set up.  A [None] from the registry stands for a panic, which needs a
    negative iteration count and so cannot happen here
    (see [pixel_color_registry]). *)
Definition pixel_color (params : JuliaParams) (offset : Offset)
    (tileX tileY px py : Z) : RGBA :=
  let c := Complex128 (Real (C params)) (Imag (C params)) in
  let z := pixel_point params offset tileX tileY px py in
  let '(i, z) := escape_time c z (MaxIterations params) in
  if i <? MaxIterations params then
    default color_Black
      (ReturnRGBA M (Coloring params) i (MaxIterations params) z
         (GoInt.add tileX px) (GoInt.add tileY py))
  else color_Black.

(** The two nested loops over the tile, [py] outside and [px] inside. *)
Definition render_rows (params : JuliaParams) (offset : Offset)
    (tileX tileY tileWidth tileHeight : Z) (img : RGBAImage) : RGBAImage :=
  foldl (fun img py =>
           foldl (fun img px =>
                    RGBA_Set img px py (pixel_color params offset tileX tileY px py))
                 img (seqZ 0 tileWidth))
        img (seqZ 0 tileHeight).

(** The image [generateJuliaTile] hands to [png.Encode]. *)
Definition tile_image (params : JuliaParams) (tileX tileY tileWidth tileHeight : Z)
    (offset : Offset) : RGBAImage :=
  render_rows params offset tileX tileY tileWidth tileHeight
    (NewRGBA (image_Rect 0 0 tileWidth tileHeight)).

(** [generateJuliaTile]; [now] is the reading of [time.Now()].  The error of
    [png.Encode] is dropped, as in the source: the tile carries whatever the
    buffer holds. *)
Definition generateJuliaTile (now : Z) (params : JuliaParams)
    (tileX tileY tileWidth tileHeight lod : Z) (offset : Offset) : Tile :=
  let img := tile_image params tileX tileY tileWidth tileHeight offset in
  let '(buf, _) := png_Encode codec [] img in
  mkTile tileX tileY tileWidth tileHeight lod buf now.

End Render.

(* ===================================================================== *)
(** ** The tile cache *)

(** [TileCache.cache], a [map[string]*Tile]; the mutex has no counterpart in
    a sequential model. *)
Abbreviation TileCache := (gmap string Tile).

Module Cache.

Definition Get (tc : TileCache) (key : string) : option Tile := tc !! key.
Definition Set_ (tc : TileCache) (key : string) (tile : Tile) : TileCache := <[ key := tile ]> tc.
Definition Delete (tc : TileCache) (key : string) : TileCache := delete key tc.
Definition Len (tc : TileCache) : Z := Z.of_nat (size tc).

End Cache.

Definition touch (now : Z) (tile : Tile) : Tile :=
  mkTile (Tile_X tile) (Tile_Y tile) (Tile_Width tile) (Tile_Height tile)
         (Tile_LOD tile) (Tile_Image tile) now.

(** [getCachedTile]: a hit refreshes [LastAccessed] on the tile the cache
    points to and stores it back. *)
Definition getCachedTile (now : Z) (tc : TileCache) (params : JuliaParams)
    (x y lod : Z) (offset : Offset) : option Tile * TileCache :=
  let key := getTileKey params x y lod offset in
  match Cache.Get tc key with
  | Some tile => let tile := touch now tile in (Some tile, Cache.Set_ tc key tile)
  | None => (None, tc)
  end.

(** One pass of the [range] loop of [cacheTile] over an entry [(k, v)]; the
    accumulator is [(oldestKey, oldestTime)]. *)
Definition oldest_step (acc : string * Z) (kv : string * Tile) : string * Z :=
  if String.eqb (fst acc) EmptyString || (Tile_LastAccessed (snd kv) <? snd acc)
  then (fst kv, Tile_LastAccessed (snd kv))
  else acc.

(** The whole loop, over the entries in the order the runtime yields them;
    [oldestKey] starts empty and [oldestTime] at the zero time. *)
Definition oldest_scan (entries : list (string * Tile)) : string * Z :=
  foldl oldest_step (EmptyString, 0) entries.

Section CacheTile.

(** The order in which [range] walks a map is chosen by the runtime. *)
Context (range : TileCache -> list (string * Tile)).

(** [cacheTile]. *)
Definition cacheTile (tc : TileCache) (params : JuliaParams) (tile : Tile)
    (offset : Offset) : TileCache :=
  let key := getTileKey params (Tile_X tile) (Tile_Y tile) (Tile_LOD tile) offset in
  let tc := Cache.Set_ tc key tile in
  if MaxCacheSize <? Cache.Len tc then
    Cache.Delete tc (fst (oldest_scan (range tc)))
  else tc.

(** A sequence of calls of [cacheTile], one after the other. *)
Definition cacheTiles (tc : TileCache) (calls : list (JuliaParams * Tile * Offset))
  : TileCache :=
  foldl (fun tc '(params, tile, offset) => cacheTile tc params tile offset) tc calls.

End CacheTile.

(* ===================================================================== *)
(** ** Scheduling a batch *)

(** The comparison function handed to [sort.Slice]. *)
Definition request_dist (params : JuliaParams) (r : TileRequest) : float :=
  let centerX := GoInt.div (Width params) 2 in
  let centerY := GoInt.div (Height params) 2 in
  (F64.Pow2 (F64.of_int (GoInt.sub (Req_X r) centerX))
   + F64.Pow2 (F64.of_int (GoInt.sub (Req_Y r) centerY)))%float.

Definition request_less (params : JuliaParams) (a b : TileRequest) : bool :=
  if negb (Req_LOD a =? Req_LOD b) then Req_LOD a <? Req_LOD b
  else (request_dist params a <? request_dist params b)%float.

Section InsertionSort.

Context {T : Type} (less : T -> T -> bool).

(** The inner loop of the library's insertion sort: the new element moves
    left while it is less than its left neighbour.  The sorted prefix is
    held back to front, its last element first. *)
Fixpoint sift (x : T) (prefix_rev : list T) : list T :=
  match prefix_rev with
  | [] => [x]
  | y :: rest => if less x y then y :: sift x rest else x :: y :: rest
  end.

(** [sort.Slice] on a short slice (up to 12 elements the library sorts by
    insertion; a longer one goes through a pattern-defeating quicksort,
    which is not unfolded here and may order ties differently). *)
Definition insertionSort (l : list T) : list T :=
  rev (foldl (fun acc x => sift x acc) [] l).

(** What [sort.Slice] promises of its result [l'] for the input [l]: the
    same elements, and no element less than its left neighbour. *)
Definition sort_Slice_result (l l' : list T) : Prop :=
  l ≡ₚ l' /\ Sorted (fun a b => less b a = false) l'.

End InsertionSort.

(** [int(math.Min(float64(TileSize), float64(extent - origin)))]. *)
Definition tile_extent (extent origin : Z) : Z :=
  F64.to_int (F64.Min (F64.of_int TileSize) (F64.of_int (GoInt.sub extent origin))).

(** Whether [generateJuliaTile] gets its image for the request [r]: the
    rectangle it hands to [image.NewRGBA] is one the library returns on. *)
Definition tile_allocates (params : JuliaParams) (r : TileRequest) : bool :=
  NewRGBA_returns
    (image_Rect 0 0 (tile_extent (Width params) (Req_X r))
                    (tile_extent (Height params) (Req_Y r))).

Section Scheduler.

Context (M : MathLib) (codec : RGBAImage -> list byte)
        (range : TileCache -> list (string * Tile)).

(** The body of the goroutine started for one request. *)
Definition tile_task (now : Z) (params : JuliaParams) (offset : Offset)
    (tc : TileCache) (req : TileRequest) : Tile * TileCache :=
  let tx := Req_X req in
  let ty := Req_Y req in
  let lod := Req_LOD req in
  let tileWidth := tile_extent (Width params) tx in
  let tileHeight := tile_extent (Height params) ty in
  match getCachedTile now tc params tx ty lod offset with
  | (Some cachedTile, tc) => (cachedTile, tc)
  | (None, tc) =>
      let tile := generateJuliaTile M codec now params tx ty tileWidth tileHeight lod offset in
      (tile, cacheTile range tc params tile offset)
  end.

(** The tasks of a batch, run one after the other in dispatch order; task
    number [n] reads the clock as [clock n]. *)
Fixpoint run_tasks (clock : nat -> Z) (n : nat) (params : JuliaParams) (offset : Offset)
    (tc : TileCache) (reqs : list TileRequest) : list Tile * (TileCache * nat) :=
  match reqs with
  | [] => ([], (tc, n))
  | req :: rest =>
      let '(tile, tc) := tile_task (clock n) params offset tc req in
      let '(tiles, st) := run_tasks clock (S n) params offset tc rest in
      (tile :: tiles, st)
  end.

(** [generateJuliaSet]: the tiles sent on the channel.  The goroutines run
    concurrently in the source; this is the schedule in which each one runs
    to completion before the next starts.  What is proved through it is
    what each task does for its own request (its tile, its key, its
    message); the size of the cache under other schedules is the matter of
    [Interleaving] further down. *)
Definition generateJuliaSet (clock : nat -> Z) (n : nat) (params : JuliaParams)
    (tc : TileCache) (requestedTiles : list TileRequest) (offset : Offset)
  : list Tile * (TileCache * nat) :=
  run_tasks clock n params offset tc (insertionSort (request_less params) requestedTiles).

End Scheduler.

(* ===================================================================== *)
(** ** Reading a tile coordinate: [fmt.Sscanf(tile, "%d,%d", &x, &y)] *)

Module Scan.

Definition byte_is (c : ascii) (n : nat) : bool := Nat.eqb (nat_of_ascii c) n.

(** The white space [SkipSpace] passes over: the next rune is a space
    (other than a newline) of the given width in bytes, or it is not.
    Runes beyond ASCII are read from their UTF-8 encoding. *)
Definition space_width (s : list ascii) : nat :=
  match map nat_of_ascii s with
  | 9%nat :: _ | 11%nat :: _ | 12%nat :: _ | 13%nat :: _ | 32%nat :: _ => 1
  | 194%nat :: 133%nat :: _ | 194%nat :: 160%nat :: _ => 2
  | 225%nat :: 154%nat :: 128%nat :: _ => 3
  | 226%nat :: 128%nat :: b :: _ =>
      if ((128 <=? b) && (b <=? 138) || (b =? 168) || (b =? 169) || (b =? 175))%nat
      then 3 else 0
  | 226%nat :: 129%nat :: 159%nat :: _ => 3
  | 227%nat :: 128%nat :: 128%nat :: _ => 3
  | _ => 0
  end.

(** [SkipSpace] for [Sscanf], where a newline is not white space but an
    error ([None]). *)
Fixpoint SkipSpace (fuel : nat) (s : list ascii) : option (list ascii) :=
  match fuel with
  | O => Some s
  | S fuel' =>
      match s with
      | [] => Some s
      | c :: _ =>
          if byte_is c 10 then None
          else match space_width s with
               | O => Some s
               | w => SkipSpace fuel' (drop w s)
               end
      end
  end.

Definition is_sign (c : ascii) : bool := byte_is c 43 || byte_is c 45.
Definition is_digit (c : ascii) : bool :=
  (48 <=? nat_of_ascii c)%nat && (nat_of_ascii c <=? 57)%nat.
(** The runes [scanNumber] accepts for the verb: the decimal digits and the
    underscore. *)
Definition is_number_rune (c : ascii) : bool := is_digit c || byte_is c 95.

Fixpoint span_number (s : list ascii) : list ascii * list ascii :=
  match s with
  | c :: rest =>
      if is_number_rune c then
        let '(tok, rest') := span_number rest in (c :: tok, rest')
      else ([], s)
  | [] => ([], [])
  end.

(** [strconv.ParseUint(tok, 10, 64)] without the overflow test, which
    [ParseInt] below subsumes; an underscore is a syntax error in base 10. *)
Fixpoint parse_digits (acc : Z) (tok : list ascii) : option Z :=
  match tok with
  | [] => Some acc
  | c :: rest =>
      if is_digit c then parse_digits (10 * acc + (Z.of_nat (nat_of_ascii c) - 48)) rest
      else None
  end.

(** [scanInt]: white space, an optional sign, at least one number rune;
    then [strconv.ParseInt] of the token into 64 bits.  [None] is any of the
    panics that make [Sscanf] return early. *)
Definition scanInt (s : list ascii) : option (Z * list ascii) :=
  s ← SkipSpace (length s) s;
  let '(neg, s) := match s with
                   | c :: rest => if is_sign c then (byte_is c 45, rest) else (false, s)
                   | [] => (false, s)
                   end in
  let '(tok, rest) := span_number s in
  match tok with
  | [] => None
  | _ =>
      un ← parse_digits 0 tok;
      if neg then (if un <=? 2 ^ 63 then Some (- un, rest) else None)
      else (if un <? 2 ^ 63 then Some (un, rest) else None)
  end.

(** The operands [Sscanf] has stored when it returns, in order: none, the
    first, or both.  The literal comma must follow the first number at
    once. *)
Definition Sscanf_d_d (str : string) : list Z :=
  match scanInt (list_ascii_of_string str) with
  | None => []
  | Some (x, rest) =>
      match rest with
      | c :: rest' =>
          if byte_is c 44 then
            match scanInt rest' with
            | Some (y, _) => [x; y]
            | None => [x]
            end
          else [x]
      | [] => [x]
      end
  end.

End Scan.

(* ===================================================================== *)
(** ** [base64.StdEncoding.EncodeToString] *)

Module Base64.

Definition alphabet : list ascii :=
  list_ascii_of_string "ABCDEFGHIJKLMNOPQRSTUVWXYZabcdefghijklmnopqrstuvwxyz0123456789+/".

Definition sextet (n : Z) : ascii := nth (Z.to_nat (n mod 64)) alphabet "="%char.

Definition val (b : byte) : Z := Z.of_N (Byte.to_N b).

Fixpoint encode (fuel : nat) (src : list byte) : list ascii :=
  match fuel with
  | O => []
  | S fuel' =>
      match src with
      | [] => []
      | [a] =>
          let v := val a * 65536 in
          [sextet (v / 262144); sextet (v / 4096); "="%char; "="%char]
      | [a; b] =>
          let v := val a * 65536 + val b * 256 in
          [sextet (v / 262144); sextet (v / 4096); sextet (v / 64); "="%char]
      | a :: b :: c :: rest =>
          let v := val a * 65536 + val b * 256 + val c in
          sextet (v / 262144) :: sextet (v / 4096) :: sextet (v / 64) :: sextet v
            :: encode fuel' rest
      end
  end.

Definition EncodeToString (src : list byte) : string :=
  string_of_list_ascii (encode (length src) src).

End Base64.

(* ===================================================================== *)
(** ** The session handler *)

(** The body of an inbound message once [json.Unmarshal] has filled the
    request struct. *)
Record Request : Type := mkRequest {
  Request_Params : JuliaParams;
  Request_Tiles : list string;
  Request_Offset : Offset
}.

(** What the read and decode steps of one turn of the loop give. *)
Inductive Inbound : Type :=
| ReadError
| UnmarshalError
| Decoded (request : Request).

(** The outbound message, one per tile. *)
Record TileMessage : Type := mkTileMessage {
  msg_type : string;
  msg_x : Z;
  msg_y : Z;
  msg_width : Z;
  msg_height : Z;
  msg_lod : Z;
  msg_image : string
}.

Inductive SessionState : Type := AwaitingMessage | Closed.

Definition with_LOD (params : JuliaParams) (lod : Z) : JuliaParams :=
  mkJuliaParams (C params) (Center params) (Zoom params) (Coloring params)
                (MaxIterations params) (Width params) (Height params) lod.

(** The loop that turns [request.Tiles] into [requestedTiles]: [x] and [y]
    start at zero, [Sscanf] stores what it parsed and its error is not
    looked at. *)
Definition parse_tile (params : JuliaParams) (tile : string) : TileRequest :=
  let stored := Scan.Sscanf_d_d tile in
  mkTileRequest (nth 0 stored 0) (nth 1 stored 0) (LOD params).

Definition parse_tiles (params : JuliaParams) (tiles : list string) : list TileRequest :=
  map (parse_tile params) tiles.

(** The "Validate params" step. *)
Definition validate (params : JuliaParams) : JuliaParams :=
  if LOD params <? 1 then with_LOD params 1 else params.

Definition tile_message (tile : Tile) : TileMessage :=
  mkTileMessage "tile" (Tile_X tile) (Tile_Y tile) (Tile_Width tile) (Tile_Height tile)
                (Tile_LOD tile) (Base64.EncodeToString (Tile_Image tile)).

(** The [for tile := range ch] loop: a message per tile until a write
    fails; [write_fails] is the transport's verdict on each message. *)
Fixpoint send_tiles (write_fails : TileMessage -> bool) (tiles : list Tile)
  : list TileMessage * SessionState :=
  match tiles with
  | [] => ([], AwaitingMessage)
  | tile :: rest =>
      let message := tile_message tile in
      if write_fails message then ([], Closed)
      else let '(sent, st) := send_tiles write_fails rest in (message :: sent, st)
  end.

Section Session.

Context (M : MathLib) (codec : RGBAImage -> list byte)
        (range : TileCache -> list (string * Tile))
        (clock : nat -> Z) (write_fails : TileMessage -> bool).

(** The tiles a decoded request puts on the channel. *)
Definition batch_tiles (n : nat) (tc : TileCache) (request : Request)
  : list Tile * (TileCache * nat) :=
  let params := Request_Params request in
  let requestedTiles := parse_tiles params (Request_Tiles request) in
  let params := validate params in
  generateJuliaSet M codec range clock n params tc requestedTiles (Request_Offset request).

(** One turn of the loop of [wsHandler]: the messages written, the state
    the session is left in, and the cache and clock afterwards. *)
Definition wsHandler_turn (n : nat) (tc : TileCache) (inbound : Inbound)
  : list TileMessage * SessionState * (TileCache * nat) :=
  match inbound with
  | ReadError | UnmarshalError => ([], Closed, (tc, n))
  | Decoded request =>
      let '(tiles, st) := batch_tiles n tc request in
      let '(sent, state) := send_tiles write_fails tiles in
      (sent, state, st)
  end.

End Session.

(* ===================================================================== *)
(** * Properties *)

(** ** Strings built by [Sprintf] *)

Module FmtFacts.

Import Fmt.
Local Open Scope string_scope.

Fixpoint no_comma (s : string) : bool :=
  match s with
  | EmptyString => true
  | String c s' => negb (Ascii.eqb c ","%char) && no_comma s'
  end.

Lemma no_comma_app (a b : string) :
  no_comma (a +:+ b) = no_comma a && no_comma b.
Proof.
  induction a as [|c a IH]; simpl; [reflexivity|].
  rewrite IH. now rewrite andb_assoc.
Qed.

Lemma append_inv_head (s a b : string) : s +:+ a = s +:+ b -> a = b.
Proof.
  induction s as [|c s IH]; simpl; intros H; [exact H|].
  injection H as H. auto.
Qed.

(** A field that holds no comma ends at the first comma of the string. *)
Lemma field_split (a b s t : string) :
  no_comma a = true -> no_comma b = true ->
  a +:+ "," +:+ s = b +:+ "," +:+ t -> a = b /\ s = t.
Proof.
  revert b. induction a as [|c a IH]; intros [|d b] Ha Hb H; simpl in *.
  - injection H as H. auto.
  - injection H as Hc _. subst d. simpl in Hb. discriminate.
  - injection H as Hc _. subst c. simpl in Ha. discriminate.
  - injection H as Hc H. subst d.
    apply andb_prop in Ha as [_ Ha]. apply andb_prop in Hb as [_ Hb].
    destruct (IH b Ha Hb H) as [-> ->]. auto.
Qed.

Lemma join_comma_cons (s : string) (l : list string) :
  l <> [] -> join_comma (s :: l) = s +:+ "," +:+ join_comma l.
Proof. destruct l; [congruence|reflexivity]. Qed.

(** Lists of comma-free fields of the same length are joined into
    different strings unless they are equal. *)
Lemma join_comma_inj (l l' : list string) :
  length l = length l' ->
  forallb no_comma l = true -> forallb no_comma l' = true ->
  join_comma l = join_comma l' -> l = l'.
Proof.
  revert l'. induction l as [|s l IH]; intros [|s' l'] Hlen Hl Hl' H;
    try discriminate; [reflexivity|].
  simpl in Hlen. injection Hlen as Hlen.
  simpl in Hl, Hl'.
  apply andb_prop in Hl as [Hs Hl]. apply andb_prop in Hl' as [Hs' Hl'].
  destruct l as [|x l]; destruct l' as [|x' l']; try discriminate.
  - simpl in H. now subst.
  - rewrite !join_comma_cons in H by discriminate.
    destruct (field_split _ _ _ _ Hs Hs' H) as [-> Hrest].
    f_equal. now apply IH.
Qed.

Lemma string_of_uint_no_comma (d : Decimal.uint) :
  no_comma (NilEmpty.string_of_uint d) = true.
Proof. induction d; simpl; auto. Qed.

Lemma fmt_d_no_comma (n : Z) : no_comma (fmt_d n) = true.
Proof.
  unfold fmt_d, NilZero.string_of_int, NilZero.string_of_uint.
  destruct (Z.to_int n) as [d|d]; destruct d; simpl;
    auto using string_of_uint_no_comma.
Qed.

Lemma to_int_not_nil (n : Z) :
  Z.to_int n <> Decimal.Pos Decimal.Nil /\ Z.to_int n <> Decimal.Neg Decimal.Nil.
Proof.
  destruct n as [|p|p]; simpl; split; try discriminate;
    intros H; injection H as H;
    pose proof (DecimalPos.Unsigned.to_uint_nonnil p) as Hn; contradiction.
Qed.

(** [%d] prints different integers differently. *)
Lemma fmt_d_inj (a b : Z) : fmt_d a = fmt_d b -> a = b.
Proof.
  unfold fmt_d. intros H.
  destruct (to_int_not_nil a) as [Ha1 Ha2], (to_int_not_nil b) as [Hb1 Hb2].
  apply (f_equal NilZero.int_of_string) in H.
  rewrite !NilZero.isi in H by assumption.
  injection H as H.
  apply (f_equal Z.of_int) in H.
  now rewrite !DecimalZ.of_to in H.
Qed.

Lemma digit_no_comma (d : Z) : Ascii.eqb (digit d) ","%char = false.
Proof.
  unfold digit.
  assert (Hr : (Z.to_nat (d mod 10) < 10)%nat) by
    (pose proof (Z.mod_pos_bound d 10 ltac:(lia)); lia).
  generalize dependent (Z.to_nat (d mod 10)). intros k Hk.
  do 10 (destruct k as [|k]; [reflexivity|]). lia.
Qed.

Lemma frac6_no_comma (n : Z) : no_comma (frac6 n) = true.
Proof. unfold frac6, no_comma. now rewrite !digit_no_comma. Qed.

Lemma fixed6_no_comma (s : bool) (n : Z) : no_comma (fixed6 s n) = true.
Proof.
  unfold fixed6. rewrite !no_comma_app, fmt_d_no_comma, frac6_no_comma.
  now destruct s.
Qed.

Lemma fmt_f_no_comma (f : float) : no_comma (fmt_f f) = true.
Proof.
  unfold fmt_f. destruct (Prim2SF f) as [s|[]| |s m e]; auto using fixed6_no_comma.
Qed.

End FmtFacts.

(** Equal keys come from equal integer operands: every [%d] field of the
    key is recovered from the key. *)
Lemma getTileKey_ints (p p' : JuliaParams) (x y lod x' y' lod' : Z) (o o' : Offset) :
  getTileKey p x y lod o = getTileKey p' x' y' lod' o' ->
  MaxIterations p = MaxIterations p' /\ Width p = Width p' /\ Height p = Height p' /\
  Coloring p = Coloring p' /\ x = x' /\ y = y' /\ lod = lod'.
Proof.
  unfold getTileKey. intros H.
  apply FmtFacts.join_comma_inj in H; [|reflexivity| |];
    [|simpl; now rewrite !FmtFacts.fmt_f_no_comma, !FmtFacts.fmt_d_no_comma ..].
  injection H as _ _ _ _ _ H1 H2 H3 H4 H5 H6 H7 _ _.
  repeat split; now apply FmtFacts.fmt_d_inj.
Qed.

Lemma getTileKey_nonempty (p : JuliaParams) (x y lod : Z) (o : Offset) :
  getTileKey p x y lod o <> EmptyString.
Proof.
  unfold getTileKey. simpl.
  destruct (Fmt.fmt_f (Real (C p))); discriminate.
Qed.

(* ===================================================================== *)
(** ** The colouring registry: unknown ids *)

(** C7. For a colouring id outside 1..12, [ReturnRGBA] does not fail and
    returns the colour of the default variant [SmoothColorHSV], which is
    also what id 1 returns, whatever the other arguments are. *)
Theorem ReturnRGBA_unknown_id_is_default :
  forall coloring : Z, ~ (1 <= coloring <= 12) ->
  forall (M : MathLib) (i maxIterations : Z) (z : complex128) (x y : Z),
    ReturnRGBA M coloring i maxIterations z x y
      = Some (Color.SmoothColorHSV M i maxIterations z)
    /\ ReturnRGBA M coloring i maxIterations z x y
      = ReturnRGBA M 1 i maxIterations z x y.
Proof.
  intros coloring Hout M i maxIterations z x y.
  assert (H : ReturnRGBA M coloring i maxIterations z x y
              = Some (Color.SmoothColorHSV M i maxIterations z)).
  { unfold ReturnRGBA.
    destruct coloring as [|p|p]; try reflexivity.
    do 4 (destruct p as [p|p|]; try reflexivity; try lia). }
  split; [exact H | now rewrite H].
Qed.

Lemma ReturnRGBA_unknown_id_witness :
  ~ (1 <= 13 <= 12) /\
  forall (M : MathLib) (i maxIterations : Z) (z : complex128) (x y : Z),
    ReturnRGBA M 13 i maxIterations z x y
      = Some (Color.SmoothColorHSV M i maxIterations z)
    /\ ReturnRGBA M 13 i maxIterations z x y
      = ReturnRGBA M 1 i maxIterations z x y.
Proof.
  split; [lia | apply (ReturnRGBA_unknown_id_is_default 13); lia].
Defined.

(** The registry panics only in the grey palette, and only on a negative
    iteration count. *)
Lemma ReturnRGBA_no_panic (M : MathLib) (coloring i maxIterations : Z)
    (z : complex128) (x y : Z) :
  0 <= i -> is_Some (ReturnRGBA M coloring i maxIterations z x y).
Proof.
  intros Hi. unfold ReturnRGBA.
  destruct coloring as [|p|p]; try (eexists; reflexivity).
  do 4 (destruct p as [p|p|]; try (eexists; reflexivity)).
  unfold Color.GreyPalette, GoInt.rem.
  destruct (i =? maxIterations); [eexists; reflexivity|].
  pose proof (Z.rem_bound_pos i 256 Hi ltac:(lia)) as Hb.
  destruct (Z.rem i 256 <? 0) eqn:Hneg; [lia|].
  destruct (Color.greyPalette !! Z.to_nat (Z.rem i 256)) as [v|] eqn:Hv;
    [eexists; reflexivity|].
  apply lookup_ge_None_1 in Hv.
  change (length Color.greyPalette) with 256%nat in Hv. lia.
Qed.

(* ===================================================================== *)
(** ** The escape-time loop *)

Section EscapeFacts.

Variable c : complex128.

Definition escape_step (z : complex128) : complex128 := C128.add (C128.mul z z) c.

(** The orbit of [z0]: [orbit z0 k] is [z] after [k] passes. *)
Fixpoint orbit (z0 : complex128) (k : nat) : complex128 :=
  match k with
  | O => z0
  | S k' => orbit (escape_step z0) k'
  end.

(** The loop's exit test, [cmplx.Abs(z) > 2]. *)
Definition exceeds (z : complex128) : bool := (F64.two <? C128.Abs z)%float.

Lemma escape_loop_spec (fuel : nat) (i : Z) (z : complex128) :
  exists j : nat,
    (j <= fuel)%nat /\
    escape_loop fuel c i z = (i + Z.of_nat j, orbit z j) /\
    (forall k, (k < j)%nat -> exceeds (orbit z k) = false) /\
    ((j < fuel)%nat -> exceeds (orbit z j) = true).
Proof.
  revert i z. induction fuel as [|fuel IH]; intros i z.
  - exists 0%nat. simpl. rewrite Z.add_0_r. repeat split; auto; lia.
  - simpl. destruct (F64.two <? C128.Abs z)%float eqn:Hz.
    + exists 0%nat. simpl. rewrite Z.add_0_r. repeat split; auto; lia.
    + destruct (IH (i + 1) (C128.add (C128.mul z z) c)) as (j & Hj & Heq & Hlt & Hex).
      exists (S j). repeat split.
      * lia.
      * rewrite Heq. simpl. f_equal. lia.
      * intros [|k] Hk; simpl; [exact Hz | apply Hlt; lia].
      * intros Hlt'. simpl. apply Hex. lia.
Qed.

End EscapeFacts.

(** C5. For [maxIterations >= 0] the loop starts at the pixel's point [z0],
    replaces [z] by [z*z + c] while the test [|z| > 2] fails and fewer than
    [maxIterations] passes are counted; it ends with the count [i] and
    [z = orbit z0 i].  The count reaches [maxIterations] exactly when no
    point of the orbit met in the first [maxIterations] passes exceeds
    magnitude 2, and then the pixel takes the interior branch and is opaque
    black; otherwise [i] is the first pass whose point exceeds 2 and the pixel
    takes the colour of the registry. *)
Theorem escape_time_classification :
  forall (params : JuliaParams) (offset : Offset) (tileX tileY px py : Z),
  0 <= MaxIterations params ->
  forall M : MathLib,
  let c := Complex128 (Real (C params)) (Imag (C params)) in
  let z0 := pixel_point params offset tileX tileY px py in
  let maxIterations := MaxIterations params in
  let i := fst (escape_time c z0 maxIterations) in
  let z := snd (escape_time c z0 maxIterations) in
  0 <= i <= maxIterations /\
  z = orbit c z0 (Z.to_nat i) /\
  (forall k, (k < Z.to_nat i)%nat -> exceeds (orbit c z0 k) = false) /\
  (i < maxIterations -> exceeds (orbit c z0 (Z.to_nat i)) = true) /\
  (i = maxIterations <->
     forall k, (k < Z.to_nat maxIterations)%nat -> exceeds (orbit c z0 k) = false) /\
  (i = maxIterations -> pixel_color M params offset tileX tileY px py = color_Black) /\
  (i < maxIterations ->
     ReturnRGBA M (Coloring params) i maxIterations z
       (GoInt.add tileX px) (GoInt.add tileY py)
     = Some (pixel_color M params offset tileX tileY px py)).
Proof.
  intros params offset tileX tileY px py Hmax M c z0 maxIterations i z.
  destruct (escape_loop_spec c (Z.to_nat maxIterations) 0 z0)
    as (j & Hj & Heq & Hbelow & Hat).
  assert (Hi : i = Z.of_nat j) by (unfold i, escape_time; now rewrite Heq).
  assert (Hz : z = orbit c z0 j) by (unfold z, escape_time; now rewrite Heq).
  assert (Hji : Z.to_nat i = j) by lia.
  assert (Hpix : pixel_color M params offset tileX tileY px py =
                 if i <? maxIterations
                 then default color_Black
                        (ReturnRGBA M (Coloring params) i maxIterations z
                           (GoInt.add tileX px) (GoInt.add tileY py))
                 else color_Black).
  { unfold pixel_color. fold c z0 maxIterations.
    unfold i, z. now destruct (escape_time c z0 maxIterations). }
  repeat split.
  - lia.
  - unfold maxIterations in *. lia.
  - now rewrite Hji.
  - rewrite Hji. exact Hbelow.
  - intros Hlt. rewrite Hji. apply Hat. unfold maxIterations in *. lia.
  - intros Heqmax k Hk. apply Hbelow. unfold maxIterations in *. lia.
  - intros Hall.
    destruct (Z.eq_dec i maxIterations) as [|Hne]; [assumption|exfalso].
    assert (Hlt : (j < Z.to_nat maxIterations)%nat) by (unfold maxIterations in *; lia).
    specialize (Hat Hlt). specialize (Hall j Hlt). congruence.
  - intros Heqmax. rewrite Hpix.
    now destruct (Z.ltb_spec i maxIterations); [lia|].
  - intros Hlt. rewrite Hpix.
    destruct (Z.ltb_spec i maxIterations); [|lia].
    destruct (ReturnRGBA_no_panic M (Coloring params) i maxIterations z
                (GoInt.add tileX px) (GoInt.add tileY py)) as [col Hcol]; [lia|].
    now rewrite Hcol.
Qed.

(** The instance named in the specification: [c = -0.8 + 0.156i],
    [maxIterations = 100], and the pixel whose point is the origin (pixel
    (1,1) of a 2x2 canvas at zoom 1, centred at the origin). *)
Definition origin_params : JuliaParams :=
  mkJuliaParams (mkComplex (-0x1.999999999999ap-1) 0x1.3f7ced916872bp-3)
                (mkComplex 0 0) 1 1 100 2 2 1.

Definition no_offset : Offset := mkOffset 0 0.

Example origin_pixel_point :
  pixel_point origin_params no_offset 0 0 1 1 = Complex128 0 0.
Proof. reflexivity. Qed.

(** The orbit of the origin stays within magnitude 2 for 100 passes: the
    count reaches [maxIterations]. *)
Example origin_is_interior :
  fst (escape_time (Complex128 (-0x1.999999999999ap-1) 0x1.3f7ced916872bp-3)
                   (Complex128 0 0) 100) = 100.
Proof. vm_compute. reflexivity. Qed.

Lemma escape_time_classification_witness :
  0 <= MaxIterations origin_params /\
  forall M : MathLib,
    let c := Complex128 (-0x1.999999999999ap-1) 0x1.3f7ced916872bp-3 in
    let z0 := Complex128 0 0 in
    (fst (escape_time c z0 100) = 100 <->
       forall k, (k < 100)%nat -> exceeds (orbit c z0 k) = false) /\
    (fst (escape_time c z0 100) = 100 ->
       pixel_color M origin_params no_offset 0 0 1 1 = color_Black).
Proof.
  split; [simpl; lia|].
  intros M.
  pose proof (escape_time_classification origin_params no_offset 0 0 1 1
                ltac:(simpl; lia) M) as H.
  destruct H as (_ & _ & _ & _ & Hiff & Hblack & _).
  split; [exact Hiff | exact Hblack].
Defined.

(* ===================================================================== *)
(** ** The level of detail and the rendered tile *)

(** C9. Two calls of [generateJuliaTile] that differ only in [lod] give
    tiles with the same image bytes, position and dimensions; each tile
    carries its own [lod], the second tile is the first with the LOD field
    replaced, and the keys under which [cacheTile] files the two tiles
    differ as soon as the two levels differ. *)
Theorem lod_does_not_influence_pixels :
  forall (M : MathLib) (codec : RGBAImage -> list byte) (now : Z)
         (params : JuliaParams) (tileX tileY tileWidth tileHeight lod1 lod2 : Z)
         (offset : Offset),
  let t1 := generateJuliaTile M codec now params tileX tileY tileWidth tileHeight lod1 offset in
  let t2 := generateJuliaTile M codec now params tileX tileY tileWidth tileHeight lod2 offset in
  Tile_Image t1 = Tile_Image t2 /\
  Tile_X t1 = Tile_X t2 /\ Tile_Y t1 = Tile_Y t2 /\
  Tile_Width t1 = Tile_Width t2 /\ Tile_Height t1 = Tile_Height t2 /\
  Tile_LOD t1 = lod1 /\ Tile_LOD t2 = lod2 /\
  t2 = mkTile (Tile_X t1) (Tile_Y t1) (Tile_Width t1) (Tile_Height t1) lod2
              (Tile_Image t1) (Tile_LastAccessed t1) /\
  (lod1 <> lod2 ->
   getTileKey params (Tile_X t1) (Tile_Y t1) (Tile_LOD t1) offset
   <> getTileKey params (Tile_X t2) (Tile_Y t2) (Tile_LOD t2) offset).
Proof.
  intros M codec now params tileX tileY tileWidth tileHeight lod1 lod2 offset t1 t2.
  unfold t1, t2, generateJuliaTile.
  destruct (png_Encode codec [] (tile_image M params tileX tileY tileWidth tileHeight offset))
    as [buf err].
  simpl. repeat split; try reflexivity.
  intros Hne Hkey. apply getTileKey_ints in Hkey. tauto.
Qed.

(* ===================================================================== *)
(** ** Dispatch order: the sort keeps the requests *)

Section SortFacts.

Context {T : Type} (less : T -> T -> bool).

Lemma sift_perm (x : T) (acc : list T) : sift less x acc ≡ₚ x :: acc.
Proof.
  induction acc as [|y acc IH]; simpl; [reflexivity|].
  destruct (less x y); [|reflexivity].
  rewrite IH. apply Permutation_swap.
Qed.

Lemma sift_fold_perm (l acc : list T) :
  foldl (fun acc x => sift less x acc) acc l ≡ₚ l ++ acc.
Proof.
  revert acc. induction l as [|x l IH]; intros acc; simpl; [reflexivity|].
  rewrite IH, sift_perm. symmetry. apply Permutation_middle.
Qed.

Lemma insertionSort_perm (l : list T) : l ≡ₚ insertionSort less l.
Proof.
  unfold insertionSort.
  rewrite <- Permutation_rev, sift_fold_perm. now rewrite app_nil_r.
Qed.

End SortFacts.

(* ===================================================================== *)
(** ** What the cache holds *)

(** Every entry was filed under the key of its own position and level, by
    a request whose canvas gives the tile its dimensions. *)
Definition cache_consistent (tc : TileCache) : Prop :=
  forall (key : string) (tile : Tile),
    tc !! key = Some tile ->
    exists (params : JuliaParams) (offset : Offset),
      key = getTileKey params (Tile_X tile) (Tile_Y tile) (Tile_LOD tile) offset /\
      Tile_Width tile = tile_extent (Width params) (Tile_X tile) /\
      Tile_Height tile = tile_extent (Height params) (Tile_Y tile).

Lemma cache_consistent_empty : cache_consistent ∅.
Proof. intros key tile H. now rewrite lookup_empty in H. Qed.

Lemma cache_consistent_insert (tc : TileCache) (params : JuliaParams) (offset : Offset)
    (tile : Tile) :
  cache_consistent tc ->
  Tile_Width tile = tile_extent (Width params) (Tile_X tile) ->
  Tile_Height tile = tile_extent (Height params) (Tile_Y tile) ->
  cache_consistent
    (<[ getTileKey params (Tile_X tile) (Tile_Y tile) (Tile_LOD tile) offset := tile ]> tc).
Proof.
  intros Htc Hw Hh key tile' Hlook.
  destruct (decide (getTileKey params (Tile_X tile) (Tile_Y tile) (Tile_LOD tile) offset = key))
    as [<-|Hne].
  - rewrite lookup_insert_eq in Hlook. injection Hlook as <-.
    exists params, offset. auto.
  - rewrite lookup_insert_ne in Hlook by assumption. now apply Htc.
Qed.

Lemma cache_consistent_delete (tc : TileCache) (key : string) :
  cache_consistent tc -> cache_consistent (delete key tc).
Proof.
  intros Htc key' tile Hlook.
  apply lookup_delete_Some in Hlook as [_ Hlook]. now apply Htc.
Qed.

Section SchedulerFacts.

Context (M : MathLib) (codec : RGBAImage -> list byte)
        (range : TileCache -> list (string * Tile)).

(** What a task puts on the channel for its request. *)
Definition answers (params : JuliaParams) (req : TileRequest) (tile : Tile) : Prop :=
  Tile_X tile = Req_X req /\ Tile_Y tile = Req_Y req /\ Tile_LOD tile = Req_LOD req /\
  Tile_Width tile = tile_extent (Width params) (Req_X req) /\
  Tile_Height tile = tile_extent (Height params) (Req_Y req).

Lemma generateJuliaTile_fields (now : Z) (params : JuliaParams)
    (tileX tileY tileWidth tileHeight lod : Z) (offset : Offset) :
  let tile := generateJuliaTile M codec now params tileX tileY tileWidth tileHeight lod offset in
  Tile_X tile = tileX /\ Tile_Y tile = tileY /\ Tile_Width tile = tileWidth /\
  Tile_Height tile = tileHeight /\ Tile_LOD tile = lod /\ Tile_LastAccessed tile = now.
Proof.
  unfold generateJuliaTile.
  destruct (png_Encode codec [] _) as [buf err]. simpl. auto 10.
Qed.

Lemma cacheTile_consistent (tc : TileCache) (params : JuliaParams) (tile : Tile)
    (offset : Offset) :
  cache_consistent tc ->
  Tile_Width tile = tile_extent (Width params) (Tile_X tile) ->
  Tile_Height tile = tile_extent (Height params) (Tile_Y tile) ->
  cache_consistent (cacheTile range tc params tile offset).
Proof.
  intros Htc Hw Hh. unfold cacheTile, Cache.Set_, Cache.Delete.
  destruct (MaxCacheSize <? _).
  - apply cache_consistent_delete. now apply cache_consistent_insert.
  - now apply cache_consistent_insert.
Qed.

Lemma tile_task_spec (now : Z) (params : JuliaParams) (offset : Offset)
    (tc : TileCache) (req : TileRequest) :
  cache_consistent tc ->
  answers params req (tile_task M codec range now params offset tc req).1 /\
  cache_consistent (tile_task M codec range now params offset tc req).2.
Proof.
  intros Htc. unfold tile_task, getCachedTile, Cache.Get, Cache.Set_.
  destruct (tc !! getTileKey params (Req_X req) (Req_Y req) (Req_LOD req) offset)
    as [tile|] eqn:Hlook; simpl.
  - destruct (Htc _ _ Hlook) as (params' & offset' & Hkey & Hw & Hh).
    pose proof (getTileKey_ints _ _ _ _ _ _ _ _ _ _ Hkey)
      as (_ & HW & HH & _ & HX & HY & HL).
    split.
    + unfold answers. simpl. rewrite Hw, Hh, HW, HH, <- HX, <- HY, <- HL. auto.
    + rewrite Hkey.
      apply (cache_consistent_insert tc params' offset' (touch now tile)); auto.
  - pose proof (generateJuliaTile_fields now params (Req_X req) (Req_Y req)
                  (tile_extent (Width params) (Req_X req))
                  (tile_extent (Height params) (Req_Y req)) (Req_LOD req) offset)
      as (HX & HY & HW & HH & HL & _).
    split.
    + unfold answers. auto.
    + apply cacheTile_consistent; [assumption| |]; congruence.
Qed.

Lemma run_tasks_spec (clock : nat -> Z) (params : JuliaParams) (offset : Offset)
    (reqs : list TileRequest) :
  forall (n : nat) (tc : TileCache),
  cache_consistent tc ->
  Forall2 (answers params) reqs (run_tasks M codec range clock n params offset tc reqs).1 /\
  cache_consistent (run_tasks M codec range clock n params offset tc reqs).2.1 /\
  (run_tasks M codec range clock n params offset tc reqs).2.2 = (n + length reqs)%nat.
Proof.
  induction reqs as [|req reqs IH]; intros n tc Htc; simpl.
  - repeat split; [constructor|assumption|lia].
  - destruct (tile_task_spec (clock n) params offset tc req Htc) as [Hans Htc'].
    destruct (tile_task M codec range (clock n) params offset tc req) as [tile tc'].
    simpl in Hans, Htc'.
    destruct (IH (S n) tc' Htc') as (Hall & Hcons & Hn).
    destruct (run_tasks M codec range clock (S n) params offset tc' reqs) as [tiles st].
    simpl in *. repeat split; [now constructor|assumption|lia].
Qed.

(** Every tile of a batch answers one of the batch's requests, and every
    request is answered. *)
Lemma generateJuliaSet_spec (clock : nat -> Z) (n : nat) (params : JuliaParams)
    (tc : TileCache) (requestedTiles : list TileRequest) (offset : Offset) :
  cache_consistent tc ->
  exists dispatch : list TileRequest,
    requestedTiles ≡ₚ dispatch /\
    Forall2 (answers params) dispatch
      (generateJuliaSet M codec range clock n params tc requestedTiles offset).1 /\
    cache_consistent
      (generateJuliaSet M codec range clock n params tc requestedTiles offset).2.1.
Proof.
  intros Htc. exists (insertionSort (request_less params) requestedTiles).
  split; [apply insertionSort_perm|].
  unfold generateJuliaSet.
  destruct (run_tasks_spec clock params offset
              (insertionSort (request_less params) requestedTiles) n tc Htc)
    as (H1 & H2 & _).
  auto.
Qed.

End SchedulerFacts.

Lemma send_tiles_all (tiles : list Tile) :
  send_tiles (fun _ => false) tiles = (map tile_message tiles, AwaitingMessage).
Proof.
  induction tiles as [|tile tiles IH]; simpl; [reflexivity|]. now rewrite IH.
Qed.

Lemma run_tasks_length (M : MathLib) (codec : RGBAImage -> list byte)
    (range : TileCache -> list (string * Tile)) (clock : nat -> Z)
    (params : JuliaParams) (offset : Offset) (reqs : list TileRequest) :
  forall (n : nat) (tc : TileCache),
    length (run_tasks M codec range clock n params offset tc reqs).1 = length reqs.
Proof.
  induction reqs as [|req reqs IH]; intros n tc; simpl; [reflexivity|].
  destruct (tile_task M codec range (clock n) params offset tc req) as [tile tc'].
  specialize (IH (S n) tc').
  destruct (run_tasks M codec range clock (S n) params offset tc' reqs) as [tiles st].
  simpl in *. now rewrite IH.
Qed.

Lemma batch_tiles_length (M : MathLib) (codec : RGBAImage -> list byte)
    (range : TileCache -> list (string * Tile)) (clock : nat -> Z)
    (n : nat) (tc : TileCache) (request : Request) :
  length (batch_tiles M codec range clock n tc request).1 = length (Request_Tiles request).
Proof.
  unfold batch_tiles, generateJuliaSet.
  rewrite run_tasks_length.
  rewrite <- (Permutation_length (insertionSort_perm _ _)).
  unfold parse_tiles. now rewrite length_map.
Qed.

(* ===================================================================== *)
(** ** Entries of the tiles list that do not parse *)

Example Sscanf_malformed : Scan.Sscanf_d_d "abc" = [].
Proof. reflexivity. Qed.

Example Sscanf_half_parsed : Scan.Sscanf_d_d "12,x" = [12].
Proof. reflexivity. Qed.

Example Sscanf_well_formed : Scan.Sscanf_d_d "128,0" = [128; 0].
Proof. reflexivity. Qed.

(** C10. Each entry of the tiles list gives exactly one request, whatever
    [Sscanf] makes of it: the request carries the lod of the batch as the
    message supplied it, a coordinate [Sscanf] did not store is zero, and
    an entry of which nothing parses is the request for tile (0,0).  The
    loop that builds the requests has no failing path.  When the tiles asked
    for can be allocated (which depends on the coordinates that were read and
    on the canvas, not on how an entry failed to parse), the turn of the
    handler then writes one message per entry and, the writes succeeding,
    goes back to waiting for the next message: the session is not closed. *)
Theorem malformed_tile_entry_is_a_request :
  forall request : Request,
  let params := Request_Params request in
  let tiles := Request_Tiles request in
  let requestedTiles := parse_tiles params tiles in
  length requestedTiles = length tiles /\
  (forall (k : nat) (entry : string),
     tiles !! k = Some entry -> requestedTiles !! k = Some (parse_tile params entry)) /\
  (forall entry : string, Req_LOD (parse_tile params entry) = LOD params) /\
  (forall entry : string,
     Scan.Sscanf_d_d entry = [] ->
     parse_tile params entry = mkTileRequest 0 0 (LOD params)) /\
  (forall (entry : string) (x : Z),
     Scan.Sscanf_d_d entry = [x] ->
     parse_tile params entry = mkTileRequest x 0 (LOD params)) /\
  (forall (entry : string) (x y : Z),
     Scan.Sscanf_d_d entry = [x; y] ->
     parse_tile params entry = mkTileRequest x y (LOD params)) /\
  parse_tile params "abc" = mkTileRequest 0 0 (LOD params) /\
  (forall (M : MathLib) (codec : RGBAImage -> list byte)
          (range : TileCache -> list (string * Tile)) (clock : nat -> Z)
          (n : nat) (tc : TileCache),
     Forall (fun r => tile_allocates params r = true) requestedTiles ->
     let turn := wsHandler_turn M codec range clock (fun _ => false) n tc (Decoded request) in
     turn.1.2 = AwaitingMessage /\ length turn.1.1 = length tiles).
Proof.
  intros request params tiles requestedTiles.
  repeat split.
  - unfold requestedTiles, parse_tiles. now rewrite length_map.
  - intros k entry Hk. unfold requestedTiles, parse_tiles.
    now rewrite list_lookup_fmap, Hk.
  - intros entry H. unfold parse_tile. now rewrite H.
  - intros entry x H. unfold parse_tile. now rewrite H.
  - intros entry x y H. unfold parse_tile. now rewrite H.
  - unfold wsHandler_turn.
    destruct (batch_tiles M codec range clock n tc request) as [out st].
    now rewrite send_tiles_all.
  - unfold wsHandler_turn.
    pose proof (batch_tiles_length M codec range clock n tc request) as Hlen.
    destruct (batch_tiles M codec range clock n tc request) as [out st].
    rewrite send_tiles_all. simpl in *. now rewrite length_map.
Qed.

(** A message for a 300x200 canvas whose tiles list holds an entry of which
    nothing parses and one of which only the first number parses. *)
Definition malformed_request : Request :=
  mkRequest (mkJuliaParams (mkComplex 0 0) (mkComplex 0 0) 1 1 10 300 200 1)
            ["abc"%string; "12,x"%string] no_offset.

Lemma malformed_tile_entry_is_a_request_witness :
  parse_tiles (Request_Params malformed_request) (Request_Tiles malformed_request)
  = [mkTileRequest 0 0 1; mkTileRequest 12 0 1] /\
  Forall (fun r => tile_allocates (Request_Params malformed_request) r = true)
         (parse_tiles (Request_Params malformed_request) (Request_Tiles malformed_request)) /\
  forall (M : MathLib) (codec : RGBAImage -> list byte)
         (range : TileCache -> list (string * Tile)) (clock : nat -> Z)
         (n : nat) (tc : TileCache),
    (wsHandler_turn M codec range clock (fun _ => false) n tc
       (Decoded malformed_request)).1.2 = AwaitingMessage /\
    length (wsHandler_turn M codec range clock (fun _ => false) n tc
              (Decoded malformed_request)).1.1 = 2%nat.
Proof.
  assert (Hparse : parse_tiles (Request_Params malformed_request)
                               (Request_Tiles malformed_request)
                   = [mkTileRequest 0 0 1; mkTileRequest 12 0 1]) by reflexivity.
  assert (Halloc : Forall (fun r => tile_allocates (Request_Params malformed_request) r = true)
                     (parse_tiles (Request_Params malformed_request)
                                  (Request_Tiles malformed_request))).
  { rewrite Hparse. repeat constructor; vm_compute; reflexivity. }
  split; [exact Hparse|]. split; [exact Halloc|].
  intros M codec range clock n tc.
  destruct (malformed_tile_entry_is_a_request malformed_request)
    as (_ & _ & _ & _ & _ & _ & _ & Hturn).
  exact (Hturn M codec range clock n tc Halloc).
Defined.

(* ===================================================================== *)
(** ** The lod a batch is served at *)

Lemma answers_lod (params : JuliaParams) (lod : Z) (reqs : list TileRequest)
    (tiles : list Tile) :
  Forall (fun r => Req_LOD r = lod) reqs ->
  Forall2 (answers params) reqs tiles ->
  Forall (fun tile => Tile_LOD tile = lod) tiles.
Proof.
  intros Hreqs Hans. induction Hans as [|r t reqs tiles Hrt _ IH]; [constructor|].
  inversion Hreqs as [|? ? Hr Hrest]; subst.
  constructor; [|now apply IH].
  destruct Hrt as (_ & _ & Hlod & _). congruence.
Qed.

Lemma parse_tiles_lod (params : JuliaParams) (tiles : list string) :
  Forall (fun r => Req_LOD r = LOD params) (parse_tiles params tiles).
Proof. unfold parse_tiles. apply Forall_fmap, Forall_true. reflexivity. Qed.

(** A message that supplies [lod = 0]: a 1x1 canvas and the tile at its
    origin. *)
Definition lod0_request : Request :=
  mkRequest (mkJuliaParams (mkComplex 0 0) (mkComplex 0 0) 1 10 1 1 1 0)
            ["0,0"%string] no_offset.

(** C3 (what the code does). The requests of a batch are built from the
    lod of the message before the "Validate params" step runs, and nothing
    reads the validated lod afterwards: whatever lod the message supplies,
    every scheduled request, every tile served from an empty cache and every
    outbound message carries that lod unchanged.  For [lod0_request], whose
    lod is 0, the request, the cache key and the message all say 0, not 1. *)
Theorem lod_clamp_comes_after_the_requests :
  forall (M : MathLib) (codec : RGBAImage -> list byte)
         (range : TileCache -> list (string * Tile)) (clock : nat -> Z) (n : nat)
         (request : Request),
  let params := Request_Params request in
  let turn := wsHandler_turn M codec range clock (fun _ => false) n ∅ (Decoded request) in
  LOD (validate params) = Z.max 1 (LOD params) /\
  Forall (fun r => Req_LOD r = LOD params) (parse_tiles params (Request_Tiles request)) /\
  Forall (fun tile => Tile_LOD tile = LOD params)
         (batch_tiles M codec range clock n ∅ request).1 /\
  Forall (fun m => msg_lod m = LOD params) turn.1.1 /\
  LOD (Request_Params lod0_request) = 0 /\
  map Req_LOD (parse_tiles (Request_Params lod0_request) (Request_Tiles lod0_request)) = [0] /\
  map msg_lod
      (wsHandler_turn M codec range clock (fun _ => false) n ∅ (Decoded lod0_request)).1.1
    = [0] /\
  map fst (map_to_list
      (wsHandler_turn M codec range clock (fun _ => false) n ∅ (Decoded lod0_request)).2.1)
    = ["0.000000,0.000000,0.000000,0.000000,1.000000,1,1,1,10,0,0,0,0.000000,0.000000"%string].
Proof.
  intros M codec range clock n request params turn.
  assert (Htiles : Forall (fun tile => Tile_LOD tile = LOD params)
                          (batch_tiles M codec range clock n ∅ request).1).
  { unfold batch_tiles.
    destruct (generateJuliaSet_spec M codec range clock n (validate (Request_Params request))
                ∅ (parse_tiles (Request_Params request) (Request_Tiles request))
                (Request_Offset request) cache_consistent_empty)
      as (dispatch & Hperm & Hans & _).
    eapply answers_lod; [|exact Hans].
    rewrite <- Hperm. apply parse_tiles_lod. }
  repeat split.
  - unfold validate. destruct (Z.ltb_spec (LOD params) 1); simpl; lia.
  - apply parse_tiles_lod.
  - exact Htiles.
  - unfold turn, wsHandler_turn.
    destruct (batch_tiles M codec range clock n ∅ request) as [out st].
    rewrite send_tiles_all. simpl in *.
    apply Forall_fmap. eapply Forall_impl; [exact Htiles|]. auto.
Qed.

(* ===================================================================== *)
(** ** A tile whose image cannot be encoded *)

Lemma RGBA_Set_Rect (p : RGBAImage) (x y : Z) (c : RGBA) :
  Rect (RGBA_Set p x y c) = Rect p.
Proof. unfold RGBA_Set. now destruct (PointIn x y (Rect p)). Qed.

Lemma render_rows_Rect (M : MathLib) (params : JuliaParams) (offset : Offset)
    (tileX tileY tileWidth tileHeight : Z) (img : RGBAImage) :
  Rect (render_rows M params offset tileX tileY tileWidth tileHeight img) = Rect img.
Proof.
  unfold render_rows. generalize (seqZ 0 tileHeight) as rows. intros rows. revert img.
  induction rows as [|py rows IH]; intros img; simpl; [reflexivity|].
  rewrite IH. generalize (seqZ 0 tileWidth) as cols. intros cols. revert img.
  induction cols as [|px cols IHc]; intros img; simpl; [reflexivity|].
  now rewrite IHc, RGBA_Set_Rect.
Qed.

Lemma tile_image_Rect (M : MathLib) (params : JuliaParams)
    (tileX tileY tileWidth tileHeight : Z) (offset : Offset) :
  Rect (tile_image M params tileX tileY tileWidth tileHeight offset)
  = image_Rect 0 0 tileWidth tileHeight.
Proof. unfold tile_image. now rewrite render_rows_Rect. Qed.

(** An empty side makes [png.Encode] fail, and the tile is built all the
    same, around the empty buffer. *)
Lemma generateJuliaTile_empty_side (M : MathLib) (codec : RGBAImage -> list byte)
    (now : Z) (params : JuliaParams) (tileX tileY tileWidth tileHeight lod : Z)
    (offset : Offset) :
  tileWidth = 0 \/ tileHeight = 0 ->
  png_Encode codec [] (tile_image M params tileX tileY tileWidth tileHeight offset)
    = ([], Some InvalidImageSize) /\
  generateJuliaTile M codec now params tileX tileY tileWidth tileHeight lod offset
    = mkTile tileX tileY tileWidth tileHeight lod [] now.
Proof.
  intros Hside.
  assert (Henc : png_Encode codec []
                   (tile_image M params tileX tileY tileWidth tileHeight offset)
                 = ([], Some InvalidImageSize)).
  { unfold png_Encode. rewrite tile_image_Rect.
    unfold image_Rect, Dx, Dy.
    destruct Hside as [-> | ->].
    - simpl. destruct (tileHeight <? 0); reflexivity.
    - destruct (tileWidth <? 0); simpl; rewrite orb_true_r; reflexivity. }
  split; [exact Henc|]. unfold generateJuliaTile. now rewrite Henc.
Qed.

(** The handler of the earlier, untiled-payload server (the file whose
    tiles hold an [image.Image] and are encoded when they are sent): there
    a tile whose encoding fails is skipped by [continue]. *)
Module Legacy.

Record LTile : Type := mkLTile {
  LTile_X : Z; LTile_Y : Z; LTile_Zoom : float; LTile_Image : RGBAImage
}.

Record LTileMessage : Type := mkLTileMessage {
  lmsg_x : Z; lmsg_y : Z; lmsg_zoom : float; lmsg_data : string
}.

(** [encodeTile]. *)
Definition encodeTile (codec : RGBAImage -> list byte) (tile : LTile)
  : LTileMessage + png_error :=
  match png_Encode codec [] (LTile_Image tile) with
  | (_, Some err) => inr err
  | (buf, None) =>
      inl (mkLTileMessage (LTile_X tile) (LTile_Y tile) (LTile_Zoom tile)
                          (Base64.EncodeToString buf))
  end.

(** The [for tile := range modifiedTiles] loop of that handler. *)
Fixpoint send_tiles (codec : RGBAImage -> list byte)
    (write_fails : LTileMessage -> bool) (tiles : list LTile)
  : list LTileMessage * SessionState :=
  match tiles with
  | [] => ([], AwaitingMessage)
  | tile :: rest =>
      match encodeTile codec tile with
      | inr _ => send_tiles codec write_fails rest
      | inl tileMsg =>
          if write_fails tileMsg then ([], Closed)
          else let '(sent, st) := send_tiles codec write_fails rest in
               (tileMsg :: sent, st)
      end
  end.

Lemma send_tiles_skips (codec : RGBAImage -> list byte)
    (write_fails : LTileMessage -> bool) (tile : LTile) (rest : list LTile)
    (err : png_error) :
  encodeTile codec tile = inr err ->
  send_tiles codec write_fails (tile :: rest) = send_tiles codec write_fails rest.
Proof. intros H. simpl. now rewrite H. Qed.

End Legacy.

(** A 256x128 canvas and a request for the tile at x = 256, which starts
    where the canvas ends: its width is 0. *)
Definition edge_request : Request :=
  mkRequest (mkJuliaParams (mkComplex 0 0) (mkComplex 0 0) 1 1 100 256 128 1)
            ["256,0"%string] no_offset.

(** C8 (what the code does). In the tiled server the error of
    [png.Encode] is dropped inside [generateJuliaTile]: the task still sends
    its tile, with an empty payload, and the handler writes a message for it.
    Every batch whose tiles can be allocated and whose writes succeed yields
    one message per requested tile; for [edge_request], whose tile is
    allocated, the single message has width 0 and the empty image string.
    The failure stays local to the tile (the session goes on), but the tile
    is not dropped.  Only the handler of the earlier server, which encodes
    when it sends, passes over a tile whose encoding fails and goes on with
    the rest. *)
Theorem encoding_failure_still_emits_the_tile :
  forall (M : MathLib) (codec : RGBAImage -> list byte)
         (range : TileCache -> list (string * Tile)) (clock : nat -> Z) (n : nat),
  (forall (tc : TileCache) (request : Request),
     Forall (fun r => tile_allocates (Request_Params request) r = true)
            (parse_tiles (Request_Params request) (Request_Tiles request)) ->
     let turn := wsHandler_turn M codec range clock (fun _ => false) n tc (Decoded request) in
     length turn.1.1 = length (Request_Tiles request) /\ turn.1.2 = AwaitingMessage) /\
  Forall (fun r => tile_allocates (Request_Params edge_request) r = true)
         (parse_tiles (Request_Params edge_request) (Request_Tiles edge_request)) /\
  tile_extent 256 256 = 0 /\
  png_Encode codec []
    (tile_image M (Request_Params edge_request) 256 0 0 128 no_offset)
    = ([], Some InvalidImageSize) /\
  (wsHandler_turn M codec range clock (fun _ => false) n ∅ (Decoded edge_request)).1
    = ([mkTileMessage "tile" 256 0 0 128 1 EmptyString], AwaitingMessage) /\
  (forall (write_fails : Legacy.LTileMessage -> bool) (tile : Legacy.LTile)
          (rest : list Legacy.LTile) (err : png_error),
     Legacy.encodeTile codec tile = inr err ->
     Legacy.send_tiles codec write_fails (tile :: rest)
     = Legacy.send_tiles codec write_fails rest).
Proof.
  intros M codec range clock n.
  split; [|split; [|split; [|split; [|split]]]];
    [| | | | | intros write_fails tile rest err; apply Legacy.send_tiles_skips].
  - intros tc request _ turn. unfold turn, wsHandler_turn.
    pose proof (batch_tiles_length M codec range clock n tc request) as Hlen.
    destruct (batch_tiles M codec range clock n tc request) as [out st].
    rewrite send_tiles_all. simpl in *. now rewrite length_map.
  - repeat constructor; vm_compute; reflexivity.
  - vm_compute. reflexivity.
  - apply generateJuliaTile_empty_side with (now := 0) (lod := 1). now left.
  - vm_compute. reflexivity.
Qed.

(* ===================================================================== *)
(** ** Keys and rendered bytes *)

(** Two views of a 1x1 canvas that differ only in the real part of the
    centre, 2.5 against 2.5000001 (the nearest float64): the single pixel
    sits at 2 + 0i in the first, just outside the circle of radius 2 in the
    second. *)
Definition view_a : JuliaParams :=
  mkJuliaParams (mkComplex 0 0) (mkComplex 2.5 0.5) 1 10 1 1 1 1.
Definition view_b : JuliaParams :=
  mkJuliaParams (mkComplex 0 0) (mkComplex 0x1.400000d6bf94dp+1 0.5) 1 10 1 1 1 1.

Definition black_pixel : RGBAImage := mkRGBAImage [0; 0; 0; 255] 4 (mkRectangle 0 0 1 1).
Definition grey_pixel : RGBAImage := mkRGBAImage [86; 86; 86; 255] 4 (mkRectangle 0 0 1 1).

(** C1 (what the code does). [%f] keeps six decimals, so [view_a] and
    [view_b] have the same key for tile (0,0) at lod 1; yet the image handed
    to [png.Encode] is one black pixel for the first and one grey pixel for
    the second, so the two tiles carry the encodings of two different
    images: their bytes differ for every encoder that tells the two images
    apart, as PNG, being lossless, does.  Both 1x1 images are allocated.
    Through the cache the second view is even answered with the first
    view's bytes. *)
Theorem equal_keys_different_images :
  forall (M : MathLib) (codec : RGBAImage -> list byte)
         (range : TileCache -> list (string * Tile)) (clock : nat -> Z) (now : Z),
  getTileKey view_a 0 0 1 no_offset = getTileKey view_b 0 0 1 no_offset /\
  tile_extent (Width view_a) 0 = 1 /\ tile_extent (Height view_a) 0 = 1 /\
  tile_image M view_a 0 0 1 1 no_offset = black_pixel /\
  tile_image M view_b 0 0 1 1 no_offset = grey_pixel /\
  black_pixel <> grey_pixel /\
  Tile_Image (generateJuliaTile M codec now view_a 0 0 1 1 1 no_offset) = codec black_pixel /\
  Tile_Image (generateJuliaTile M codec now view_b 0 0 1 1 1 no_offset) = codec grey_pixel /\
  (codec black_pixel <> codec grey_pixel ->
   Tile_Image (generateJuliaTile M codec now view_a 0 0 1 1 1 no_offset)
   <> Tile_Image (generateJuliaTile M codec now view_b 0 0 1 1 1 no_offset)) /\
  tile_allocates view_a (mkTileRequest 0 0 1) = true /\
  tile_allocates view_b (mkTileRequest 0 0 1) = true /\
  (let first := batch_tiles M codec range clock 0 ∅
                  (mkRequest view_a ["0,0"%string] no_offset) in
   map Tile_Image
       (batch_tiles M codec range clock first.2.2 first.2.1
          (mkRequest view_b ["0,0"%string] no_offset)).1
   = [codec black_pixel]).
Proof.
  intros M codec range clock now.
  split; [vm_compute; reflexivity|].
  split; [vm_compute; reflexivity|].
  split; [vm_compute; reflexivity|].
  split; [vm_compute; reflexivity|].
  split; [vm_compute; reflexivity|].
  split; [discriminate|].
  assert (Ha : Tile_Image (generateJuliaTile M codec now view_a 0 0 1 1 1 no_offset)
               = codec black_pixel) by (vm_compute; reflexivity).
  assert (Hb : Tile_Image (generateJuliaTile M codec now view_b 0 0 1 1 1 no_offset)
               = codec grey_pixel) by (vm_compute; reflexivity).
  split; [exact Ha|]. split; [exact Hb|].
  split; [now rewrite Ha, Hb|].
  split; [vm_compute; reflexivity|].
  split; [vm_compute; reflexivity|].
  vm_compute. reflexivity.
Qed.

(* ===================================================================== *)
(** ** The cache bound *)

Section CacheBound.

Context (range : TileCache -> list (string * Tile)).
Hypothesis range_perm : forall tc : TileCache, range tc ≡ₚ map_to_list tc.

Definition call_key (call : JuliaParams * Tile * Offset) : string :=
  getTileKey call.1.1 (Tile_X call.1.2) (Tile_Y call.1.2) (Tile_LOD call.1.2) call.2.

Definition call_time (call : JuliaParams * Tile * Offset) : Z :=
  Tile_LastAccessed call.1.2.

Definition call_entry (call : JuliaParams * Tile * Offset) : string * Tile :=
  (call_key call, call.1.2).

(** The scan keeps an accumulator that is still unset or newer than [t]. *)
Lemma oldest_scan_newer (t : Z) (l : list (string * Tile)) (acc : string * Z) :
  Forall (fun kv => t < Tile_LastAccessed kv.2) l ->
  acc.1 = EmptyString \/ t < acc.2 ->
  (foldl oldest_step acc l).1 = EmptyString \/ t < (foldl oldest_step acc l).2.
Proof.
  revert acc. induction l as [|kv l IH]; intros acc Hl Hacc; simpl; [exact Hacc|].
  inversion Hl as [|? ? Hkv Hrest]; subst.
  apply IH; [assumption|].
  unfold oldest_step. destruct (_ || _); simpl; auto.
Qed.

(** Once the accumulator holds a named entry, newer entries leave it. *)
Lemma oldest_scan_keeps (k : string) (t : Z) (l : list (string * Tile)) :
  k <> EmptyString ->
  Forall (fun kv => t < Tile_LastAccessed kv.2) l ->
  foldl oldest_step (k, t) l = (k, t).
Proof.
  intros Hk. induction l as [|kv l IH]; intros Hl; simpl; [reflexivity|].
  inversion Hl as [|? ? Hkv Hrest]; subst.
  unfold oldest_step at 2. simpl.
  destruct (String.eqb_spec k EmptyString) as [|_]; [contradiction|].
  destruct (Z.ltb_spec (Tile_LastAccessed kv.2) t); [lia|]. simpl. now apply IH.
Qed.

(** The scan returns the key of the entry that is older than all others,
    in whatever order the entries come. *)
Lemma oldest_scan_min (e : string * Tile) (rest l : list (string * Tile)) :
  e.1 <> EmptyString ->
  Forall (fun kv => Tile_LastAccessed e.2 < Tile_LastAccessed kv.2) rest ->
  l ≡ₚ e :: rest ->
  (oldest_scan l).1 = e.1.
Proof.
  intros Hk Hrest Hperm.
  assert (Hin : e ∈ l) by (rewrite Hperm; left).
  apply list_elem_of_split in Hin as (l1 & l2 & ->).
  rewrite <- Permutation_middle in Hperm.
  apply Permutation_cons_inv in Hperm.
  assert (Hall : Forall (fun kv => Tile_LastAccessed e.2 < Tile_LastAccessed kv.2) (l1 ++ l2))
    by now rewrite Hperm.
  apply Forall_app in Hall as [H1 H2].
  unfold oldest_scan. rewrite foldl_app. simpl.
  pose proof (oldest_scan_newer (Tile_LastAccessed e.2) l1 (EmptyString, 0) H1
                (or_introl eq_refl)) as Hacc.
  set (acc := foldl oldest_step (EmptyString, 0) l1) in *.
  assert (Hstep : oldest_step acc e = (e.1, Tile_LastAccessed e.2)).
  { unfold oldest_step. destruct Hacc as [Hacc|Hacc].
    - rewrite Hacc. reflexivity.
    - destruct (Z.ltb_spec (Tile_LastAccessed e.2) acc.2); [|lia].
      now rewrite orb_true_r. }
  rewrite Hstep, oldest_scan_keeps; auto.
Qed.

Lemma call_key_nonempty (call : JuliaParams * Tile * Offset) :
  call_key call <> EmptyString.
Proof. apply getTileKey_nonempty. Qed.

Local Opaque MaxCacheSize.

Lemma MaxCacheSize_pos : 0 < MaxCacheSize.
Proof. Local Transparent MaxCacheSize. unfold MaxCacheSize. lia. Qed.

(** One call on a cache that holds a window [W] of earlier calls: the new
    entry joins the window, and the oldest entry leaves it when the window
    was full. *)
Lemma cacheTile_window (W : list (JuliaParams * Tile * Offset))
    (c : JuliaParams * Tile * Offset) :
  NoDup (map call_key (W ++ [c])) ->
  StronglySorted Z.lt (map call_time (W ++ [c])) ->
  (length W <= Z.to_nat MaxCacheSize)%nat ->
  cacheTile range (list_to_map (map call_entry W)) c.1.1 c.1.2 c.2
  = list_to_map (map call_entry (drop (length W + 1 - Z.to_nat MaxCacheSize) (W ++ [c]))).
Proof.
  intros Hnd Hsorted Hlen.
  pose proof MaxCacheSize_pos as Hpos.
  assert (HndE : NoDup (map call_entry (W ++ [c])).*1).
  { rewrite <- list_fmap_compose. exact Hnd. }
  assert (Hins : <[ call_key c := c.1.2 ]> (list_to_map (map call_entry W) : TileCache)
                 = list_to_map (map call_entry (W ++ [c]))).
  { change (<[ call_key c := c.1.2 ]> (list_to_map (map call_entry W) : TileCache))
      with (list_to_map (call_entry c :: map call_entry W) : TileCache).
    apply list_to_map_proper.
    - rewrite !fmap_app in HndE. apply NoDup_app in HndE as (H1 & H2 & _).
      rewrite fmap_cons. apply NoDup_cons. split; [|exact H1].
      intros Hin. apply (H2 _ Hin). simpl. left.
    - rewrite fmap_app. simpl. apply Permutation_cons_append. }
  unfold cacheTile, Cache.Set_, Cache.Delete, Cache.Len.
  fold (call_key c). rewrite Hins.
  rewrite map_size_list_to_map by exact HndE.
  rewrite length_map, length_app. simpl.
  destruct (Z.ltb_spec MaxCacheSize (Z.of_nat (length W + 1))) as [Hfull|Hroom].
  - assert (HW : length W = Z.to_nat MaxCacheSize) by lia.
    replace (length W + 1 - Z.to_nat MaxCacheSize)%nat with 1%nat by lia.
    destruct W as [|w W]; [simpl in HW; lia|].
    simpl app. simpl drop. rewrite drop_0.
    simpl in Hsorted. apply StronglySorted_inv in Hsorted as [_ Hw].
    simpl in Hnd. apply NoDup_cons in Hnd as [Hwnotin _].
    assert (Hscan : (oldest_scan (range (list_to_map (map call_entry (w :: W ++ [c])))) ).1
                    = call_key w).
    { apply (oldest_scan_min (call_entry w) (map call_entry (W ++ [c]))).
      - apply call_key_nonempty.
      - apply Forall_fmap. rewrite Forall_fmap in Hw.
        eapply Forall_impl; [exact Hw|]. intros x Hx. exact Hx.
      - rewrite range_perm. apply map_to_list_to_map. exact HndE. }
    rewrite Hscan.
    change (map call_entry (w :: W ++ [c]))
      with ((call_key w, w.1.2) :: map call_entry (W ++ [c])).
    rewrite list_to_map_cons.
    apply delete_insert_id. apply not_elem_of_list_to_map_1.
    rewrite <- list_fmap_compose. rewrite list_elem_of_fmap in Hwnotin.
    rewrite list_elem_of_fmap. exact Hwnotin.
  - replace (length W + 1 - Z.to_nat MaxCacheSize)%nat with 0%nat by lia.
    now rewrite drop_0.
Qed.

Lemma cacheTiles_snoc (tc : TileCache) (calls : list (JuliaParams * Tile * Offset))
    (c : JuliaParams * Tile * Offset) :
  cacheTiles range tc (calls ++ [c]) = cacheTile range (cacheTiles range tc calls) c.1.1 c.1.2 c.2.
Proof. unfold cacheTiles. rewrite foldl_app. now destruct c as [[p t] o]. Qed.

(** After any run of calls with distinct keys and increasing timestamps,
    started on the empty cache, the cache holds the last [MaxCacheSize]
    calls (all of them while there are fewer). *)
Lemma cacheTiles_window (calls : list (JuliaParams * Tile * Offset)) :
  NoDup (map call_key calls) ->
  StronglySorted Z.lt (map call_time calls) ->
  cacheTiles range ∅ calls
  = list_to_map (map call_entry (drop (length calls - Z.to_nat MaxCacheSize) calls)).
Proof.
  induction calls as [|c calls IH] using rev_ind; intros Hnd Hsorted; [reflexivity|].
  rewrite cacheTiles_snoc.
  pose proof Hnd as Hnd'. pose proof Hsorted as Hsorted'.
  rewrite fmap_app in Hnd'. apply NoDup_app in Hnd' as (Hnd' & _ & _).
  rewrite fmap_app in Hsorted'. apply StronglySorted_app in Hsorted' as (_ & Hsorted' & _).
  rewrite (IH Hnd' Hsorted').
  assert (Hcap : (0 < Z.to_nat MaxCacheSize)%nat) by (pose proof MaxCacheSize_pos; lia).
  set (cap := Z.to_nat MaxCacheSize) in *.
  set (W := drop (length calls - cap) calls).
  assert (Hsplit : calls ++ [c] = take (length calls - cap) calls ++ (W ++ [c]))
    by (unfold W; now rewrite app_assoc, take_drop).
  assert (HlenW : length W = (length calls - (length calls - cap))%nat)
    by (unfold W; apply length_drop).
  rewrite cacheTile_window.
  - f_equal. f_equal. fold cap. rewrite length_app. simpl.
    destruct (Nat.lt_ge_cases (length calls) cap) as [Hlt|Hge].
    + assert (HW : W = calls).
      { unfold W. replace (length calls - cap)%nat with 0%nat by lia. apply drop_0. }
      now rewrite HW.
    + replace (length W + 1 - cap)%nat with 1%nat by lia.
      replace (length calls + 1 - cap)%nat with (length calls - cap + 1)%nat by lia.
      rewrite (drop_app_le calls) by lia.
      rewrite <- drop_drop. fold W.
      rewrite drop_app_le by lia. reflexivity.
  - rewrite Hsplit, fmap_app in Hnd. now apply NoDup_app in Hnd as (_ & _ & Hnd).
  - rewrite Hsplit, fmap_app in Hsorted.
    now apply StronglySorted_app in Hsorted as (_ & _ & Hsorted).
  - fold cap. lia.
Qed.

End CacheBound.

(** C2. [MaxCacheSize + k] calls of [cacheTile] (k > 0) on the empty
    cache, with distinct keys and strictly increasing [LastAccessed]: after
    every call the cache holds at most [MaxCacheSize] entries; after the last
    one it holds exactly [MaxCacheSize], the entries of the last
    [MaxCacheSize] calls, each of them accessed later than each of the [k]
    evicted ones.  This holds for every order in which [range] may walk the
    map. *)
Theorem cache_keeps_the_most_recent :
  forall (calls : list (JuliaParams * Tile * Offset)) (k : nat),
  (0 < k)%nat ->
  length calls = (Z.to_nat MaxCacheSize + k)%nat ->
  NoDup (map call_key calls) ->
  StronglySorted Z.lt (map call_time calls) ->
  forall range : TileCache -> list (string * Tile),
  (forall tc : TileCache, range tc ≡ₚ map_to_list tc) ->
  (forall j : nat, Cache.Len (cacheTiles range ∅ (take j calls)) <= MaxCacheSize) /\
  Cache.Len (cacheTiles range ∅ calls) = MaxCacheSize /\
  cacheTiles range ∅ calls = list_to_map (map call_entry (drop k calls)) /\
  (forall new, new ∈ drop k calls ->
     cacheTiles range ∅ calls !! call_key new = Some new.1.2) /\
  (forall old, old ∈ take k calls -> cacheTiles range ∅ calls !! call_key old = None) /\
  (forall old new, old ∈ take k calls -> new ∈ drop k calls ->
     call_time old < call_time new).
Proof.
  intros calls k Hk Hlen Hnd Hsorted range Hrange.
  pose proof MaxCacheSize_pos as Hpos.
  assert (Hsize : forall l : list (JuliaParams * Tile * Offset),
            NoDup (map call_key l) -> StronglySorted Z.lt (map call_time l) ->
            size (cacheTiles range ∅ l)
            = (length l - (length l - Z.to_nat MaxCacheSize))%nat).
  { intros l Hl1 Hl2. rewrite (cacheTiles_window range Hrange l Hl1 Hl2).
    rewrite map_size_list_to_map.
    - now rewrite length_map, length_drop.
    - rewrite <- list_fmap_compose.
      assert (H : NoDup (map call_key (take (length l - Z.to_nat MaxCacheSize) l)
                         ++ map call_key (drop (length l - Z.to_nat MaxCacheSize) l)))
        by (now rewrite <- fmap_app, take_drop).
      now apply NoDup_app in H as (_ & _ & H). }
  assert (Hfinal : cacheTiles range ∅ calls = list_to_map (map call_entry (drop k calls))).
  { rewrite (cacheTiles_window range Hrange calls Hnd Hsorted).
    now replace (length calls - Z.to_nat MaxCacheSize)%nat with k by lia. }
  assert (Hnd2 : NoDup (map call_key (take k calls) ++ map call_key (drop k calls)))
    by (now rewrite <- fmap_app, take_drop).
  assert (Hsorted2 : StronglySorted Z.lt
                       (map call_time (take k calls) ++ map call_time (drop k calls)))
    by (now rewrite <- fmap_app, take_drop).
  apply NoDup_app in Hnd2 as (_ & Hdisj & Hnd2).
  apply StronglySorted_app in Hsorted2 as (Hlt & _ & _).
  split; [|split; [|split; [|split; [|split]]]].
  - intros j. unfold Cache.Len. rewrite Hsize.
    + lia.
    + assert (H : NoDup (map call_key (take j calls) ++ map call_key (drop j calls)))
        by (now rewrite <- fmap_app, take_drop).
      now apply NoDup_app in H as (H & _).
    + assert (H : StronglySorted Z.lt
                    (map call_time (take j calls) ++ map call_time (drop j calls)))
        by (now rewrite <- fmap_app, take_drop).
      now apply StronglySorted_app in H as (_ & H & _).
  - unfold Cache.Len. rewrite (Hsize calls Hnd Hsorted). lia.
  - exact Hfinal.
  - intros new Hnew. rewrite Hfinal.
    apply elem_of_list_to_map_1.
    + now rewrite <- list_fmap_compose.
    + apply list_elem_of_fmap. exists new. auto.
  - intros old Hold. rewrite Hfinal.
    apply not_elem_of_list_to_map_1. rewrite <- list_fmap_compose.
    apply Hdisj. apply list_elem_of_fmap. exists old. auto.
  - intros old new Hold Hnew. apply Hlt; apply list_elem_of_fmap; eauto.
Qed.

(** A run of 1001 calls: tile number [i] sits at x = i and was accessed at
    time [i]. *)
Definition numbered_call (i : nat) : JuliaParams * Tile * Offset :=
  (origin_params, mkTile (Z.of_nat i) 0 1 1 1 [] (Z.of_nat i), no_offset).

Definition numbered_calls (n : nat) : list (JuliaParams * Tile * Offset) :=
  map numbered_call (seq 0 n).

Lemma numbered_calls_keys (n : nat) : NoDup (map call_key (numbered_calls n)).
Proof.
  unfold numbered_calls. rewrite <- list_fmap_compose.
  apply NoDup_fmap_2_strong; [|apply NoDup_seq].
  intros i j _ _ Hij. unfold compose, call_key, numbered_call in Hij. simpl in Hij.
  apply getTileKey_ints in Hij. lia.
Qed.

Lemma numbered_calls_times (n : nat) :
  StronglySorted Z.lt (map call_time (numbered_calls n)).
Proof.
  unfold numbered_calls. rewrite <- list_fmap_compose.
  generalize 0%nat as a. induction n as [|n IH]; intros a; simpl; constructor.
  - apply IH.
  - apply Forall_fmap, Forall_forall. intros i Hi.
    apply elem_of_seq in Hi. unfold compose, call_time, numbered_call. simpl. lia.
Qed.

Lemma cache_keeps_the_most_recent_witness :
  (0 < 1)%nat /\
  length (numbered_calls 1001) = (Z.to_nat MaxCacheSize + 1)%nat /\
  Cache.Len (cacheTiles map_to_list ∅ (numbered_calls 1001)) = MaxCacheSize /\
  cacheTiles map_to_list ∅ (numbered_calls 1001)
  = list_to_map (map call_entry (drop 1 (numbered_calls 1001))).
Proof.
  split; [lia|]. split; [reflexivity|].
  pose proof (cache_keeps_the_most_recent (numbered_calls 1001) 1 ltac:(lia) eq_refl
                (numbered_calls_keys 1001) (numbered_calls_times 1001)
                map_to_list (fun tc => reflexivity (map_to_list tc))) as H.
  destruct H as (_ & Hlen & Hfinal & _).
  split; [exact Hlen | exact Hfinal].
Defined.

(* ===================================================================== *)
(** ** Facts about binary64 rounding *)

Module SFFacts.

Lemma fexp_eq (e : Z) : fexp prec emax e = Z.max (e - 53) (-1074).
Proof. reflexivity. Qed.

Lemma digits2_pos_bounds (p : positive) :
  2 ^ (Z.pos (digits2_pos p) - 1) <= Z.pos p < 2 ^ Z.pos (digits2_pos p).
Proof.
  induction p as [p IH|p IH|]; simpl digits2_pos.
  - rewrite Pos2Z.inj_succ.
    replace (Z.succ (Z.pos (digits2_pos p)) - 1) with (Z.succ (Z.pos (digits2_pos p) - 1)) by lia.
    rewrite !Z.pow_succ_r by lia. lia.
  - rewrite Pos2Z.inj_succ.
    replace (Z.succ (Z.pos (digits2_pos p)) - 1) with (Z.succ (Z.pos (digits2_pos p) - 1)) by lia.
    rewrite !Z.pow_succ_r by lia. lia.
  - simpl. lia.
Qed.

Lemma shr_1_m (r : shr_record) : 0 <= shr_m r -> shr_m (shr_1 r) = shr_m r / 2.
Proof.
  destruct r as [m r s]. cbn [shr_m]. intros Hm.
  destruct m as [|[p|p|]|p]; cbn [shr_1 shr_m]; try lia.
  - reflexivity.
  - apply Z.div_unique with 1; lia.
  - apply Z.div_unique with 0; lia.
  - reflexivity.
Qed.

Lemma iter_shr_1_m (n : positive) :
  forall r : shr_record,
    0 <= shr_m r -> shr_m (SpecFloat.iter_pos shr_1 n r) = shr_m r / 2 ^ Z.pos n.
Proof.
  assert (Hpow : forall k : positive, 0 < 2 ^ Z.pos k)
    by (intros k; apply Z.pow_pos_nonneg; lia).
  assert (Hnn : forall r (k : positive), 0 <= shr_m r -> 0 <= shr_m r / 2 ^ Z.pos k)
    by (intros r k Hr; apply Z.div_pos; auto).
  induction n as [n IH|n IH|]; intros r Hr; cbn [SpecFloat.iter_pos].
  - assert (H1 : 0 <= shr_m (shr_1 r)) by (rewrite shr_1_m by assumption; apply Z.div_pos; lia).
    pose proof (Hpow n) as Hn.
    rewrite IH by (rewrite IH by assumption; auto).
    rewrite IH by assumption. rewrite shr_1_m by assumption.
    rewrite !Z.div_div by lia.
    f_equal.
    replace (Z.pos n~1) with (Z.succ (Z.pos n + Z.pos n)) by lia.
    rewrite Z.pow_succ_r, Z.pow_add_r by lia. lia.
  - pose proof (Hpow n) as Hn.
    rewrite IH by (rewrite IH by assumption; auto).
    rewrite IH by assumption.
    rewrite Z.div_div by lia.
    f_equal.
    replace (Z.pos n~0) with (Z.pos n + Z.pos n) by lia.
    now rewrite Z.pow_add_r by lia.
  - rewrite shr_1_m by assumption. reflexivity.
Qed.

Lemma shr_record_of_loc_m (m : Z) (l : location) : shr_m (shr_record_of_loc m l) = m.
Proof. destruct l as [|[]]; reflexivity. Qed.

(** Shifting a positive mantissa to its format exponent leaves it positive
    and never lowers the exponent, provided the exponent is not below the
    smallest one. *)
Lemma shr_fexp_pos (m : positive) (e : Z) (l : location) :
  -1074 <= e ->
  0 < shr_m (shr_fexp prec emax (Z.pos m) e l).1 /\
  e <= (shr_fexp prec emax (Z.pos m) e l).2.
Proof.
  intros He. unfold shr_fexp, shr. rewrite fexp_eq. simpl Zdigits2.
  pose proof (digits2_pos_bounds m) as [Hlo Hhi].
  set (d := Z.pos (digits2_pos m)) in *.
  destruct (Z.max (d + e - 53) (-1074) - e) as [|n|n] eqn:Hn; simpl.
  - rewrite shr_record_of_loc_m. lia.
  - rewrite iter_shr_1_m by (rewrite shr_record_of_loc_m; lia).
    rewrite shr_record_of_loc_m.
    assert (Hd : Z.pos n = d - 53) by lia.
    split; [|lia].
    apply Z.div_str_pos. split; [apply Z.pow_pos_nonneg; lia|].
    rewrite Hd. etransitivity; [|exact Hlo].
    apply Z.pow_le_mono_r; lia.
  - rewrite shr_record_of_loc_m. lia.
Qed.

Lemma round_nearest_even_ge (m : Z) (l : location) : m <= round_nearest_even m l.
Proof. destruct l as [|[]]; simpl; try lia. destruct (Z.even m); lia. Qed.

(** The shape of a rounded positive number: it keeps its sign, is finite or
    infinite, and its exponent is not below the one it started with. *)
Inductive rounded (s : bool) (e : Z) : spec_float -> Prop :=
| rounded_finite (m' : positive) (e' : Z) : e <= e' -> rounded s e (S754_finite s m' e')
| rounded_infinity : rounded s e (S754_infinity s).

Lemma binary_round_aux_rounded (s : bool) (m : positive) (e : Z) (l : location) :
  -1074 <= e -> rounded s e (binary_round_aux prec emax s (Z.pos m) e l).
Proof.
  intros He. unfold binary_round_aux.
  destruct (shr_fexp_pos m e l He) as [Hm1 He1].
  destruct (shr_fexp prec emax (Z.pos m) e l) as [mrs1 e1]. simpl in Hm1, He1.
  pose proof (round_nearest_even_ge (shr_m mrs1) (loc_of_shr_record mrs1)) as Hr.
  destruct (round_nearest_even (shr_m mrs1) (loc_of_shr_record mrs1)) as [|m2|m2]; try lia.
  destruct (shr_fexp_pos m2 e1 loc_Exact ltac:(lia)) as [Hm3 He3].
  destruct (shr_fexp prec emax (Z.pos m2) e1 loc_Exact) as [mrs3 e3]. simpl in Hm3, He3.
  destruct (shr_m mrs3) as [|m3|m3]; try lia.
  destruct (e3 <=? emax - prec); constructor. lia.
Qed.

Lemma binary_round_rounded (s : bool) (p : positive) :
  rounded s (Z.min 0 (Z.pos (digits2_pos p) - 53)) (binary_round prec emax s p 0).
Proof.
  unfold binary_round, shl_align. rewrite fexp_eq.
  pose proof (Pos2Z.is_pos (digits2_pos p)) as Hd.
  set (d := Z.pos (digits2_pos p)) in *.
  replace (d + 0) with d by lia.
  destruct (Z.max (d - 53) (-1074) - 0) as [|n|n] eqn:Hn.
  - replace (Z.min 0 (d - 53)) with 0 by lia. apply binary_round_aux_rounded. lia.
  - replace (Z.min 0 (d - 53)) with 0 by lia. apply binary_round_aux_rounded. lia.
  - replace (Z.min 0 (d - 53)) with (Z.max (d - 53) (-1074)) by lia.
    apply binary_round_aux_rounded. lia.
Qed.

End SFFacts.

(* ===================================================================== *)
(** ** Converted integers and [math.Min] *)

Module F64Facts.

Import SFFacts.

Lemma of_uint63_shape (v : Z) :
  0 < v < 2 ^ 63 ->
  exists p : positive,
    v = Z.pos p /\
    rounded false (Z.min 0 (Z.pos (digits2_pos p) - 53))
            (Prim2SF (PrimFloat.of_uint63 (Uint63.of_Z v))).
Proof.
  intros Hv. destruct v as [|p|p]; try lia.
  exists p. split; [reflexivity|].
  rewrite of_uint63_spec, Uint63.of_Z_spec.
  rewrite Z.mod_small by (change Uint63Axioms.wB with (2 ^ 63); lia).
  apply binary_round_rounded.
Qed.

Lemma Prim2SF_TileSize :
  Prim2SF (F64.of_int TileSize) = S754_finite false 4503599627370496 (-45).
Proof. reflexivity. Qed.

(** A converted integer whose exponent is above that of 128 is more than
    128: [math.Min] returns 128. *)
Lemma Min_TileSize_large (y : float) (e : Z) :
  rounded false e (Prim2SF y) -> -45 < e ->
  F64.Min (F64.of_int TileSize) y = F64.of_int TileSize.
Proof.
  intros Hy He. unfold F64.Min, F64.IsInf, F64.IsNaN.
  rewrite !FloatAxioms.eqb_spec, ltb_spec, Prim2SF_TileSize.
  change (Prim2SF neg_infinity) with (S754_infinity true).
  change (Prim2SF 0) with (S754_zero false).
  inversion Hy as [m' e' He' Heq | Heq]; simpl.
  - unfold SFeqb, SFltb, SFcompare.
    rewrite Z.compare_refl, Pos.compare_cont_refl.
    destruct (Z.compare_spec (-45) e'); try lia. reflexivity.
  - reflexivity.
Qed.

Lemma forallb_seqZ (P : Z -> bool) (lo n : Z) :
  forallb P (seqZ lo n) = true -> forall v, lo <= v < lo + n -> P v = true.
Proof.
  intros Hall v Hv. rewrite forallb_forall in Hall. apply Hall.
  apply list_elem_of_In, elem_of_seqZ. lia.
Qed.

Lemma tile_extent_small_check :
  forallb (fun v => F64.to_int (F64.Min (F64.of_int TileSize) (F64.of_int v)) =? Z.min TileSize v)
          (seqZ 1 255) = true.
Proof. vm_compute. reflexivity. Qed.

(** [int(math.Min(float64(TileSize), float64(v)))] is [min(TileSize, v)]
    for every positive [int] [v]. *)
Lemma min_TileSize_exact (v : Z) :
  0 < v < 2 ^ 63 ->
  F64.to_int (F64.Min (F64.of_int TileSize) (F64.of_int v)) = Z.min TileSize v.
Proof.
  intros Hv. destruct (Z.lt_ge_cases v 256) as [Hsmall|Hlarge].
  - apply Z.eqb_eq.
    apply (forallb_seqZ _ 1 255 tile_extent_small_check v). lia.
  - destruct (of_uint63_shape v Hv) as (p & Hp & Hshape).
    assert (Hd : 8 < Z.pos (digits2_pos p)).
    { pose proof (digits2_pos_bounds p) as [_ Hhi].
      destruct (Z.le_gt_cases (Z.pos (digits2_pos p)) 8) as [Hle|]; [|assumption].
      assert (2 ^ Z.pos (digits2_pos p) <= 2 ^ 8) by (apply Z.pow_le_mono_r; lia).
      lia. }
    unfold F64.of_int at 2.
    destruct (Z.ltb_spec v 0); [lia|].
    rewrite (Min_TileSize_large _ _ Hshape) by lia.
    unfold TileSize. rewrite Z.min_l by lia. reflexivity.
Qed.

End F64Facts.

(** Inside the canvas the extent of a tile is the nominal size clipped at
    the edge. *)
Lemma tile_extent_clipped (extent origin : Z) :
  0 <= origin < extent -> extent < 2 ^ 63 ->
  tile_extent extent origin = Z.min TileSize (extent - origin).
Proof.
  intros Ho He. unfold tile_extent, GoInt.sub, GoInt.wrap64.
  replace ((extent - origin + 2 ^ 63) mod 2 ^ 64 - 2 ^ 63) with (extent - origin)
    by (rewrite Z.mod_small; lia).
  apply F64Facts.min_TileSize_exact. lia.
Qed.

(* ===================================================================== *)
(** ** Clipping at the canvas edge *)





(** The instance named in the specification: a 300x200 canvas and the tile
    at (256,128). *)
Definition canvas_300x200 : JuliaParams :=
  mkJuliaParams (mkComplex 0 0) (mkComplex 0 0) 1 1 10 300 200 1.

Example edge_tile_extents :
  tile_extent 300 256 = 44 /\ tile_extent 200 128 = 72.
Proof. split; vm_compute; reflexivity. Qed.

(** A cache that already holds the edge tile of that canvas, filed under
    its key for the zero offset. *)
Definition edge_tile_cache : TileCache :=
  <[ getTileKey canvas_300x200 256 128 1 no_offset := mkTile 256 128 44 72 1 [] 7 ]> ∅.

Lemma edge_tile_cache_consistent : cache_consistent edge_tile_cache.
Proof.
  apply (cache_consistent_insert ∅ canvas_300x200 no_offset (mkTile 256 128 44 72 1 [] 7)).
  - exact cache_consistent_empty.
  - vm_compute. reflexivity.
  - vm_compute. reflexivity.
Qed.


(* ===================================================================== *)
(** ** Squared distances are ordered *)

Module DistFacts.

Import SFFacts.

(** A float that is a number, with the given sign. *)
Definition signed (s : bool) (x : spec_float) : Prop :=
  match x with
  | S754_zero s' | S754_infinity s' | S754_finite s' _ _ => s' = s
  | S754_nan => False
  end.

Definition is_number (x : spec_float) : Prop := x <> S754_nan.

Lemma signed_is_number (s : bool) (x : spec_float) : signed s x -> is_number x.
Proof. destruct x; simpl; unfold is_number; congruence. Qed.

Lemma shr_fexp_nonneg (m e : Z) (l : location) :
  0 <= m -> 0 <= shr_m (shr_fexp prec emax m e l).1.
Proof.
  intros Hm. unfold shr_fexp, shr.
  destruct (fexp prec emax (Zdigits2 m + e) - e) as [|n|n]; simpl.
  - now rewrite shr_record_of_loc_m.
  - rewrite iter_shr_1_m by now rewrite shr_record_of_loc_m.
    rewrite shr_record_of_loc_m.
    apply Z.div_pos; [lia|]. apply Z.pow_pos_nonneg; lia.
  - now rewrite shr_record_of_loc_m.
Qed.

Lemma binary_round_aux_signed (s : bool) (m e : Z) (l : location) :
  0 <= m -> signed s (binary_round_aux prec emax s m e l).
Proof.
  intros Hm. unfold binary_round_aux.
  pose proof (shr_fexp_nonneg m e l Hm) as H1.
  destruct (shr_fexp prec emax m e l) as [mrs1 e1]. simpl in H1.
  pose proof (round_nearest_even_ge (shr_m mrs1) (loc_of_shr_record mrs1)) as Hr.
  pose proof (shr_fexp_nonneg (round_nearest_even (shr_m mrs1) (loc_of_shr_record mrs1))
                e1 loc_Exact ltac:(lia)) as H2.
  destruct (shr_fexp prec emax _ e1 loc_Exact) as [mrs2 e2]. simpl in H2.
  destruct (shr_m mrs2) as [|m2|m2]; simpl; try lia; try reflexivity.
  now destruct (e2 <=? emax - prec).
Qed.

Lemma binary_normalize_is_number (m e : Z) (s : bool) :
  is_number (binary_normalize prec emax m e s).
Proof.
  unfold binary_normalize, binary_round.
  destruct m as [|p|p]; [discriminate| |]; cbv beta iota.
  - match goal with |- context [shl_align p ?a ?b] => destruct (shl_align p a b) as [mz ez] end.
    eapply signed_is_number, binary_round_aux_signed. lia.
  - match goal with |- context [shl_align p ?a ?b] => destruct (shl_align p a b) as [mz ez] end.
    eapply signed_is_number, binary_round_aux_signed. lia.
Qed.

Lemma SFopp_is_number (x : spec_float) : is_number x -> is_number (SFopp x).
Proof. destruct x; simpl; unfold is_number; congruence. Qed.

(** [float64(n)] is a number. *)
Lemma of_int_is_number (n : Z) : is_number (Prim2SF (F64.of_int n)).
Proof.
  unfold F64.of_int.
  destruct (n <? 0).
  - destruct (n =? - 2 ^ 63); [discriminate|].
    rewrite opp_spec, of_uint63_spec.
    apply SFopp_is_number, binary_normalize_is_number.
  - rewrite of_uint63_spec. apply binary_normalize_is_number.
Qed.

(** The square of a number is a number that is not negative. *)
Lemma Pow2_signed (x : float) :
  is_number (Prim2SF x) -> signed false (Prim2SF (F64.Pow2 x)).
Proof.
  unfold F64.Pow2. rewrite mul_spec. unfold SF64mul, SFmul, is_number.
  destruct (Prim2SF x) as [s|s| |s m e]; intros Hx; try congruence.
  - simpl. now destruct s.
  - simpl. now destruct s.
  - replace (xorb s s) with false by now destruct s.
    apply binary_round_aux_signed. lia.
Qed.

(** The sum of two such numbers is one more. *)
Lemma add_signed (x y : float) :
  signed false (Prim2SF x) -> signed false (Prim2SF y) ->
  signed false (Prim2SF (x + y)%float).
Proof.
  rewrite add_spec. unfold SF64add, SFadd.
  destruct (Prim2SF x) as [sx|sx| |sx mx ex], (Prim2SF y) as [sy|sy| |sy my ey];
    simpl; intros Hx Hy; subst; try contradiction; try reflexivity.
  unfold binary_normalize, binary_round, cond_Zopp.
  destruct (Z.pos (shl_align mx ex (Z.min ex ey)).1 + Z.pos (shl_align my ey (Z.min ex ey)).1)
    as [|p|p] eqn:Hsum; try lia.
  cbv beta iota.
  match goal with |- context [shl_align p ?a ?b] => destruct (shl_align p a b) as [mz ez] end.
  apply binary_round_aux_signed. lia.
Qed.

(** The order of [<] on numbers: never both ways, and "not less" is
    transitive through a number. *)
Ltac compare_cases :=
  repeat match goal with
         | H : context [Z.compare ?a ?b] |- _ => destruct (Z.compare_spec a b)
         | |- context [Z.compare ?a ?b] => destruct (Z.compare_spec a b)
         | H : context [Pos.compare_cont Eq ?a ?b] |- _ =>
             change (Pos.compare_cont Eq a b) with (Pos.compare a b) in H;
             destruct (Pos.compare_spec a b)
         | |- context [Pos.compare_cont Eq ?a ?b] =>
             change (Pos.compare_cont Eq a b) with (Pos.compare a b);
             destruct (Pos.compare_spec a b)
         end.

Lemma SFltb_asym (x y : spec_float) : SFltb x y = true -> SFltb y x = false.
Proof.
  unfold SFltb, SFcompare.
  destruct x as [sx|sx| |sx mx ex], y as [sy|sy| |sy my ey];
    try destruct sx; try destruct sy; simpl; try congruence;
    intros H; compare_cases; simpl in *; try congruence; try lia.
Qed.

Lemma SFltb_not_less_trans (x y z : spec_float) :
  is_number y -> SFltb y x = false -> SFltb z y = false -> SFltb z x = false.
Proof.
  unfold SFltb, SFcompare, is_number.
  destruct x as [sx|sx| |sx mx ex], y as [sy|sy| |sy my ey], z as [sz|sz| |sz mz ez];
    try destruct sx; try destruct sy; try destruct sz; simpl; try congruence;
    intros _ H1 H2; compare_cases; simpl in *; try congruence; try lia.
Qed.

End DistFacts.

(* ===================================================================== *)
(** * Further properties of the code *)

(** ** The cache stays within its bound *)

Lemma oldest_step_key (acc : string * Z) (l : list (string * Tile)) :
  (foldl oldest_step acc l).1 = acc.1 \/ (foldl oldest_step acc l).1 ∈ l.*1.
Proof.
  revert acc. induction l as [|kv l IH]; intros acc; simpl; [now left|].
  destruct (IH (oldest_step acc kv)) as [H|H].
  - rewrite H. unfold oldest_step. destruct (_ || _); simpl; [right; left | now left].
  - right. now right.
Qed.

(** The key the scan returns names an entry it walked over. *)
Lemma oldest_scan_key_in (l : list (string * Tile)) :
  l <> [] -> (oldest_scan l).1 ∈ l.*1.
Proof.
  destruct l as [|kv l]; [congruence|]. intros _.
  unfold oldest_scan. simpl.
  destruct (oldest_step_key (oldest_step (EmptyString, 0) kv) l) as [H|H].
  - rewrite H. left.
  - now right.
Qed.

Section BoundKept.

Context (range : TileCache -> list (string * Tile)).
Hypothesis range_perm : forall tc : TileCache, range tc ≡ₚ map_to_list tc.

Lemma cacheTile_Len (tc : TileCache) (params : JuliaParams) (tile : Tile)
    (offset : Offset) :
  Cache.Len tc <= MaxCacheSize ->
  Cache.Len (cacheTile range tc params tile offset) <= MaxCacheSize.
Proof.
  intros Hlen. unfold cacheTile, Cache.Set_, Cache.Delete, Cache.Len in *.
  set (key := getTileKey params (Tile_X tile) (Tile_Y tile) (Tile_LOD tile) offset).
  set (tc1 := <[ key := tile ]> tc).
  assert (Hins : (size tc1 <= S (size tc))%nat).
  { unfold tc1. rewrite map_size_insert. destruct (tc !! key); simpl; lia. }
  destruct (Z.ltb_spec MaxCacheSize (Z.of_nat (size tc1))) as [Hover|]; [|assumption].
  assert (Hne : range tc1 <> []).
  { intros Hnil. pose proof (range_perm tc1) as Hp. rewrite Hnil in Hp.
    apply Permutation_nil_l in Hp. symmetry in Hp. apply map_to_list_empty_iff in Hp.
    rewrite Hp, map_size_empty in Hover. pose proof MaxCacheSize_pos. lia. }
  pose proof (oldest_scan_key_in (range tc1) Hne) as Hin.
  apply list_elem_of_fmap in Hin as ([k v] & Hk & Hkv). simpl in Hk.
  assert (Hkv' : (k, v) ∈ map_to_list tc1) by (now rewrite <- (range_perm tc1)).
  apply elem_of_map_to_list in Hkv'. rename Hkv' into Hlook.
  clear Hkv. rename Hlook into Hkv.
  rewrite Hk. rewrite map_size_delete, Hkv. simpl. lia.
Qed.

Lemma getCachedTile_Len (now : Z) (tc : TileCache) (params : JuliaParams)
    (x y lod : Z) (offset : Offset) :
  Cache.Len (getCachedTile now tc params x y lod offset).2 = Cache.Len tc.
Proof.
  unfold getCachedTile, Cache.Get, Cache.Set_, Cache.Len.
  destruct (tc !! getTileKey params x y lod offset) as [tile|] eqn:Hlook; simpl;
    [|reflexivity].
  now rewrite map_size_insert_Some by (rewrite Hlook; eauto).
Qed.

End BoundKept.

(** ** What a batch hands out *)

(** X2. On a cache in which every tile sits under the key of its own
    position and level, a batch whose tiles can be allocated answers each
    of its requests with exactly one tile that has the request's x, y and
    lod, whether that tile was rendered or found in the cache, and the cache
    is left in the same condition for the next batch. *)
Theorem batch_answers_every_request :
  forall tc : TileCache,
  cache_consistent tc ->
  forall (M : MathLib) (codec : RGBAImage -> list byte)
         (range : TileCache -> list (string * Tile)) (clock : nat -> Z) (n : nat)
         (request : Request),
  Forall (fun r => tile_allocates (Request_Params request) r = true)
         (parse_tiles (Request_Params request) (Request_Tiles request)) ->
  let out := batch_tiles M codec range clock n tc request in
  cache_consistent out.2.1 /\
  out.2.2 = (n + length (Request_Tiles request))%nat /\
  exists dispatch : list TileRequest,
    parse_tiles (Request_Params request) (Request_Tiles request) ≡ₚ dispatch /\
    Forall2 (fun r tile =>
               Tile_X tile = Req_X r /\ Tile_Y tile = Req_Y r /\ Tile_LOD tile = Req_LOD r)
            dispatch out.1.
Proof.
  intros tc Htc M codec range clock n request _ out.
  unfold out, batch_tiles, generateJuliaSet.
  set (params := validate (Request_Params request)).
  set (reqs := parse_tiles (Request_Params request) (Request_Tiles request)).
  destruct (run_tasks_spec M codec range clock params (Request_Offset request)
              (insertionSort (request_less params) reqs) n tc Htc) as (Hans & Hcons & Hn).
  split; [exact Hcons|]. split.
  - rewrite Hn. rewrite <- (Permutation_length (insertionSort_perm _ reqs)).
    unfold reqs, parse_tiles. now rewrite length_map.
  - exists (insertionSort (request_less params) reqs).
    split; [apply insertionSort_perm|].
    eapply Forall2_impl; [exact Hans|].
    intros r tile (HX & HY & HL & _). auto.
Qed.

(** A message that asks for the cached edge tile of the 300x200 canvas and
    for the tile at its origin. *)
Definition edge_and_origin_request : Request :=
  mkRequest canvas_300x200 ["256,128"%string; "0,0"%string] no_offset.

Lemma batch_answers_every_request_witness :
  cache_consistent edge_tile_cache /\
  edge_tile_cache !! getTileKey canvas_300x200 256 128 1 no_offset
  = Some (mkTile 256 128 44 72 1 [] 7) /\
  parse_tiles canvas_300x200 (Request_Tiles edge_and_origin_request)
  = [mkTileRequest 256 128 1; mkTileRequest 0 0 1] /\
  Forall (fun r => tile_allocates canvas_300x200 r = true)
         (parse_tiles canvas_300x200 (Request_Tiles edge_and_origin_request)) /\
  forall (M : MathLib) (codec : RGBAImage -> list byte)
         (range : TileCache -> list (string * Tile)) (clock : nat -> Z) (n : nat),
    cache_consistent
      (batch_tiles M codec range clock n edge_tile_cache edge_and_origin_request).2.1 /\
    (batch_tiles M codec range clock n edge_tile_cache edge_and_origin_request).2.2
    = (n + 2)%nat.
Proof.
  assert (Hparse : parse_tiles canvas_300x200 (Request_Tiles edge_and_origin_request)
                   = [mkTileRequest 256 128 1; mkTileRequest 0 0 1]) by reflexivity.
  assert (Halloc : Forall (fun r => tile_allocates canvas_300x200 r = true)
                     (parse_tiles canvas_300x200 (Request_Tiles edge_and_origin_request))).
  { rewrite Hparse. repeat constructor; vm_compute; reflexivity. }
  split; [exact edge_tile_cache_consistent|].
  split; [apply lookup_insert_eq|].
  split; [exact Hparse|]. split; [exact Halloc|].
  intros M codec range clock n.
  destruct (batch_answers_every_request edge_tile_cache edge_tile_cache_consistent
              M codec range clock n edge_and_origin_request Halloc) as (H1 & H2 & _).
  split; [exact H1 | exact H2].
Defined.

(** ** Keys and their integer fields *)

(** X3. The key separates its integer operands: two calls of
    [getTileKey] that give the same string agree on maxIterations, width,
    height, coloring, x, y and lod (only the float operands, printed with
    six decimals, can differ under one key). *)
Theorem equal_keys_have_equal_integers :
  forall (p p' : JuliaParams) (x y lod x' y' lod' : Z) (o o' : Offset),
  getTileKey p x y lod o = getTileKey p' x' y' lod' o' ->
  MaxIterations p = MaxIterations p' /\ Width p = Width p' /\ Height p = Height p' /\
  Coloring p = Coloring p' /\ x = x' /\ y = y' /\ lod = lod'.
Proof. intros p p' x y lod x' y' lod' o o'. apply getTileKey_ints. Qed.

Lemma equal_keys_have_equal_integers_witness :
  getTileKey view_a 0 0 1 no_offset = getTileKey view_b 0 0 1 no_offset /\
  MaxIterations view_a = MaxIterations view_b /\ Width view_a = Width view_b.
Proof.
  assert (H : getTileKey view_a 0 0 1 no_offset = getTileKey view_b 0 0 1 no_offset)
    by (vm_compute; reflexivity).
  split; [exact H|].
  destruct (equal_keys_have_equal_integers view_a view_b 0 0 1 0 0 1 no_offset no_offset H)
    as (H1 & H2 & _).
  split; [exact H1 | exact H2].
Defined.

(** ** Storing a tile and asking for it *)

(** X4. Store and look-up compose: after [cacheTile] has stored a tile in
    a cache that had room for it, [getCachedTile] for the tile's own
    position and level (same parameters and offset) finds it, hands it back
    with [LastAccessed] set to the time of the look-up and the other fields
    untouched, and keeps it in the cache. *)
Theorem stored_tile_is_found :
  forall (tc : TileCache), Cache.Len tc < MaxCacheSize ->
  forall (range : TileCache -> list (string * Tile)) (params : JuliaParams)
         (tile : Tile) (offset : Offset) (now : Z),
  let tc' := cacheTile range tc params tile offset in
  let found := getCachedTile now tc' params (Tile_X tile) (Tile_Y tile) (Tile_LOD tile) offset in
  found.1 = Some (touch now tile) /\
  found.2 !! getTileKey params (Tile_X tile) (Tile_Y tile) (Tile_LOD tile) offset
    = Some (touch now tile) /\
  Cache.Len found.2 = Cache.Len tc'.
Proof.
  intros tc Hroom range params tile offset now tc' found.
  set (key := getTileKey params (Tile_X tile) (Tile_Y tile) (Tile_LOD tile) offset).
  assert (Htc' : tc' = <[ key := tile ]> tc).
  { unfold tc', cacheTile, Cache.Set_, Cache.Len in *. fold key.
    assert (Hins : (size (<[ key := tile ]> tc) <= S (size tc))%nat)
      by (rewrite map_size_insert; destruct (tc !! key); simpl; lia).
    destruct (Z.ltb_spec MaxCacheSize (Z.of_nat (size (<[ key := tile ]> tc))));
      [lia | reflexivity]. }
  assert (Hfound : found = (Some (touch now tile), <[ key := touch now tile ]> tc')).
  { unfold found, getCachedTile, Cache.Get, Cache.Set_. fold key.
    now rewrite Htc', lookup_insert_eq. }
  rewrite Hfound. simpl. split; [reflexivity|]. split.
  - apply lookup_insert_eq.
  - unfold Cache.Len. rewrite map_size_insert_Some; [reflexivity|].
    rewrite Htc', lookup_insert_eq. eauto.
Qed.

Lemma stored_tile_is_found_witness :
  Cache.Len (∅ : TileCache) < MaxCacheSize /\
  forall (range : TileCache -> list (string * Tile)) (now : Z),
    (getCachedTile now (cacheTile range ∅ origin_params (mkTile 0 0 2 2 1 [] 5) no_offset)
                   origin_params 0 0 1 no_offset).1
    = Some (mkTile 0 0 2 2 1 [] now).
Proof.
  assert (H : Cache.Len (∅ : TileCache) < MaxCacheSize) by (vm_compute; reflexivity).
  split; [exact H|].
  intros range now.
  exact (proj1 (stored_tile_is_found ∅ H range origin_params (mkTile 0 0 2 2 1 [] 5)
                  no_offset now)).
Defined.

(** X5. A full cache can refuse a tile: when the cache holds
    [MaxCacheSize] entries, all of them accessed after the new tile was
    stamped, [cacheTile] inserts the tile and then evicts that very tile, so
    the cache is what it was and a look-up for the tile misses. *)
Theorem full_cache_evicts_a_stale_newcomer :
  forall (range : TileCache -> list (string * Tile)),
  (forall tc : TileCache, range tc ≡ₚ map_to_list tc) ->
  forall (tc : TileCache) (params : JuliaParams) (tile : Tile) (offset : Offset),
  let key := getTileKey params (Tile_X tile) (Tile_Y tile) (Tile_LOD tile) offset in
  Cache.Len tc = MaxCacheSize ->
  tc !! key = None ->
  (forall k v, tc !! k = Some v -> Tile_LastAccessed tile < Tile_LastAccessed v) ->
  cacheTile range tc params tile offset = tc /\
  forall now : Z,
    (getCachedTile now (cacheTile range tc params tile offset) params
                   (Tile_X tile) (Tile_Y tile) (Tile_LOD tile) offset).1 = None.
Proof.
  intros range Hrange tc params tile offset key Hfull Hfresh Holder.
  assert (Hevict : cacheTile range tc params tile offset = tc).
  { unfold cacheTile, Cache.Set_, Cache.Delete, Cache.Len in *. fold key.
    rewrite map_size_insert_None by assumption.
    destruct (Z.ltb_spec MaxCacheSize (Z.of_nat (S (size tc)))); [|lia].
    assert (Hscan : (oldest_scan (range (<[ key := tile ]> tc))).1 = key).
    { apply (oldest_scan_min (key, tile) (map_to_list tc)).
      - apply getTileKey_nonempty.
      - apply Forall_forall. intros [k v] Hkv. simpl.
        apply elem_of_map_to_list in Hkv. eauto.
      - rewrite Hrange. now apply map_to_list_insert. }
    rewrite Hscan. now apply delete_insert_id. }
  split; [exact Hevict|].
  intros now. rewrite Hevict. unfold getCachedTile, Cache.Get. fold key.
  now rewrite Hfresh.
Qed.

(** A cache filled with tiles 0..999, accessed at times 0..999, and a
    newcomer at x = 1000 that was stamped before all of them. *)
Definition full_cache : TileCache := list_to_map (map call_entry (numbered_calls 1000)).
Definition stale_tile : Tile := mkTile 1000 0 1 1 1 [] (-1).

Lemma numbered_calls_snoc (n : nat) :
  numbered_calls (S n) = numbered_calls n ++ [numbered_call n].
Proof. unfold numbered_calls. now rewrite seq_S, map_app. Qed.

Lemma full_cache_facts :
  Cache.Len full_cache = MaxCacheSize /\
  full_cache !! getTileKey origin_params (Tile_X stale_tile) (Tile_Y stale_tile)
                           (Tile_LOD stale_tile) no_offset = None /\
  (forall k v, full_cache !! k = Some v -> Tile_LastAccessed stale_tile < Tile_LastAccessed v).
Proof.
  pose proof (numbered_calls_keys 1001) as Hnd.
  rewrite numbered_calls_snoc, fmap_app in Hnd.
  apply NoDup_app in Hnd as (Hnd & Hdisj & _).
  split; [|split].
  - unfold Cache.Len, full_cache. rewrite map_size_list_to_map.
    + rewrite length_map. reflexivity.
    + now rewrite <- list_fmap_compose.
  - apply not_elem_of_list_to_map_1. rewrite <- list_fmap_compose.
    intros Hin. apply (Hdisj _ Hin). simpl. left.
  - intros k v Hkv. apply elem_of_list_to_map_2 in Hkv.
    apply list_elem_of_fmap in Hkv as (c & Hc & Hin).
    apply list_elem_of_fmap in Hin as (i & -> & _).
    injection Hc as _ ->. simpl. lia.
Qed.

Lemma full_cache_evicts_a_stale_newcomer_witness :
  (forall tc : TileCache, map_to_list tc ≡ₚ map_to_list tc) /\
  Cache.Len full_cache = MaxCacheSize /\
  cacheTile map_to_list full_cache origin_params stale_tile no_offset = full_cache.
Proof.
  assert (H1 : forall tc : TileCache, map_to_list tc ≡ₚ map_to_list tc) by reflexivity.
  destruct full_cache_facts as (H2 & H3 & H4).
  split; [exact H1|]. split; [exact H2|].
  exact (proj1 (full_cache_evicts_a_stale_newcomer map_to_list H1 full_cache origin_params
                  stale_tile no_offset H2 H3 H4)).
Defined.

(* ===================================================================== *)
(** ** The cache bound and the locks of [cacheTile] *)

(** [cacheTile] takes the mutex four times: in [Set], in [Len], around its
    [range] loop and in [Delete].  Between two of these sections another
    goroutine may run its own.  A call is followed here from one section to
    the next. *)
Module Interleaving.

(** Where a call of [cacheTile] stands: before one of its four sections
    (the last one knowing the key it is about to delete), or returned. *)
Inductive Stage : Type :=
| BeforeSet
| BeforeLen
| BeforeRange
| BeforeDelete (oldestKey : string)
| Returned.

Record Call : Type := mkCall { Call_key : string; Call_tile : Tile; Call_stage : Stage }.

Definition at_stage (c : Call) (stage : Stage) : Call :=
  mkCall (Call_key c) (Call_tile c) stage.

(** The call [cacheTile(params, tile, offset)] as it is entered. *)
Definition enter (params : JuliaParams) (tile : Tile) (offset : Offset) : Call :=
  mkCall (getTileKey params (Tile_X tile) (Tile_Y tile) (Tile_LOD tile) offset)
         tile BeforeSet.

(** One section of one call on the shared cache.  The [range] loop sees the
    entries in an order of the runtime's choosing. *)
Inductive call_step : TileCache * Call -> TileCache * Call -> Prop :=
| step_Set (tc : TileCache) (c : Call) :
    Call_stage c = BeforeSet ->
    call_step (tc, c) (Cache.Set_ tc (Call_key c) (Call_tile c), at_stage c BeforeLen)
| step_Len (tc : TileCache) (c : Call) :
    Call_stage c = BeforeLen ->
    call_step (tc, c)
              (tc, at_stage c (if MaxCacheSize <? Cache.Len tc then BeforeRange else Returned))
| step_Range (tc : TileCache) (c : Call) (entries : list (string * Tile)) :
    Call_stage c = BeforeRange ->
    entries ≡ₚ map_to_list tc ->
    call_step (tc, c) (tc, at_stage c (BeforeDelete (oldest_scan entries).1))
| step_Delete (tc : TileCache) (c : Call) (oldestKey : string) :
    Call_stage c = BeforeDelete oldestKey ->
    call_step (tc, c) (Cache.Delete tc oldestKey, at_stage c Returned).

(** Two goroutines inside [cacheTile]: either one runs its next section. *)
Inductive step : TileCache * Call * Call -> TileCache * Call * Call -> Prop :=
| step_first (tc tc' : TileCache) (a a' b : Call) :
    call_step (tc, a) (tc', a') -> step (tc, a, b) (tc', a', b)
| step_second (tc tc' : TileCache) (a b b' : Call) :
    call_step (tc, b) (tc', b') -> step (tc, a, b) (tc', a, b').

(** The eviction removes one entry. *)
Lemma evict_Len (tc : TileCache) (entries : list (string * Tile)) :
  entries ≡ₚ map_to_list tc -> 0 < Cache.Len tc ->
  Cache.Len (Cache.Delete tc (oldest_scan entries).1) = Cache.Len tc - 1.
Proof.
  intros Hperm Hpos. unfold Cache.Delete, Cache.Len in *.
  assert (Hne : entries <> []).
  { intros ->. symmetry in Hperm. apply Permutation_nil_r in Hperm.
    apply map_to_list_empty_iff in Hperm. subst tc. rewrite map_size_empty in Hpos. lia. }
  pose proof (oldest_scan_key_in entries Hne) as Hin.
  apply list_elem_of_fmap in Hin as ([k v] & Hk & Hkv). simpl in Hk.
  rewrite Hperm in Hkv. apply elem_of_map_to_list in Hkv.
  rewrite Hk, map_size_delete, Hkv. simpl. lia.
Qed.

Lemma run_Returned (tc tc' : TileCache) (c c' : Call) :
  Call_stage c = Returned -> rtc call_step (tc, c) (tc', c') -> tc' = tc /\ c' = c.
Proof.
  intros Hc Hrun. apply rtc_inv in Hrun as [Heq|(mid & Hstep & _)].
  - now injection Heq as -> ->.
  - inversion Hstep; congruence.
Qed.

Lemma run_Delete (tc tc' : TileCache) (c c' : Call) (oldestKey : string) :
  Call_stage c = BeforeDelete oldestKey -> Call_stage c' = Returned ->
  rtc call_step (tc, c) (tc', c') -> tc' = Cache.Delete tc oldestKey.
Proof.
  intros Hc Hc' Hrun. apply rtc_inv in Hrun as [Heq|(mid & Hstep & Hrest)].
  - injection Heq as -> ->. congruence.
  - inversion Hstep; subst; try congruence.
    apply run_Returned in Hrest as [-> _]; [|reflexivity]. congruence.
Qed.

Lemma run_Range (tc tc' : TileCache) (c c' : Call) :
  Call_stage c = BeforeRange -> Call_stage c' = Returned ->
  rtc call_step (tc, c) (tc', c') ->
  exists entries, entries ≡ₚ map_to_list tc /\
                  tc' = Cache.Delete tc (oldest_scan entries).1.
Proof.
  intros Hc Hc' Hrun. apply rtc_inv in Hrun as [Heq|(mid & Hstep & Hrest)].
  - injection Heq as -> ->. congruence.
  - inversion Hstep; subst; try congruence.
    exists entries. split; [assumption|].
    exact (run_Delete tc tc' (at_stage c (BeforeDelete (oldest_scan entries).1)) c'
             (oldest_scan entries).1 eq_refl Hc' Hrest).
Qed.

Lemma run_Len (tc tc' : TileCache) (c c' : Call) :
  Call_stage c = BeforeLen -> Call_stage c' = Returned ->
  rtc call_step (tc, c) (tc', c') ->
  if MaxCacheSize <? Cache.Len tc
  then exists entries, entries ≡ₚ map_to_list tc /\
                       tc' = Cache.Delete tc (oldest_scan entries).1
  else tc' = tc.
Proof.
  intros Hc Hc' Hrun. apply rtc_inv in Hrun as [Heq|(mid & Hstep & Hrest)].
  - injection Heq as -> ->. congruence.
  - inversion Hstep; subst; try congruence.
    destruct (MaxCacheSize <? Cache.Len tc).
    + exact (run_Range tc tc' (at_stage c BeforeRange) c' eq_refl Hc' Hrest).
    + now apply run_Returned in Hrest as [-> _].
Qed.

Lemma run_Set (tc tc' : TileCache) (c c' : Call) :
  Call_stage c = BeforeSet -> Call_stage c' = Returned ->
  rtc call_step (tc, c) (tc', c') ->
  let tc1 := Cache.Set_ tc (Call_key c) (Call_tile c) in
  if MaxCacheSize <? Cache.Len tc1
  then exists entries, entries ≡ₚ map_to_list tc1 /\
                       tc' = Cache.Delete tc1 (oldest_scan entries).1
  else tc' = tc1.
Proof.
  intros Hc Hc' Hrun. apply rtc_inv in Hrun as [Heq|(mid & Hstep & Hrest)].
  - injection Heq as -> ->. congruence.
  - inversion Hstep; subst; try congruence.
    exact (run_Len _ tc' (at_stage c BeforeLen) c' eq_refl Hc' Hrest).
Qed.

(** A call that runs its four sections with nothing in between keeps the
    bound. *)
Lemma alone_keeps_the_bound (tc tc' : TileCache) (c c' : Call) :
  Call_stage c = BeforeSet -> Call_stage c' = Returned ->
  rtc call_step (tc, c) (tc', c') ->
  Cache.Len tc <= MaxCacheSize -> Cache.Len tc' <= MaxCacheSize.
Proof.
  intros Hc Hc' Hrun Hlen. pose proof (run_Set _ _ _ _ Hc Hc' Hrun) as H.
  cbv zeta in H.
  assert (Hins : Cache.Len (Cache.Set_ tc (Call_key c) (Call_tile c)) <= Cache.Len tc + 1).
  { unfold Cache.Len, Cache.Set_. rewrite map_size_insert.
    destruct (tc !! Call_key c); simpl; lia. }
  destruct (Z.ltb_spec MaxCacheSize (Cache.Len (Cache.Set_ tc (Call_key c) (Call_tile c))))
    as [Hover|Hfits].
  - destruct H as (entries & Hperm & ->).
    pose proof MaxCacheSize_pos.
    rewrite (evict_Len _ _ Hperm) by lia. lia.
  - subst tc'. assumption.
Qed.

(** Run alone, the sections of a call make up the function [cacheTile]. *)
Lemma alone_is_cacheTile (range : TileCache -> list (string * Tile))
    (tc : TileCache) (params : JuliaParams) (tile : Tile) (offset : Offset) :
  (forall tc : TileCache, range tc ≡ₚ map_to_list tc) ->
  rtc call_step (tc, enter params tile offset)
                (cacheTile range tc params tile offset,
                 at_stage (enter params tile offset) Returned).
Proof.
  intros Hrange. unfold cacheTile.
  set (c := enter params tile offset).
  change (getTileKey params (Tile_X tile) (Tile_Y tile) (Tile_LOD tile) offset)
    with (Call_key c).
  change tile with (Call_tile c) at 1 2 3.
  set (tc1 := Cache.Set_ tc (Call_key c) (Call_tile c)).
  eapply rtc_l; [apply step_Set; reflexivity|]. fold tc1.
  eapply rtc_l; [apply step_Len; reflexivity|].
  destruct (MaxCacheSize <? Cache.Len tc1); [|apply rtc_refl].
  eapply rtc_l; [apply (step_Range _ _ (range tc1)); [reflexivity|apply Hrange]|].
  eapply rtc_l; [apply step_Delete; reflexivity|].
  apply rtc_refl.
Qed.

(** Two calls that enter a full cache with new keys, their sections taken
    in turn: both insert, both find the cache over the bound, both pick the
    same oldest entry, and the second [Delete] finds it gone. *)
Lemma interleaved_overshoot (tc : TileCache) (a b : Call) :
  Cache.Len tc = MaxCacheSize ->
  Call_stage a = BeforeSet -> Call_stage b = BeforeSet ->
  tc !! Call_key a = None -> tc !! Call_key b = None -> Call_key a <> Call_key b ->
  exists tc' : TileCache,
    rtc step (tc, a, b) (tc', at_stage a Returned, at_stage b Returned) /\
    Cache.Len tc' = MaxCacheSize + 1.
Proof.
  intros Hfull Ha Hb Hka Hkb Hne.
  set (tc1 := Cache.Set_ tc (Call_key a) (Call_tile a)).
  set (tc2 := Cache.Set_ tc1 (Call_key b) (Call_tile b)).
  assert (Hlen2 : Cache.Len tc2 = MaxCacheSize + 2).
  { unfold tc2, tc1, Cache.Len, Cache.Set_ in *.
    rewrite map_size_insert_None by (now rewrite lookup_insert_ne).
    rewrite map_size_insert_None by assumption. lia. }
  set (oldestKey := (oldest_scan (map_to_list tc2)).1).
  pose proof MaxCacheSize_pos as Hpos.
  assert (Hdel : Cache.Len (Cache.Delete tc2 oldestKey) = MaxCacheSize + 1).
  { unfold oldestKey. rewrite evict_Len by (reflexivity || lia). lia. }
  exists (Cache.Delete (Cache.Delete tc2 oldestKey) oldestKey). split.
  - eapply rtc_l; [apply step_first, step_Set; exact Ha|]. fold tc1.
    eapply rtc_l; [apply step_second, step_Set; exact Hb|]. fold tc2.
    eapply rtc_l; [apply step_first, step_Len; reflexivity|].
    eapply rtc_l; [apply step_second, step_Len; reflexivity|].
    rewrite Hlen2.
    destruct (Z.ltb_spec MaxCacheSize (MaxCacheSize + 2)) as [_|]; [|lia].
    eapply rtc_l; [apply step_first, (step_Range _ _ (map_to_list tc2)); reflexivity|].
    eapply rtc_l; [apply step_second, (step_Range _ _ (map_to_list tc2)); reflexivity|].
    fold oldestKey.
    eapply rtc_l; [apply step_first, step_Delete; reflexivity|].
    eapply rtc_l; [apply step_second, step_Delete; reflexivity|].
    apply rtc_refl.
  - unfold Cache.Delete in *. now rewrite delete_delete_eq.
Qed.

End Interleaving.

(** X1. The cache bound needs [cacheTile] to run undisturbed, which its
    locks do not ensure.  Run alone, the four locked sections of a call
    make up the function [cacheTile] and leave a cache that was within
    [MaxCacheSize] within it, in whatever order [range] walks the map.  Two
    calls that enter a cache holding exactly [MaxCacheSize] entries with two
    new keys leave at most [MaxCacheSize] entries when one returns before the
    other starts; with their sections taken in turn they can leave
    [MaxCacheSize + 1]: both find the cache too long, both pick the same
    oldest entry, and only one [Delete] removes something. *)
Theorem cacheTile_bound_needs_exclusive_access :
  (forall (range : TileCache -> list (string * Tile)) (tc : TileCache)
          (params : JuliaParams) (tile : Tile) (offset : Offset),
     (forall tc : TileCache, range tc ≡ₚ map_to_list tc) ->
     rtc Interleaving.call_step
         (tc, Interleaving.enter params tile offset)
         (cacheTile range tc params tile offset,
          Interleaving.at_stage (Interleaving.enter params tile offset)
                                Interleaving.Returned)) /\
  (forall (tc tc' : TileCache) (c c' : Interleaving.Call),
     Interleaving.Call_stage c = Interleaving.BeforeSet ->
     Interleaving.Call_stage c' = Interleaving.Returned ->
     rtc Interleaving.call_step (tc, c) (tc', c') ->
     Cache.Len tc <= MaxCacheSize -> Cache.Len tc' <= MaxCacheSize) /\
  (forall (tc : TileCache) (a b : Interleaving.Call),
     Cache.Len tc = MaxCacheSize ->
     Interleaving.Call_stage a = Interleaving.BeforeSet ->
     Interleaving.Call_stage b = Interleaving.BeforeSet ->
     tc !! Interleaving.Call_key a = None -> tc !! Interleaving.Call_key b = None ->
     Interleaving.Call_key a <> Interleaving.Call_key b ->
     (forall (tc1 tc2 : TileCache) (a' b' : Interleaving.Call),
        Interleaving.Call_stage a' = Interleaving.Returned ->
        Interleaving.Call_stage b' = Interleaving.Returned ->
        rtc Interleaving.call_step (tc, a) (tc1, a') ->
        rtc Interleaving.call_step (tc1, b) (tc2, b') ->
        Cache.Len tc2 <= MaxCacheSize) /\
     exists tc' : TileCache,
       rtc Interleaving.step
           (tc, a, b)
           (tc', Interleaving.at_stage a Interleaving.Returned,
                 Interleaving.at_stage b Interleaving.Returned) /\
       Cache.Len tc' = MaxCacheSize + 1).
Proof.
  split; [|split].
  - intros range tc params tile offset Hrange. now apply Interleaving.alone_is_cacheTile.
  - intros tc tc' c c'. apply Interleaving.alone_keeps_the_bound.
  - intros tc a b Hfull Ha Hb Hka Hkb Hne. split.
    + intros tc1 tc2 a' b' Ha' Hb' Hrun1 Hrun2.
      apply (Interleaving.alone_keeps_the_bound tc1 tc2 b b' Hb Hb' Hrun2).
      apply (Interleaving.alone_keeps_the_bound tc tc1 a a' Ha Ha' Hrun1). lia.
    + now apply Interleaving.interleaved_overshoot.
Qed.

Lemma full_cache_fresh (i : nat) :
  (1000 <= i)%nat -> full_cache !! call_key (numbered_call i) = None.
Proof.
  intros Hi. apply not_elem_of_list_to_map_1. rewrite <- list_fmap_compose.
  intros Hin. apply list_elem_of_fmap in Hin as (c & Hc & Hin).
  apply list_elem_of_fmap in Hin as (j & -> & Hj). apply elem_of_seq in Hj.
  unfold compose, call_entry, call_key, numbered_call in Hc. simpl in Hc.
  apply getTileKey_ints in Hc. lia.
Qed.

Lemma cacheTile_bound_needs_exclusive_access_witness :
  Cache.Len full_cache = MaxCacheSize /\
  full_cache !! call_key (numbered_call 1000) = None /\
  full_cache !! call_key (numbered_call 1001) = None /\
  call_key (numbered_call 1000) <> call_key (numbered_call 1001) /\
  exists tc' : TileCache,
    rtc Interleaving.step
        (full_cache,
         Interleaving.enter origin_params (numbered_call 1000).1.2 no_offset,
         Interleaving.enter origin_params (numbered_call 1001).1.2 no_offset)
        (tc',
         Interleaving.at_stage
           (Interleaving.enter origin_params (numbered_call 1000).1.2 no_offset)
           Interleaving.Returned,
         Interleaving.at_stage
           (Interleaving.enter origin_params (numbered_call 1001).1.2 no_offset)
           Interleaving.Returned) /\
    Cache.Len tc' = MaxCacheSize + 1.
Proof.
  assert (H1 : Cache.Len full_cache = MaxCacheSize) by exact (proj1 full_cache_facts).
  assert (H2 : full_cache !! call_key (numbered_call 1000) = None)
    by (apply full_cache_fresh; lia).
  assert (H3 : full_cache !! call_key (numbered_call 1001) = None)
    by (apply full_cache_fresh; lia).
  assert (H4 : call_key (numbered_call 1000) <> call_key (numbered_call 1001)).
  { intros Heq. unfold call_key, numbered_call in Heq. simpl in Heq.
    apply getTileKey_ints in Heq. lia. }
  repeat (split; [assumption|]).
  exact (proj2 (proj2 (proj2 cacheTile_bound_needs_exclusive_access)
                  full_cache
                  (Interleaving.enter origin_params (numbered_call 1000).1.2 no_offset)
                  (Interleaving.enter origin_params (numbered_call 1001).1.2 no_offset)
                  H1 eq_refl eq_refl H2 H3 H4)).
Defined.

(* ===================================================================== *)
(** ** The registry on interior points and the grey palette *)

(** X6. Every variant of the registry except id 12 maps an iteration
    count equal to [maxIterations] to opaque black, unknown ids included:
    a caller that does not test for interior points itself, such as the
    renderer that fills a raw byte buffer, still paints them black. *)
Theorem registry_paints_interior_black :
  forall coloring : Z, coloring <> 12 ->
  forall (M : MathLib) (maxIterations : Z) (z : complex128) (x y : Z),
    ReturnRGBA M coloring maxIterations maxIterations z x y = Some color_Black.
Proof.
  intros coloring Hne M maxIterations z x y.
  unfold ReturnRGBA, Color.SmoothColorHSV, Color.StripePattern, Color.ElectricPlasma,
    Color.PsychedelicSwirl, Color.MetallicSheen, Color.RainbowSpiral, Color.AutumnLeaves,
    Color.OceanDepths, Color.MoltenLava, Color.GreyPalette, Color.AlternateAlgorithms,
    Color.ElectricPlasma, Color.AutumnLeaves.
  rewrite Z.eqb_refl.
  destruct coloring as [|p|p]; try reflexivity.
  do 4 (destruct p as [p|p|]; try reflexivity; try congruence).
  now destruct (GoInt.rem (GoInt.add x y) 2 =? 0).
Qed.

Lemma registry_paints_interior_black_witness :
  3 <> 12 /\
  forall (M : MathLib) (maxIterations : Z) (z : complex128) (x y : Z),
    ReturnRGBA M 3 maxIterations maxIterations z x y = Some color_Black.
Proof.
  split; [discriminate|].
  apply (registry_paints_interior_black 3). discriminate.
Defined.

(** The grey level the palette holds at index [k]. *)
Definition grey_level (k : Z) : Z :=
  if k =? 0 then 86 else if k =? 255 then 0 else k.

Lemma greyPalette_check :
  forallb (fun k =>
             match Color.greyPalette !! Z.to_nat k with
             | Some c => (Z.land c 255 =? grey_level k)
                         && (Z.land (Z.shiftr c 8) 255 =? grey_level k)
                         && (Z.land (Z.shiftr c 16) 255 =? grey_level k)
             | None => false
             end)
          (seqZ 0 256) = true.
Proof. vm_compute. reflexivity. Qed.

(** X7. For an escaped point with a non-negative count [i], the grey
    palette returns an opaque grey whose three channels are equal: the level
    is [i mod 256], except that index 0 gives 86 and index 255 gives 0, so a
    point that escapes after 255 (mod 256) passes is as black as an interior
    one. *)
Theorem GreyPalette_levels :
  forall (i maxIterations : Z) (z : complex128),
  0 <= i -> i <> maxIterations ->
  Color.GreyPalette i maxIterations z
  = Some (mkRGBA (grey_level (i mod 256)) (grey_level (i mod 256))
                 (grey_level (i mod 256)) 255).
Proof.
  intros i maxIterations z Hi Hne. unfold Color.GreyPalette, GoInt.rem.
  destruct (Z.eqb_spec i maxIterations); [contradiction|].
  rewrite Z.rem_mod_nonneg by lia.
  pose proof (Z.mod_pos_bound i 256 ltac:(lia)) as Hk.
  destruct (Z.ltb_spec (i mod 256) 0); [lia|].
  pose proof (F64Facts.forallb_seqZ _ 0 256 greyPalette_check (i mod 256) ltac:(lia)) as Hc.
  simpl in Hc.
  destruct (Color.greyPalette !! Z.to_nat (i mod 256)) as [c|]; [|discriminate].
  apply andb_prop in Hc as [Hc H3]. apply andb_prop in Hc as [H1 H2].
  apply Z.eqb_eq in H1, H2, H3. simpl. now rewrite H1, H2, H3.
Qed.

Lemma GreyPalette_levels_witness :
  0 <= 255 /\ 255 <> 1000 /\
  forall z : complex128, Color.GreyPalette 255 1000 z = Some color_Black.
Proof.
  split; [lia|]. split; [lia|].
  intros z. exact (GreyPalette_levels 255 1000 z ltac:(lia) ltac:(lia)).
Defined.

(* ===================================================================== *)
(** ** Writing the tiles of a batch *)

(** X8. The write loop of the handler sends the messages of the tiles in
    channel order up to, and not including, the first one the transport
    refuses: the session goes back to waiting exactly when no write failed,
    and is closed otherwise, the refused tile and all later ones unsent. *)
Theorem write_failure_ends_the_batch :
  forall (write_fails : TileMessage -> bool) (tiles : list Tile),
  let sent := (send_tiles write_fails tiles).1 in
  let state := (send_tiles write_fails tiles).2 in
  sent = map tile_message (take (length sent) tiles) /\
  Forall (fun m => write_fails m = false) sent /\
  (state = AwaitingMessage <-> length sent = length tiles) /\
  (state = AwaitingMessage <->
     Forall (fun tile => write_fails (tile_message tile) = false) tiles) /\
  (state = Closed <->
     exists tile, tiles !! length sent = Some tile /\ write_fails (tile_message tile) = true).
Proof.
  intros write_fails tiles. cbv zeta.
  induction tiles as [|tile tiles IH]; simpl.
  - repeat split; auto; try discriminate.
    intros (t & Ht & _). discriminate.
  - destruct (write_fails (tile_message tile)) eqn:Hw; simpl.
    + repeat split; auto; try discriminate.
      * intros Hall. inversion Hall; congruence.
      * intros _. exists tile. auto.
    + destruct IH as (Hsent & Hok & Hlen & Hall & Hclosed).
      destruct (send_tiles write_fails tiles) as [sent st]. simpl in *.
      repeat split.
      * now rewrite <- Hsent.
      * now constructor.
      * intros Hst. f_equal. now apply Hlen.
      * intros Hl. apply Hlen. lia.
      * intros Hst. constructor; [assumption | now apply Hall].
      * intros Hf. apply Hall. now inversion Hf.
      * intros Hst. now apply Hclosed.
      * intros Hex. now apply Hclosed.
Qed.

(** X9. In the earlier handler, which encodes each tile when it is about
    to be written, a tile whose encoding fails is skipped and nothing else
    changes: with writes that succeed, the messages sent are those of the
    tiles that could be encoded, in order, and the session goes on. *)
Theorem earlier_handler_skips_unencodable_tiles :
  forall (codec : RGBAImage -> list byte) (tiles : list Legacy.LTile),
  Legacy.send_tiles codec (fun _ => false) tiles
  = (omap (fun tile => match Legacy.encodeTile codec tile with
                       | inl tileMsg => Some tileMsg
                       | inr _ => None
                       end) tiles,
     AwaitingMessage).
Proof.
  intros codec tiles. induction tiles as [|tile tiles IH]; simpl; [reflexivity|].
  destruct (Legacy.encodeTile codec tile) as [tileMsg|err]; [|exact IH].
  now rewrite IH.
Qed.

(* ===================================================================== *)
(** ** The pixels of a rendered tile *)

(** The accessor [RGBAAt] of [image.RGBA] ([None] where the slice
    expression would panic, which a well-formed image rules out). *)
Definition RGBAAt (p : RGBAImage) (x y : Z) : option RGBA :=
  if PointIn x y (Rect p) then
    let i := Z.to_nat (PixOffset p x y) in
    r ← Pix p !! i; g ← Pix p !! (i + 1)%nat; b ← Pix p !! (i + 2)%nat;
    a ← Pix p !! (i + 3)%nat; Some (mkRGBA r g b a)
  else Some (mkRGBA 0 0 0 0).

(** An image as [NewRGBA] makes it: rows of [4 * Dx] bytes, [Dy] of them. *)
Definition image_wf (p : RGBAImage) : Prop :=
  0 <= Dx (Rect p) /\ 0 <= Dy (Rect p) /\
  Stride p = 4 * Dx (Rect p) /\
  length (Pix p) = Z.to_nat (Stride p * Dy (Rect p)).

Lemma NewRGBA_wf (x0 y0 x1 y1 : Z) : image_wf (NewRGBA (image_Rect x0 y0 x1 y1)).
Proof.
  unfold image_wf, NewRGBA, image_Rect, Dx, Dy.
  destruct (Z.ltb_spec x1 x0), (Z.ltb_spec y1 y0); simpl;
    rewrite length_replicate; repeat split; try lia; f_equal; lia.
Qed.

Lemma RGBA_Set_wf (p : RGBAImage) (x y : Z) (c : RGBA) :
  image_wf p -> image_wf (RGBA_Set p x y c).
Proof.
  unfold image_wf, RGBA_Set. destruct (PointIn x y (Rect p)); [|auto].
  simpl. now rewrite !length_insert.
Qed.

(** Inside the rectangle the four bytes of a pixel lie inside the buffer,
    and two different pixels do not share a byte. *)
Lemma PixOffset_bounds (p : RGBAImage) (x y : Z) :
  image_wf p -> PointIn x y (Rect p) = true ->
  0 <= PixOffset p x y /\ PixOffset p x y + 4 <= Z.of_nat (length (Pix p)).
Proof.
  unfold image_wf, PointIn, PixOffset, Dx, Dy. intros (Hdx & Hdy & Hs & Hl) Hin.
  apply andb_prop in Hin as [Hin H4]. apply andb_prop in Hin as [Hin H3].
  apply andb_prop in Hin as [H1 H2].
  apply Z.leb_le in H1, H3. apply Z.ltb_lt in H2, H4.
  rewrite Hl, Hs. split; [nia|]. rewrite Z2Nat.id by nia. nia.
Qed.

Lemma PixOffset_apart (p : RGBAImage) (x y x' y' : Z) :
  image_wf p -> PointIn x y (Rect p) = true -> PointIn x' y' (Rect p) = true ->
  (x, y) <> (x', y') ->
  PixOffset p x y + 4 <= PixOffset p x' y' \/ PixOffset p x' y' + 4 <= PixOffset p x y.
Proof.
  unfold image_wf, PointIn, PixOffset, Dx, Dy. intros (Hdx & Hdy & Hs & Hl) Hin Hin' Hne.
  apply andb_prop in Hin as [Hin H4]. apply andb_prop in Hin as [Hin H3].
  apply andb_prop in Hin as [H1 H2].
  apply andb_prop in Hin' as [Hin' H4']. apply andb_prop in Hin' as [Hin' H3'].
  apply andb_prop in Hin' as [H1' H2'].
  apply Z.leb_le in H1, H3, H1', H3'. apply Z.ltb_lt in H2, H4, H2', H4'.
  rewrite Hs.
  destruct (Z.lt_trichotomy y y') as [Hy|[Hy|Hy]].
  - left. nia.
  - subst y'. assert (x <> x') by congruence.
    destruct (Z.lt_trichotomy x x') as [Hx|[Hx|Hx]]; [left; lia | contradiction | right; lia].
  - right. nia.
Qed.

Lemma lookup_four_inserts (l : list Z) (i : nat) (r g b a : Z) :
  (i + 3 < length l)%nat ->
  let l' := <[ (i + 3)%nat := a ]> (<[ (i + 2)%nat := b ]>
              (<[ (i + 1)%nat := g ]> (<[ i := r ]> l))) in
  l' !! i = Some r /\ l' !! (i + 1)%nat = Some g /\
  l' !! (i + 2)%nat = Some b /\ l' !! (i + 3)%nat = Some a.
Proof.
  intros Hi l'. unfold l'. repeat split.
  - rewrite !list_lookup_insert_ne by lia. apply list_lookup_insert_eq. lia.
  - rewrite !list_lookup_insert_ne by lia.
    apply list_lookup_insert_eq. rewrite !length_insert. lia.
  - rewrite list_lookup_insert_ne by lia.
    apply list_lookup_insert_eq. rewrite !length_insert. lia.
  - apply list_lookup_insert_eq. rewrite !length_insert. lia.
Qed.

Lemma RGBAAt_Set_same (p : RGBAImage) (x y : Z) (c : RGBA) :
  image_wf p -> PointIn x y (Rect p) = true ->
  RGBAAt (RGBA_Set p x y c) x y = Some c.
Proof.
  intros Hwf Hin.
  destruct (PixOffset_bounds p x y Hwf Hin) as [Hlo Hhi].
  unfold RGBAAt, RGBA_Set. rewrite Hin. simpl. rewrite Hin.
  change (PixOffset {| Pix := _; Stride := Stride p; Rect := Rect p |} x y)
    with (PixOffset p x y).
  set (i := Z.to_nat (PixOffset p x y)).
  assert (Hi : (i + 3 < length (Pix p))%nat) by (unfold i; lia).
  destruct (lookup_four_inserts (Pix p) i (R c) (G c) (B c) (A c) Hi)
    as (H0 & H1 & H2 & H3).
  rewrite H0, H1, H2, H3. simpl. now destruct c.
Qed.

Lemma RGBAAt_Set_other (p : RGBAImage) (x y x' y' : Z) (c : RGBA) :
  image_wf p -> (x, y) <> (x', y') ->
  RGBAAt (RGBA_Set p x y c) x' y' = RGBAAt p x' y'.
Proof.
  intros Hwf Hne. unfold RGBA_Set.
  destruct (PointIn x y (Rect p)) eqn:Hin; [|reflexivity].
  unfold RGBAAt. simpl.
  destruct (PointIn x' y' (Rect p)) eqn:Hin'; [|reflexivity].
  change (PixOffset {| Pix := _; Stride := Stride p; Rect := Rect p |} x' y')
    with (PixOffset p x' y').
  destruct (PixOffset_bounds p x y Hwf Hin) as [Hlo Hhi].
  destruct (PixOffset_bounds p x' y' Hwf Hin') as [Hlo' Hhi'].
  pose proof (PixOffset_apart p x y x' y' Hwf Hin Hin' Hne) as Hapart.
  now rewrite !list_lookup_insert_ne by lia.
Qed.

(** Painting a list of points, each with the colour a function gives it. *)
Definition paint_points (f : Z -> Z -> RGBA) (img : RGBAImage) (pts : list (Z * Z))
  : RGBAImage :=
  foldl (fun img pt => RGBA_Set img pt.1 pt.2 (f pt.1 pt.2)) img pts.

Lemma paint_points_cons (f : Z -> Z -> RGBA) (img : RGBAImage) (pt : Z * Z)
    (pts : list (Z * Z)) :
  paint_points f img (pt :: pts)
  = paint_points f (RGBA_Set img pt.1 pt.2 (f pt.1 pt.2)) pts.
Proof. reflexivity. Qed.

Lemma paint_points_wf (f : Z -> Z -> RGBA) (pts : list (Z * Z)) :
  forall img, image_wf img -> image_wf (paint_points f img pts).
Proof.
  induction pts as [|pt pts IH]; intros img Hwf; [assumption|].
  rewrite paint_points_cons. apply IH. now apply RGBA_Set_wf.
Qed.

Lemma paint_points_Rect (f : Z -> Z -> RGBA) (pts : list (Z * Z)) :
  forall img, Rect (paint_points f img pts) = Rect img.
Proof.
  induction pts as [|pt pts IH]; intros img; [reflexivity|].
  now rewrite paint_points_cons, IH, RGBA_Set_Rect.
Qed.

Lemma paint_points_untouched (f : Z -> Z -> RGBA) (pts : list (Z * Z)) (x y : Z) :
  forall img, image_wf img -> (x, y) ∉ pts ->
  RGBAAt (paint_points f img pts) x y = RGBAAt img x y.
Proof.
  induction pts as [|pt pts IH]; intros img Hwf Hnot; [reflexivity|].
  apply not_elem_of_cons in Hnot as [Hne Hnot].
  rewrite paint_points_cons, IH by (auto using RGBA_Set_wf).
  apply RGBAAt_Set_other; [assumption|]. destruct pt. simpl. congruence.
Qed.

Lemma paint_points_painted (f : Z -> Z -> RGBA) (pts : list (Z * Z)) (x y : Z) :
  forall img, image_wf img -> PointIn x y (Rect img) = true -> (x, y) ∈ pts ->
  RGBAAt (paint_points f img pts) x y = Some (f x y).
Proof.
  induction pts as [|pt pts IH]; intros img Hwf Hin Hel.
  - now apply elem_of_nil in Hel.
  - rewrite paint_points_cons.
    destruct (decide ((x, y) ∈ pts)) as [Hlater|Hnot].
    + apply IH; [now apply RGBA_Set_wf | now rewrite RGBA_Set_Rect | assumption].
    + apply elem_of_cons in Hel as [<-|Hel]; [|contradiction].
      rewrite paint_points_untouched by (auto using RGBA_Set_wf).
      simpl. now apply RGBAAt_Set_same.
Qed.

(** The two nested loops visit the points of the grid, row after row. *)
Definition grid_points (w h : Z) : list (Z * Z) :=
  py ← seqZ 0 h; (fun px => (px, py)) <$> seqZ 0 w.

Lemma render_rows_paint (M : MathLib) (params : JuliaParams) (offset : Offset)
    (tileX tileY tileWidth tileHeight : Z) (img : RGBAImage) :
  render_rows M params offset tileX tileY tileWidth tileHeight img
  = paint_points (pixel_color M params offset tileX tileY) img
                 (grid_points tileWidth tileHeight).
Proof.
  unfold render_rows, grid_points, paint_points.
  generalize (seqZ 0 tileHeight) as rows. intros rows. revert img.
  induction rows as [|py rows IH]; intros img; simpl; [reflexivity|].
  rewrite foldl_app, IH. f_equal.
  generalize (seqZ 0 tileWidth) as cols. intros cols. revert img.
  induction cols as [|px cols IHc]; intros img; simpl; [reflexivity|].
  now rewrite IHc.
Qed.

Lemma elem_of_grid_points (w h x y : Z) :
  (x, y) ∈ grid_points w h <-> 0 <= x < w /\ 0 <= y < h.
Proof.
  unfold grid_points. rewrite list_elem_of_bind. split.
  - intros (py & Hin & Hpy). apply list_elem_of_fmap in Hin as (px & Heq & Hpx).
    injection Heq as -> ->. apply elem_of_seqZ in Hpx, Hpy. lia.
  - intros [Hx Hy]. exists y. split; [|apply elem_of_seqZ; lia].
    apply list_elem_of_fmap. exists x. split; [reflexivity|apply elem_of_seqZ; lia].
Qed.

(** X10. The image [generateJuliaTile] builds for positive dimensions is
    the rectangle (0,0)-(width,height) with four bytes a pixel, and the
    pixel at [(px, py)] holds exactly the colour computed for that pixel:
    the loops leave no pixel of the tile unset and no pixel is overwritten
    by another one's colour. *)
Theorem tile_image_holds_every_pixel :
  forall (tileWidth tileHeight px py : Z),
  0 <= px < tileWidth -> 0 <= py < tileHeight ->
  forall (M : MathLib) (params : JuliaParams) (tileX tileY : Z) (offset : Offset),
  let img := tile_image M params tileX tileY tileWidth tileHeight offset in
  Rect img = mkRectangle 0 0 tileWidth tileHeight /\
  length (Pix img) = Z.to_nat (4 * tileWidth * tileHeight) /\
  RGBAAt img px py = Some (pixel_color M params offset tileX tileY px py).
Proof.
  intros tileWidth tileHeight px py Hpx Hpy M params tileX tileY offset img.
  assert (Hrect : image_Rect 0 0 tileWidth tileHeight = mkRectangle 0 0 tileWidth tileHeight).
  { unfold image_Rect.
    destruct (Z.ltb_spec tileWidth 0); [lia|].
    destruct (Z.ltb_spec tileHeight 0); [lia|]. reflexivity. }
  pose proof (NewRGBA_wf 0 0 tileWidth tileHeight) as Hwf0. rewrite Hrect in Hwf0.
  unfold img, tile_image. rewrite render_rows_paint, Hrect.
  set (img0 := NewRGBA (mkRectangle 0 0 tileWidth tileHeight)) in *.
  pose proof (paint_points_wf (pixel_color M params offset tileX tileY)
                (grid_points tileWidth tileHeight) img0 Hwf0) as Hwf.
  pose proof (paint_points_Rect (pixel_color M params offset tileX tileY)
                (grid_points tileWidth tileHeight) img0) as HR.
  change (Rect img0) with (mkRectangle 0 0 tileWidth tileHeight) in HR.
  split; [exact HR|]. split.
  - destruct Hwf as (_ & _ & Hs & Hl). rewrite Hl, Hs, HR. unfold Dx, Dy. simpl.
    f_equal. lia.
  - apply paint_points_painted.
    + exact Hwf0.
    + change (Rect img0) with (mkRectangle 0 0 tileWidth tileHeight).
      unfold PointIn. simpl.
      destruct (Z.leb_spec 0 px), (Z.ltb_spec px tileWidth),
        (Z.leb_spec 0 py), (Z.ltb_spec py tileHeight); (reflexivity || lia).
    + apply elem_of_grid_points. lia.
Qed.

Lemma tile_image_holds_every_pixel_witness :
  0 <= 0 < 1 /\ 0 <= 0 < 1 /\
  forall M : MathLib,
    RGBAAt (tile_image M view_b 0 0 1 1 no_offset) 0 0
    = Some (pixel_color M view_b no_offset 0 0 0 0).
Proof.
  split; [lia|]. split; [lia|]. intros M.
  destruct (tile_image_holds_every_pixel 1 1 0 0 ltac:(lia) ltac:(lia)
              M view_b 0 0 no_offset) as (_ & _ & H).
  exact H.
Defined.

(* ===================================================================== *)
(** ** The order in which a batch is dispatched *)

Module DispatchOrder.

Import DistFacts.

Lemma SFltb_false_leb (x y : spec_float) :
  is_number x -> is_number y -> SFltb y x = false -> SFleb x y = true.
Proof.
  unfold SFltb, SFleb, SFcompare, is_number.
  destruct x as [sx|sx| |sx mx ex], y as [sy|sy| |sy my ey];
    try destruct sx; try destruct sy; simpl; try congruence;
    intros _ _ H; compare_cases; simpl in *; try congruence; try lia.
Qed.

Lemma SFleb_ltb_false (x y : spec_float) : SFleb x y = true -> SFltb y x = false.
Proof.
  unfold SFltb, SFleb, SFcompare.
  destruct x as [sx|sx| |sx mx ex], y as [sy|sy| |sy my ey];
    try destruct sx; try destruct sy; simpl; try congruence;
    intros H; compare_cases; simpl in *; try congruence; try lia.
Qed.

Lemma request_dist_signed (params : JuliaParams) (r : TileRequest) :
  signed false (Prim2SF (request_dist params r)).
Proof.
  unfold request_dist.
  apply add_signed; apply Pow2_signed, of_int_is_number.
Qed.

Lemma request_less_asym (params : JuliaParams) (a b : TileRequest) :
  request_less params a b = true -> request_less params b a = false.
Proof.
  unfold request_less.
  destruct (Z.eqb_spec (Req_LOD a) (Req_LOD b)) as [Heq|Hne]; simpl.
  - rewrite Heq, Z.eqb_refl. simpl. rewrite !ltb_spec. apply SFltb_asym.
  - destruct (Z.eqb_spec (Req_LOD b) (Req_LOD a)); [congruence|]. simpl.
    intros H. apply Z.ltb_lt in H. apply Z.ltb_ge. lia.
Qed.

(** What "[b] is not less than [a]" says of two requests. *)
Definition dispatch_before (params : JuliaParams) (a b : TileRequest) : Prop :=
  Req_LOD a <= Req_LOD b /\
  (Req_LOD a = Req_LOD b ->
   (request_dist params a <=? request_dist params b)%float = true).

Lemma not_less_dispatch_before (params : JuliaParams) (a b : TileRequest) :
  request_less params b a = false <-> dispatch_before params a b.
Proof.
  unfold request_less, dispatch_before.
  pose proof (signed_is_number _ _ (request_dist_signed params a)) as Ha.
  pose proof (signed_is_number _ _ (request_dist_signed params b)) as Hb.
  destruct (Z.eqb_spec (Req_LOD b) (Req_LOD a)) as [Heq|Hne]; simpl.
  - rewrite ltb_spec, leb_spec. split.
    + intros H. split; [lia|]. intros _. now apply SFltb_false_leb.
    + intros [_ H]. specialize (H (eq_sym Heq)). now apply SFleb_ltb_false.
  - rewrite Z.ltb_ge. split; [intros H; split; [lia | intros; congruence] | intros [H _]; lia].
Qed.

Lemma not_less_trans (params : JuliaParams) (a b c : TileRequest) :
  request_less params b a = false -> request_less params c b = false ->
  request_less params c a = false.
Proof.
  unfold request_less.
  pose proof (signed_is_number _ _ (request_dist_signed params b)) as Hb.
  destruct (Z.eqb_spec (Req_LOD b) (Req_LOD a)), (Z.eqb_spec (Req_LOD c) (Req_LOD b)),
    (Z.eqb_spec (Req_LOD c) (Req_LOD a)); simpl;
    rewrite ?Z.ltb_ge, ?ltb_spec; try lia; try congruence.
  apply SFltb_not_less_trans. exact Hb.
Qed.

Section Sift.

Context (params : JuliaParams).

Let less := request_less params.
Let later (u v : TileRequest) : Prop := less u v = false.

Lemma sift_sorted (x : TileRequest) (acc : list TileRequest) :
  Sorted later acc -> Sorted later (sift less x acc).
Proof.
  induction acc as [|y rest IH]; intros Hs; simpl.
  - repeat constructor.
  - destruct (less x y) eqn:Hxy.
    + apply Sorted_inv in Hs as [Hrest Hhd].
      constructor; [now apply IH|].
      destruct rest as [|z rest']; simpl.
      * constructor. now apply request_less_asym.
      * destruct (less x z).
        -- constructor. now inversion Hhd.
        -- constructor. now apply request_less_asym.
    + constructor; [assumption|]. constructor. exact Hxy.
Qed.

Lemma sift_fold_sorted (l acc : list TileRequest) :
  Sorted later acc -> Sorted later (foldl (fun acc x => sift less x acc) acc l).
Proof.
  revert acc. induction l as [|x l IH]; intros acc Hs; simpl; [assumption|].
  apply IH. now apply sift_sorted.
Qed.

Lemma later_trans : Transitive later.
Proof.
  intros u v w Huv Hvw. unfold later, less in *.
  exact (not_less_trans params w v u Hvw Huv).
Qed.

Lemma strongly_sorted_rev (l : list TileRequest) :
  StronglySorted later l -> StronglySorted (fun a b => less b a = false) (rev l).
Proof.
  induction 1 as [|x l Hl IH Hx]; simpl; [constructor|].
  apply StronglySorted_app_2.
  - intros a b Ha Hb. apply list_elem_of_singleton in Hb. subst b.
    rewrite Forall_forall in Hx. apply Hx. apply list_elem_of_In, in_rev, list_elem_of_In. exact Ha.
  - exact IH.
  - repeat constructor.
Qed.

Lemma insertionSort_strongly_sorted (l : list TileRequest) :
  StronglySorted (fun a b => less b a = false) (insertionSort less l).
Proof.
  unfold insertionSort. apply strongly_sorted_rev.
  apply Sorted_StronglySorted; [exact later_trans|].
  apply sift_fold_sorted. constructor.
Qed.

Lemma not_less_transitive : Transitive (fun a b : TileRequest => less b a = false).
Proof. intros a b c Hab Hbc. exact (not_less_trans params a b c Hab Hbc). Qed.

End Sift.

End DispatchOrder.

(** X11. The comparison function of [generateJuliaSet] is fit for
    [sort.Slice]: it never holds both ways round, the squared distances it
    compares are never NaN, and "not less" is transitive.  So the dispatch
    list is a rearrangement of the requests in which, for every pair, the
    earlier request has the smaller or equal lod and, at equal lod, the
    smaller or equal float64 squared distance to the centre; the same holds
    of any rearrangement in which no request is less than its left
    neighbour. *)
Theorem dispatch_list_is_ordered :
  forall (params : JuliaParams) (requestedTiles : list TileRequest),
  let dispatch := insertionSort (request_less params) requestedTiles in
  (forall a b : TileRequest,
     request_less params a b = true -> request_less params b a = false) /\
  requestedTiles ≡ₚ dispatch /\
  sort_Slice_result (request_less params) requestedTiles dispatch /\
  StronglySorted (DispatchOrder.dispatch_before params) dispatch /\
  (forall sorted : list TileRequest,
     sort_Slice_result (request_less params) requestedTiles sorted ->
     StronglySorted (DispatchOrder.dispatch_before params) sorted).
Proof.
  intros params requestedTiles dispatch.
  assert (Himpl : forall l, StronglySorted (fun a b => request_less params b a = false) l ->
                            StronglySorted (DispatchOrder.dispatch_before params) l).
  { intros l Hl. induction Hl as [|x l Hl IH Hx]; constructor; [assumption|].
    eapply Forall_impl; [exact Hx|].
    intros b Hb. now apply DispatchOrder.not_less_dispatch_before. }
  pose proof (DispatchOrder.insertionSort_strongly_sorted params requestedTiles) as Hss.
  split; [apply DispatchOrder.request_less_asym|].
  split; [apply insertionSort_perm|].
  split; [split; [apply insertionSort_perm | now apply StronglySorted_Sorted]|].
  split; [now apply Himpl|].
  intros sorted [_ Hsorted]. apply Himpl.
  apply Sorted_StronglySorted; [exact (DispatchOrder.not_less_transitive params) | exact Hsorted].
Qed.

(* ===================================================================== *)
(** ** The alpha channel of the registry *)

Lemma of_rgb_A (c : Z * Z * Z) (a : Z) : A (Color.of_rgb c a) = a.
Proof. now destruct c as [[r g] b]. Qed.

Ltac opaque_colouring :=
  match goal with
  | |- context [if ?b then _ else _] => destruct b; [reflexivity|]
  end;
  cbv zeta; first [apply of_rgb_A | reflexivity].

Lemma SmoothColorHSV_A M i n z : A (Color.SmoothColorHSV M i n z) = 255.
Proof. unfold Color.SmoothColorHSV. opaque_colouring. Qed.
Lemma StripePattern_A M i n z : A (Color.StripePattern M i n z) = 255.
Proof. unfold Color.StripePattern. opaque_colouring. Qed.
Lemma ElectricPlasma_A M i n z : A (Color.ElectricPlasma M i n z) = 255.
Proof. unfold Color.ElectricPlasma. opaque_colouring. Qed.
Lemma PsychedelicSwirl_A M i n z : A (Color.PsychedelicSwirl M i n z) = 255.
Proof. unfold Color.PsychedelicSwirl. opaque_colouring. Qed.
Lemma MetallicSheen_A M i n z : A (Color.MetallicSheen M i n z) = 255.
Proof. unfold Color.MetallicSheen. opaque_colouring. Qed.
Lemma AutumnLeaves_A M i n z : A (Color.AutumnLeaves M i n z) = 255.
Proof. unfold Color.AutumnLeaves. opaque_colouring. Qed.
Lemma OceanDepths_A M i n z : A (Color.OceanDepths M i n z) = 255.
Proof. unfold Color.OceanDepths. opaque_colouring. Qed.
Lemma MoltenLava_A M i n z : A (Color.MoltenLava M i n z) = 255.
Proof. unfold Color.MoltenLava. opaque_colouring. Qed.
Lemma AlternateAlgorithms_A M i n z x y : A (Color.AlternateAlgorithms M i n z x y) = 255.
Proof.
  unfold Color.AlternateAlgorithms.
  destruct (_ =? 0); [apply ElectricPlasma_A | apply AutumnLeaves_A].
Qed.
Lemma MixMultipleAlgorithms_A M i n z : A (Color.MixMultipleAlgorithms M i n z) = 255.
Proof. reflexivity. Qed.
Lemma GreyPalette_A i n z c : Color.GreyPalette i n z = Some c -> A c = 255.
Proof.
  unfold Color.GreyPalette. destruct (i =? n); [now intros [= <-]|].
  destruct (_ <? 0); [discriminate|].
  destruct (Color.greyPalette !! _); simpl; [now intros [= <-] | discriminate].
Qed.

Ltac registry_case :=
  first
    [ apply GreyPalette_A
    | intros [= <-];
      first [ apply SmoothColorHSV_A | apply StripePattern_A | apply ElectricPlasma_A
            | apply PsychedelicSwirl_A | apply MetallicSheen_A | apply AutumnLeaves_A
            | apply OceanDepths_A | apply MoltenLava_A | apply AlternateAlgorithms_A
            | apply MixMultipleAlgorithms_A ] ].

Lemma ReturnRGBA_A (M : MathLib) (coloring i maxIterations : Z) (z : complex128)
    (x y : Z) (c : RGBA) :
  coloring <> 6 ->
  ReturnRGBA M coloring i maxIterations z x y = Some c -> A c = 255.
Proof.
  intros Hne. unfold ReturnRGBA.
  destruct coloring as [|p|p]; try registry_case.
  do 4 (destruct p as [p|p|]; try registry_case; try lia).
Qed.

Lemma pixel_color_A (M : MathLib) (params : JuliaParams) (offset : Offset)
    (tileX tileY px py : Z) :
  Coloring params <> 6 -> A (pixel_color M params offset tileX tileY px py) = 255.
Proof.
  intros Hne. unfold pixel_color.
  destruct (escape_time _ _ _) as [i z].
  destruct (i <? MaxIterations params); [|reflexivity].
  destruct (ReturnRGBA M (Coloring params) i (MaxIterations params) z _ _) as [c|] eqn:Hc;
    [|reflexivity].
  simpl. now apply ReturnRGBA_A in Hc.
Qed.

(** X12. Every colouring of the registry but one gives an opaque colour:
    for a colouring id other than 6 the alpha channel [ReturnRGBA] returns
    is 255 whatever the iteration count, the point and the results of the
    library functions, and so is the alpha of every pixel of a tile rendered
    with such an id.  Id 6, RainbowSpiral, is left out: it sets alpha from
    its intensity. *)
Theorem all_colourings_but_RainbowSpiral_are_opaque :
  forall coloring : Z, coloring <> 6 ->
  (forall (M : MathLib) (i maxIterations : Z) (z : complex128) (x y : Z) (c : RGBA),
     ReturnRGBA M coloring i maxIterations z x y = Some c -> A c = 255) /\
  (forall (M : MathLib) (params : JuliaParams) (offset : Offset)
          (tileX tileY tileWidth tileHeight px py : Z),
     Coloring params = coloring -> 0 <= px < tileWidth -> 0 <= py < tileHeight ->
     exists c : RGBA,
       RGBAAt (tile_image M params tileX tileY tileWidth tileHeight offset) px py = Some c /\
       A c = 255).
Proof.
  intros coloring Hne. split.
  - intros M i maxIterations z x y c. now apply ReturnRGBA_A.
  - intros M params offset tileX tileY tileWidth tileHeight px py Hcol Hpx Hpy.
    exists (pixel_color M params offset tileX tileY px py). split.
    + assert (Hrect : image_Rect 0 0 tileWidth tileHeight
                      = mkRectangle 0 0 tileWidth tileHeight).
      { unfold image_Rect.
        destruct (Z.ltb_spec tileWidth 0); [lia|].
        destruct (Z.ltb_spec tileHeight 0); [lia|]. reflexivity. }
      pose proof (NewRGBA_wf 0 0 tileWidth tileHeight) as Hwf0. rewrite Hrect in Hwf0.
      unfold tile_image. rewrite render_rows_paint, Hrect.
      apply paint_points_painted; [exact Hwf0| |apply elem_of_grid_points; lia].
      unfold PointIn. simpl.
      destruct (Z.leb_spec 0 px), (Z.ltb_spec px tileWidth),
        (Z.leb_spec 0 py), (Z.ltb_spec py tileHeight); (reflexivity || lia).
    + apply pixel_color_A. congruence.
Qed.

Lemma all_colourings_but_RainbowSpiral_are_opaque_witness :
  10 <> 6 /\
  forall (M : MathLib) (i maxIterations : Z) (z : complex128) (x y : Z) (c : RGBA),
    ReturnRGBA M 10 i maxIterations z x y = Some c -> A c = 255.
Proof.
  split; [lia|].
  exact (proj1 (all_colourings_but_RainbowSpiral_are_opaque 10 ltac:(lia))).
Defined.

(* ===================================================================== *)
(** ** Integers that float64 holds exactly *)

Module ExactInt.

Import SFFacts.

(** A positive float with a full 53-bit mantissa whose value is the
    integer [v]. *)
Definition holds (v : Z) (x : spec_float) : Prop :=
  exists (m : positive) (e : Z),
    x = S754_finite false m e /\ Z.pos (digits2_pos m) = 53 /\
    -1074 <= e <= 0 /\ Z.pos m = v * 2 ^ (- e).

Lemma iter_xO_value (p n : positive) : Z.pos (Pos.iter xO p n) = Z.pos p * 2 ^ Z.pos n.
Proof.
  induction n as [|n IH] using Pos.peano_ind.
  - simpl. lia.
  - rewrite Pos.iter_succ, Pos2Z.inj_xO, IH, Pos2Z.inj_succ, Z.pow_succ_r by lia. lia.
Qed.

Lemma iter_xO_digits (p n : positive) :
  Z.pos (digits2_pos (Pos.iter xO p n)) = Z.pos (digits2_pos p) + Z.pos n.
Proof.
  induction n as [|n IH] using Pos.peano_ind.
  - simpl. lia.
  - rewrite Pos.iter_succ. simpl digits2_pos. rewrite Pos2Z.inj_succ, IH. lia.
Qed.

Lemma binary_round_aux_canonical (s : bool) (m : positive) (e : Z) :
  Z.pos (digits2_pos m) = 53 -> -1074 <= e <= 971 ->
  binary_round_aux prec emax s (Z.pos m) e loc_Exact = S754_finite s m e.
Proof.
  intros Hd He.
  assert (Hshr : shr_fexp prec emax (Z.pos m) e loc_Exact
                 = (shr_record_of_loc (Z.pos m) loc_Exact, e)).
  { unfold shr_fexp, Zdigits2. rewrite Hd, fexp_eq.
    replace (Z.max (53 + e - 53) (-1074) - e) with 0 by lia. reflexivity. }
  unfold binary_round_aux. rewrite Hshr.
  change (round_nearest_even _ _) with (Z.pos m).
  rewrite Hshr. cbn [shr_m shr_record_of_loc].
  destruct (Z.leb_spec e (emax - prec)) as [|Hgt]; [reflexivity|].
  change (emax - prec) with 971 in Hgt. lia.
Qed.

Lemma digits_le_53 (p : positive) : Z.pos p < 2 ^ 53 -> Z.pos (digits2_pos p) <= 53.
Proof.
  intros Hp. pose proof (digits2_pos_bounds p) as [Hlo _].
  destruct (Z.le_gt_cases (Z.pos (digits2_pos p)) 53) as [|Hgt]; [assumption|].
  assert (2 ^ 53 <= 2 ^ (Z.pos (digits2_pos p) - 1)) by (apply Z.pow_le_mono_r; lia).
  lia.
Qed.

Lemma binary_round_holds (p : positive) :
  Z.pos p < 2 ^ 53 -> holds (Z.pos p) (binary_round prec emax false p 0).
Proof.
  intros Hp. pose proof (digits_le_53 p Hp) as Hd.
  pose proof (Pos2Z.is_pos (digits2_pos p)) as Hd0.
  unfold binary_round, shl_align. rewrite fexp_eq.
  destruct (Z.max (Z.pos (digits2_pos p) + 0 - 53) (-1074) - 0) as [|k|k] eqn:Hk; try lia.
  - rewrite binary_round_aux_canonical by lia.
    exists p, 0. repeat split; try lia.
  - assert (Hk' : Z.pos k = 53 - Z.pos (digits2_pos p)) by lia.
    rewrite binary_round_aux_canonical by (rewrite ?iter_xO_digits; lia).
    eexists _, _. split; [reflexivity|]. rewrite iter_xO_digits, iter_xO_value.
    repeat split; try lia. do 2 f_equal. lia.
Qed.

Lemma of_int_holds (v : Z) : 0 < v < 2 ^ 53 -> holds v (Prim2SF (F64.of_int v)).
Proof.
  intros Hv. unfold F64.of_int. destruct (Z.ltb_spec v 0); [lia|].
  destruct v as [|p|p]; try lia.
  rewrite of_uint63_spec, Uint63.of_Z_spec.
  rewrite Z.mod_small by (change Uint63Axioms.wB with (2 ^ 63); lia).
  now apply binary_round_holds.
Qed.

Lemma holds_range (v : Z) (x : spec_float) : holds v x -> 0 < v.
Proof.
  intros (m & e & _ & _ & He & Hm).
  assert (0 < 2 ^ (- e)) by (apply Z.pow_pos_nonneg; lia). nia.
Qed.

Lemma to_int_holds (v : Z) (x : float) :
  holds v (Prim2SF x) -> v < 2 ^ 63 -> F64.to_int x = v.
Proof.
  intros Hx Hv. pose proof (holds_range _ _ Hx) as H0.
  destruct Hx as (m & e & Heq & _ & He & Hm).
  unfold F64.to_int. rewrite Heq. cbn [F64.trunc_SF].
  assert (Ha : match e with
               | Z.neg q => Z.pos m / 2 ^ Z.pos q
               | _ => Z.pos m * 2 ^ e
               end = v).
  { destruct e as [|q|q]; try lia.
    rewrite Hm. change (- Z.neg q) with (Z.pos q).
    apply Z.div_mul. apply Z.pow_nonzero; lia. }
  rewrite Ha.
  destruct (Z.leb_spec (- 2 ^ 63) v), (Z.ltb_spec v (2 ^ 63)); simpl; lia.
Qed.

Lemma holds_mantissa (v : Z) (m : positive) (e : Z) :
  Z.pos (digits2_pos m) = 53 -> 2 ^ 52 <= Z.pos m < 2 ^ 53.
Proof.
  intros Hd. pose proof (digits2_pos_bounds m) as Hb. rewrite Hd in Hb. exact Hb.
Qed.

Lemma holds_lt (a b : Z) (x y : spec_float) :
  holds a x -> holds b y -> a < b -> SFltb x y = true.
Proof.
  intros Hx Hy Hab. pose proof (holds_range _ _ Hx) as Ha0.
  destruct Hx as (ma & ea & -> & Hda & Hea & Hma).
  destruct Hy as (mb & eb & -> & Hdb & Heb & Hmb).
  pose proof (holds_mantissa a ma ea Hda) as Hra.
  pose proof (holds_mantissa b mb eb Hdb) as Hrb.
  assert (Hpa : 0 < 2 ^ (- ea)) by (apply Z.pow_pos_nonneg; lia).
  unfold SFltb, SFcompare.
  destruct (Z.compare_spec ea eb) as [Heq|Hlt|Hgt].
  - subst eb. rewrite Pos.compare_cont_spec. simpl.
    destruct (Pos.compare_spec ma mb) as [He|Hl|Hg]; try reflexivity; nia.
  - reflexivity.
  - exfalso.
    assert (Hsplit : 2 ^ (- eb) = 2 ^ (- ea) * 2 ^ (ea - eb)).
    { rewrite <- Z.pow_add_r by lia. f_equal. lia. }
    assert (H2 : 2 ^ 1 <= 2 ^ (ea - eb)) by (apply Z.pow_le_mono_r; lia).
    change (2 ^ 1) with 2 in H2. rewrite Hsplit in Hmb. nia.
Qed.

Lemma holds_tests (v : Z) (x : float) :
  holds v (Prim2SF x) ->
  F64.IsInf x (-1) = false /\ F64.IsNaN x = false /\ (x =? 0)%float = false.
Proof.
  intros (m & e & Heq & _).
  unfold F64.IsInf, F64.IsNaN. rewrite !FloatAxioms.eqb_spec, Heq.
  change (Prim2SF neg_infinity) with (S754_infinity true).
  change (Prim2SF 0) with (S754_zero false).
  unfold SFeqb, SFcompare. rewrite Z.compare_refl, Pos.compare_cont_refl. auto.
Qed.

(** [int(math.Min(float64(a), float64(b)))] is [a] when [0 <= a <= b] and
    [b] is below 2^53. *)
Lemma int_Min_exact (a b : Z) :
  0 <= a <= b -> b < 2 ^ 53 ->
  F64.to_int (F64.Min (F64.of_int a) (F64.of_int b)) = a.
Proof.
  intros Hab Hb.
  destruct (Z.eq_dec b 0) as [->|Hb0].
  { replace a with 0 by lia. vm_compute. reflexivity. }
  pose proof (of_int_holds b ltac:(lia)) as Hy.
  destruct (holds_tests _ _ Hy) as (Hy1 & Hy2 & Hy3).
  destruct (Z.eq_dec a 0) as [->|Ha0].
  - assert (Hlt : (F64.of_int 0 <? F64.of_int b)%float = true).
    { rewrite ltb_spec. destruct Hy as (m & e & -> & _). reflexivity. }
    assert (Heq : (F64.of_int 0 =? F64.of_int b)%float = false).
    { rewrite FloatAxioms.eqb_spec. destruct Hy as (m & e & -> & _). reflexivity. }
    unfold F64.Min. rewrite Hy1, Hy2, Hlt, Heq.
    change (F64.IsInf (F64.of_int 0) (-1)) with false.
    change (F64.IsNaN (F64.of_int 0)) with false.
    rewrite andb_false_r. reflexivity.
  - pose proof (of_int_holds a ltac:(lia)) as Hx.
    destruct (holds_tests _ _ Hx) as (Hx1 & Hx2 & Hx3).
    unfold F64.Min. rewrite Hx1, Hx2, Hx3, Hy1, Hy2. simpl.
    destruct (Z.eq_dec a b) as [->|Hne].
    + destruct (_ <? _)%float; apply to_int_holds; (assumption || lia).
    + rewrite ltb_spec, (holds_lt a b) by (assumption || lia).
      apply to_int_holds; (assumption || lia).
Qed.

End ExactInt.

(* ===================================================================== *)
(** * The server that renders the canvas into one buffer *)

(** [calculateJuliaSet] of the untiled server fills a byte slice of four
    bytes a pixel, the rows shared out among [runtime.NumCPU()] goroutines.
    Its [JuliaParams] has no lod; [LOD] is not read here.  A [None] is a
    panic: a length given to [make] that is negative or above [maxAlloc], a
    store outside the slice, or a panic of the registry.  The goroutines
    are run one after the other in the order they are started, which no
    result depends on where they write to different bytes.  A machine that
    runs out of memory below [maxAlloc], which ends the program, is not
    modelled. *)
Module Whole.

(** A loop whose body may panic. *)
Fixpoint for_each {St A : Type} (body : St -> A -> option St) (s : St) (l : list A)
  : option St :=
  match l with
  | [] => Some s
  | a :: l => s ← body s a; for_each body s l
  end.

(** [data[index] = v]. *)
Definition store (data : list Z) (index v : Z) : option (list Z) :=
  if (0 <=? index) && (index <? Z.of_nat (length data))
  then Some (<[ Z.to_nat index := v ]> data)
  else None.

Section CalculateJuliaSet.

Context (M : MathLib).
(** The value of [runtime.NumCPU()]. *)
Context (NumCPU : Z).

(** The point of the pixel [(x, y)]. *)
Definition point (params : JuliaParams) (x y : Z) : complex128 :=
  let imag := (F64.of_int y / Zoom params
               - F64.of_int (Height params) / (F64.two * Zoom params)
               + Imag (Center params))%float in
  let real := (F64.of_int x / Zoom params
               - F64.of_int (Width params) / (F64.two * Zoom params)
               + Real (Center params))%float in
  Complex128 real imag.

(** The colour of the pixel [(x, y)]: the escape-time loop, then the
    registry, which is called for interior points as well. *)
Definition color_at (params : JuliaParams) (x y : Z) : option RGBA :=
  let c := Complex128 (Real (C params)) (Imag (C params)) in
  let '(i, z) := escape_time c (point params x y) (MaxIterations params) in
  ReturnRGBA M (Coloring params) i (MaxIterations params) z x y.

(** The body of the loop over [x]. *)
Definition pixel (params : JuliaParams) (data : list Z) (x y : Z) : option (list Z) :=
  let index := GoInt.mul (GoInt.add (GoInt.mul y (Width params)) x) 4 in
  color ← color_at params x y;
  data ← store data index (R color);
  data ← store data (GoInt.add index 1) (G color);
  data ← store data (GoInt.add index 2) (B color);
  store data (GoInt.add index 3) (A color).

(** One goroutine: the rows from [startY] up to [endY]. *)
Definition goroutine (params : JuliaParams) (startY endY : Z) (data : list Z)
  : option (list Z) :=
  for_each (fun data y =>
              for_each (fun data x => pixel params data x y) data (seqZ 0 (Width params)))
           data (seqZ startY (endY - startY)).

Definition calculateJuliaSet (params : JuliaParams) : option (list Z) :=
  let size := GoInt.mul (GoInt.mul (Width params) (Height params)) 4 in
  if (size <? 0) || (maxAlloc <? size) then None
  else
    let data := replicate (Z.to_nat size) 0 in
    let numGoroutines := NumCPU in
    let rowsPerGoroutine := GoInt.div (Height params) numGoroutines in
    for_each (fun data i =>
                goroutine params
                  (GoInt.mul i rowsPerGoroutine)
                  (F64.to_int
                     (F64.Min (F64.of_int (GoInt.mul (GoInt.add i 1) rowsPerGoroutine))
                              (F64.of_int (Height params))))
                  data)
             data (seqZ 0 numGoroutines).

End CalculateJuliaSet.

End Whole.

Module WholeFacts.

Import Whole.

Lemma wrap64_small (z : Z) : - 2 ^ 63 <= z < 2 ^ 63 -> GoInt.wrap64 z = z.
Proof. intros H. unfold GoInt.wrap64. rewrite Z.mod_small; lia. Qed.

Lemma for_each_app {St A : Type} (body : St -> A -> option St) (l1 l2 : list A) :
  forall s, for_each body s (l1 ++ l2) = s' ← for_each body s l1; for_each body s' l2.
Proof.
  induction l1 as [|a l1 IH]; intros s; simpl; [reflexivity|].
  destruct (body s a) as [s'|]; simpl; [apply IH | reflexivity].
Qed.

Lemma for_each_bind {St A B : Type} (body : St -> B -> option St) (g : A -> list B)
    (l : list A) :
  forall s, for_each (fun s a => for_each body s (g a)) s l = for_each body s (l ≫= g).
Proof.
  induction l as [|a l IH]; intros s; simpl; [reflexivity|].
  rewrite for_each_app. destruct (for_each body s (g a)) as [s'|]; simpl;
    [apply IH | reflexivity].
Qed.

Lemma for_each_fmap {St A B : Type} (body : St -> B -> option St) (g : A -> B)
    (l : list A) :
  forall s, for_each (fun s a => body s (g a)) s l = for_each body s (g <$> l).
Proof.
  induction l as [|a l IH]; intros s; simpl; [reflexivity|].
  destruct (body s (g a)) as [s'|]; simpl; [apply IH | reflexivity].
Qed.

Lemma for_each_ext {St A : Type} (body1 body2 : St -> A -> option St) (l : list A) :
  (forall a, a ∈ l -> forall s, body1 s a = body2 s a) ->
  forall s, for_each body1 s l = for_each body2 s l.
Proof.
  induction l as [|a l IH]; intros Hext s; simpl; [reflexivity|].
  rewrite (Hext a) by left.
  destruct (body2 s a) as [s'|]; simpl; [|reflexivity].
  apply IH. intros a' Ha'. apply Hext. now right.
Qed.

(** The buffer read as the image of [Width] by [Height] pixels that the
    client draws. *)
Definition as_image (params : JuliaParams) (data : list Z) : RGBAImage :=
  mkRGBAImage data (4 * Width params) (mkRectangle 0 0 (Width params) (Height params)).

Definition shaped (params : JuliaParams) (img : RGBAImage) : Prop :=
  Stride img = 4 * Width params /\
  Rect img = mkRectangle 0 0 (Width params) (Height params).

Lemma shaped_as_image (params : JuliaParams) (img : RGBAImage) :
  shaped params img -> as_image params (Pix img) = img.
Proof. destruct img. unfold shaped, as_image. simpl. now intros [-> ->]. Qed.

Lemma RGBA_Set_shaped (params : JuliaParams) (img : RGBAImage) (x y : Z) (c : RGBA) :
  shaped params img -> shaped params (RGBA_Set img x y c).
Proof. unfold shaped, RGBA_Set. now destruct (PointIn x y (Rect img)). Qed.

Lemma paint_points_shaped (params : JuliaParams) (f : Z -> Z -> RGBA) (pts : list (Z * Z)) :
  forall img, shaped params img -> shaped params (paint_points f img pts).
Proof.
  induction pts as [|pt pts IH]; intros img Hs; [assumption|].
  rewrite paint_points_cons. apply IH. now apply RGBA_Set_shaped.
Qed.

Section Buffer.

Context (M : MathLib) (params : JuliaParams).
Context (HW : 0 <= Width params) (HH : 0 <= Height params).
Context (Hsize : 4 * Width params * Height params < 2 ^ 63).

Definition colour (x y : Z) : RGBA := default color_Black (color_at M params x y).

Lemma color_at_colour (x y : Z) : color_at M params x y = Some (colour x y).
Proof.
  unfold colour, color_at.
  destruct (escape_loop_spec (Complex128 (Real (C params)) (Imag (C params)))
              (Z.to_nat (MaxIterations params)) 0 (point params x y))
    as (j & _ & Heq & _).
  unfold escape_time. rewrite Heq.
  destruct (ReturnRGBA_no_panic M (Coloring params) (0 + Z.of_nat j)
              (MaxIterations params)
              (orbit (Complex128 (Real (C params)) (Imag (C params))) (point params x y) j)
              x y ltac:(lia)) as [c Hc].
  now rewrite Hc.
Qed.

Definition on_canvas (pt : Z * Z) : Prop :=
  0 <= pt.1 < Width params /\ 0 <= pt.2 < Height params.

Lemma as_image_wf (data : list Z) :
  length data = Z.to_nat (4 * Width params * Height params) ->
  image_wf (as_image params data).
Proof.
  intros Hlen. unfold image_wf, as_image, Dx, Dy. simpl.
  repeat split; lia.
Qed.

Lemma on_canvas_PointIn (data : list Z) (pt : Z * Z) :
  on_canvas pt -> PointIn pt.1 pt.2 (Rect (as_image params data)) = true.
Proof.
  intros [Hx Hy]. unfold PointIn. simpl.
  destruct (Z.leb_spec 0 pt.1), (Z.ltb_spec pt.1 (Width params)),
    (Z.leb_spec 0 pt.2), (Z.ltb_spec pt.2 (Height params)); (reflexivity || lia).
Qed.

(** Inside the canvas the body of the inner loop does what [Set] does on
    the image: the index does not wrap and the four stores are in range. *)
Lemma pixel_Set (data : list Z) (pt : Z * Z) :
  length data = Z.to_nat (4 * Width params * Height params) ->
  on_canvas pt ->
  pixel M params data pt.1 pt.2
  = Some (Pix (RGBA_Set (as_image params data) pt.1 pt.2 (colour pt.1 pt.2))).
Proof.
  intros Hlen Hin. destruct pt as [x y]. pose proof Hin as [Hx Hy]. simpl in Hx, Hy.
  cbn [fst snd].
  unfold pixel. rewrite color_at_colour. cbn [mbind option_bind].
  assert (Hindex : GoInt.mul (GoInt.add (GoInt.mul y (Width params)) x) 4
                   = 4 * (y * Width params + x)).
  { unfold GoInt.mul, GoInt.add.
    rewrite (wrap64_small (y * Width params)) by nia.
    rewrite (wrap64_small (y * Width params + x)) by nia.
    rewrite wrap64_small by nia. lia. }
  rewrite Hindex.
  set (index := 4 * (y * Width params + x)).
  assert (Hrange : 0 <= index /\ index + 4 <= 4 * Width params * Height params)
    by (unfold index; nia).
  unfold GoInt.add. rewrite !wrap64_small by lia.
  pose proof (on_canvas_PointIn data (x, y) Hin) as HP. cbn [fst snd] in HP.
  unfold RGBA_Set. rewrite HP.
  cbn [Pix fst snd].
  assert (Hoff : PixOffset (as_image params data) x y = index).
  { unfold PixOffset, as_image, index. simpl. lia. }
  rewrite Hoff.
  assert (Hstore : forall (d : list Z) (k v : Z),
             length d = length data -> 0 <= k < 4 ->
             store d (index + k) v = Some (<[ (Z.to_nat index + Z.to_nat k)%nat := v ]> d)).
  { intros d k v Hd Hk. unfold store. rewrite Hd, Hlen.
    destruct (Z.leb_spec 0 (index + k)); [|lia].
    destruct (Z.ltb_spec (index + k) (Z.of_nat (Z.to_nat (4 * Width params * Height params))));
      [|lia].
    simpl. do 2 f_equal. lia. }
  replace index with (index + 0) at 1 by lia.
  rewrite Hstore by (reflexivity || lia). cbn [mbind option_bind].
  rewrite Hstore by (rewrite ?length_insert; (reflexivity || lia)). cbn [mbind option_bind].
  rewrite Hstore by (rewrite ?length_insert; (reflexivity || lia)). cbn [mbind option_bind].
  rewrite Hstore by (rewrite ?length_insert; (reflexivity || lia)).
  change (Z.to_nat 0) with 0%nat. change (Z.to_nat 1) with 1%nat.
  change (Z.to_nat 2) with 2%nat. change (Z.to_nat 3) with 3%nat.
  now rewrite Nat.add_0_r.
Qed.

(** A run of the loop body over points of the canvas paints them. *)
Lemma for_each_paint (pts : list (Z * Z)) :
  Forall on_canvas pts ->
  forall data, length data = Z.to_nat (4 * Width params * Height params) ->
  for_each (fun data pt => pixel M params data pt.1 pt.2) data pts
  = Some (Pix (paint_points colour (as_image params data) pts)).
Proof.
  induction 1 as [|pt pts Hpt Hpts IH]; intros data Hlen; [reflexivity|].
  cbn [for_each]. rewrite pixel_Set by assumption. cbn [mbind option_bind].
  rewrite paint_points_cons.
  assert (Hs : shaped params (RGBA_Set (as_image params data) pt.1 pt.2 (colour pt.1 pt.2))).
  { apply RGBA_Set_shaped. split; reflexivity. }
  rewrite IH.
  - now rewrite (shaped_as_image _ _ Hs).
  - pose proof (RGBA_Set_wf _ pt.1 pt.2 (colour pt.1 pt.2) (as_image_wf data Hlen))
      as (_ & _ & Hst & Hl).
    rewrite Hl. destruct Hs as [-> ->]. unfold Dy. simpl. f_equal. lia.
Qed.

End Buffer.

(** The rows the goroutines are given, in the order they are started. *)
Definition rows (NumCPU rowsPerGoroutine : Z) : list Z :=
  i ← seqZ 0 NumCPU; seqZ (i * rowsPerGoroutine) rowsPerGoroutine.

Lemma elem_of_rows (NumCPU rowsPerGoroutine y : Z) :
  0 <= rowsPerGoroutine ->
  y ∈ rows NumCPU rowsPerGoroutine <-> 0 <= y < NumCPU * rowsPerGoroutine.
Proof.
  intros Hnonneg. unfold rows. rewrite list_elem_of_bind. split.
  - intros (i & Hy & Hi). apply elem_of_seqZ in Hy, Hi.
    assert (0 <= i * rowsPerGoroutine) by (apply Z.mul_nonneg_nonneg; lia).
    assert ((i + 1) * rowsPerGoroutine <= NumCPU * rowsPerGoroutine)
      by (apply Z.mul_le_mono_nonneg_r; lia).
    lia.
  - intros Hy.
    assert (Hr : 0 < rowsPerGoroutine).
    { destruct (Z.eq_dec rowsPerGoroutine 0) as [Hz|]; [|lia].
      rewrite Hz, Z.mul_0_r in Hy. lia. }
    exists (y / rowsPerGoroutine).
    pose proof (Z.mul_div_le y rowsPerGoroutine Hr).
    pose proof (Z.mul_succ_div_gt y rowsPerGoroutine Hr).
    split; apply elem_of_seqZ.
    + lia.
    + split; [apply Z.div_pos; lia|].
      apply Z.div_lt_upper_bound; lia.
Qed.

Definition row_points (width : Z) (ys : list Z) : list (Z * Z) :=
  y ← ys; (fun x => (x, y)) <$> seqZ 0 width.

Lemma elem_of_row_points (width : Z) (ys : list Z) (x y : Z) :
  (x, y) ∈ row_points width ys <-> 0 <= x < width /\ y ∈ ys.
Proof.
  unfold row_points. rewrite list_elem_of_bind. split.
  - intros (y' & Hin & Hy). apply list_elem_of_fmap in Hin as (x' & Heq & Hx).
    injection Heq as -> ->. apply elem_of_seqZ in Hx. split; [lia | assumption].
  - intros [Hx Hy]. exists y. split; [|assumption].
    apply list_elem_of_fmap. exists x. split; [reflexivity | apply elem_of_seqZ; lia].
Qed.

Lemma row_points_bind {A : Type} (width : Z) (g : A -> list Z) (l : list A) :
  l ≫= (fun a => row_points width (g a)) = row_points width (l ≫= g).
Proof.
  unfold row_points. induction l as [|a l IH]; [reflexivity|].
  rewrite !bind_cons, bind_app. f_equal. exact IH.
Qed.

(** A goroutine runs the loop body over the points of its rows. *)
Lemma goroutine_points (M : MathLib) (params : JuliaParams) (startY endY : Z)
    (data : list Z) :
  goroutine M params startY endY data
  = for_each (fun data pt => pixel M params data pt.1 pt.2) data
             (row_points (Width params) (seqZ startY (endY - startY))).
Proof.
  unfold goroutine, row_points.
  rewrite <- (for_each_bind (fun data pt => pixel M params data pt.1 pt.2)).
  apply for_each_ext. intros y _ s.
  now rewrite <- for_each_fmap.
Qed.

(** With no wrap-around the goroutines are given [rowsPerGoroutine] rows
    each, one block after the other. *)
Lemma calculateJuliaSet_points (M : MathLib) (NumCPU : Z) (params : JuliaParams) :
  1 <= NumCPU < 2 ^ 63 ->
  0 <= Width params -> 0 <= Height params < 2 ^ 53 ->
  4 * Width params * Height params <= maxAlloc ->
  calculateJuliaSet M NumCPU params
  = for_each (fun data pt => pixel M params data pt.1 pt.2)
             (replicate (Z.to_nat (4 * Width params * Height params)) 0)
             (row_points (Width params) (rows NumCPU (Height params / NumCPU))).
Proof.
  intros HN HW HH Hsize. unfold calculateJuliaSet.
  unfold maxAlloc in Hsize.
  assert (Hmul : GoInt.mul (GoInt.mul (Width params) (Height params)) 4
                 = 4 * Width params * Height params).
  { unfold GoInt.mul. rewrite (wrap64_small (Width params * Height params)) by nia.
    rewrite wrap64_small by nia. lia. }
  rewrite Hmul. destruct (Z.ltb_spec (4 * Width params * Height params) 0); [nia|].
  destruct (Z.ltb_spec maxAlloc (4 * Width params * Height params));
    [unfold maxAlloc in *; lia|].
  cbv [orb]. cbv zeta.
  assert (Hdiv : GoInt.div (Height params) NumCPU = Height params / NumCPU).
  { unfold GoInt.div. rewrite Z.quot_div_nonneg by lia.
    pose proof (Z.div_pos (Height params) NumCPU ltac:(lia) ltac:(lia)).
    pose proof (Z.div_le_upper_bound (Height params) NumCPU (Height params)
                  ltac:(lia) ltac:(nia)).
    apply wrap64_small. lia. }
  rewrite Hdiv. set (rpg := Height params / NumCPU).
  assert (Hrpg : 0 <= rpg /\ NumCPU * rpg <= Height params).
  { unfold rpg. split; [apply Z.div_pos; lia | apply Z.mul_div_le; lia]. }
  unfold rows. rewrite <- row_points_bind.
  rewrite <- (for_each_bind (fun data pt => pixel M params data pt.1 pt.2)).
  apply for_each_ext. intros i Hi data. apply elem_of_seqZ in Hi.
  rewrite goroutine_points.
  assert (Hstart : GoInt.mul i rpg = i * rpg)
    by (unfold GoInt.mul; apply wrap64_small; nia).
  assert (Hend : GoInt.mul (GoInt.add i 1) rpg = (i + 1) * rpg).
  { unfold GoInt.mul, GoInt.add. rewrite (wrap64_small (i + 1)) by lia.
    apply wrap64_small. nia. }
  rewrite Hstart, Hend, ExactInt.int_Min_exact by nia.
  do 3 f_equal. lia.
Qed.

End WholeFacts.

(** X13. [calculateJuliaSet] renders only the rows that divide evenly among
    the goroutines.  For a canvas whose buffer of [4 * Width * Height] bytes
    is one [make] hands out (at most [maxAlloc] bytes) and whose height is
    below 2^53, the call returns a buffer of four bytes a pixel without
    panicking; with [rendered = NumCPU * (Height / NumCPU)],
    every pixel of a row below [rendered] holds exactly the colour computed
    for it, and every pixel of the remaining [Height mod NumCPU] rows is
    left as [make] zeroed it (transparent black).  With more processors
    than rows nothing is rendered at all. *)
Theorem calculateJuliaSet_skips_the_remainder_rows :
  forall (NumCPU : Z) (params : JuliaParams),
  1 <= NumCPU < 2 ^ 63 ->
  0 <= Width params -> 0 <= Height params < 2 ^ 53 ->
  4 * Width params * Height params <= maxAlloc ->
  forall M : MathLib,
  let rendered := NumCPU * (Height params / NumCPU) in
  exists data : list Z,
    Whole.calculateJuliaSet M NumCPU params = Some data /\
    length data = Z.to_nat (4 * Width params * Height params) /\
    Height params - rendered = Height params mod NumCPU /\
    forall x y : Z, 0 <= x < Width params -> 0 <= y < Height params ->
      exists c : RGBA,
        Whole.color_at M params x y = Some c /\
        RGBAAt (WholeFacts.as_image params data) x y
        = Some (if y <? rendered then c else mkRGBA 0 0 0 0).
Proof.
  intros NumCPU params HN HW HH Halloc M rendered.
  assert (Hsize : 4 * Width params * Height params < 2 ^ 63)
    by (unfold maxAlloc in Halloc; lia).
  set (pts := WholeFacts.row_points (Width params)
                (WholeFacts.rows NumCPU (Height params / NumCPU))).
  set (data0 := replicate (Z.to_nat (4 * Width params * Height params)) 0).
  assert (Hlen0 : length data0 = Z.to_nat (4 * Width params * Height params))
    by apply length_replicate.
  assert (Hrend : 0 <= rendered <= Height params).
  { unfold rendered. pose proof (Z.div_pos (Height params) NumCPU ltac:(lia) ltac:(lia)).
    split; [nia | apply Z.mul_div_le; lia]. }
  assert (Hpts : forall x y, (x, y) ∈ pts <-> 0 <= x < Width params /\ 0 <= y < rendered).
  { intros x y. unfold pts.
    rewrite WholeFacts.elem_of_row_points, WholeFacts.elem_of_rows
      by (apply Z.div_pos; lia).
    reflexivity. }
  assert (Hall : Forall (WholeFacts.on_canvas params) pts).
  { apply Forall_forall. intros [x y] Hin. apply Hpts in Hin.
    unfold WholeFacts.on_canvas. simpl. lia. }
  pose proof (WholeFacts.as_image_wf params HW (proj1 HH) data0 Hlen0) as Hwf0.
  pose proof (WholeFacts.paint_points_shaped params (WholeFacts.colour M params) pts
                (WholeFacts.as_image params data0) (conj eq_refl eq_refl)) as Hshaped.
  pose proof (paint_points_wf (WholeFacts.colour M params) pts _ Hwf0) as Hwf.
  exists (Pix (paint_points (WholeFacts.colour M params)
                 (WholeFacts.as_image params data0) pts)).
  split; [|split; [|split]].
  - rewrite WholeFacts.calculateJuliaSet_points by assumption.
    now apply WholeFacts.for_each_paint.
  - destruct Hwf as (_ & _ & Hst & Hl). destruct Hshaped as [Hs Hr].
    rewrite Hl, Hs, Hr. unfold Dy. simpl. f_equal. lia.
  - unfold rendered. rewrite (Z.mod_eq (Height params) NumCPU) by lia. reflexivity.
  - intros x y Hx Hy. exists (WholeFacts.colour M params x y).
    split; [apply WholeFacts.color_at_colour|].
    rewrite (WholeFacts.shaped_as_image _ _ Hshaped).
    assert (HP : PointIn x y (Rect (WholeFacts.as_image params data0)) = true)
      by (apply (WholeFacts.on_canvas_PointIn params data0 (x, y)); split; simpl; lia).
    destruct (Z.ltb_spec y rendered) as [Hlt|Hge].
    + apply paint_points_painted; [assumption|assumption|apply Hpts; lia].
    + rewrite paint_points_untouched by (try assumption; rewrite Hpts; lia).
      destruct (PixOffset_bounds _ x y Hwf0 HP) as [Hlo Hhi].
      unfold RGBAAt. rewrite HP.
      cbn [Pix WholeFacts.as_image] in *.
      unfold data0 in *. rewrite length_replicate in Hhi.
      rewrite !lookup_replicate_2 by lia. reflexivity.
Qed.

Lemma calculateJuliaSet_skips_the_remainder_rows_witness :
  1 <= 3 < 2 ^ 63 /\ 0 <= Width canvas_300x200 /\
  0 <= Height canvas_300x200 < 2 ^ 53 /\
  4 * Width canvas_300x200 * Height canvas_300x200 <= maxAlloc /\
  forall M : MathLib,
  exists data : list Z,
    Whole.calculateJuliaSet M 3 canvas_300x200 = Some data /\
    forall x : Z, 0 <= x < 300 ->
      RGBAAt (WholeFacts.as_image canvas_300x200 data) x 199 = Some (mkRGBA 0 0 0 0).
Proof.
  assert (H1 : 1 <= 3 < 2 ^ 63) by lia.
  assert (H2 : 0 <= Width canvas_300x200) by (simpl; lia).
  assert (H3 : 0 <= Height canvas_300x200 < 2 ^ 53) by (simpl; lia).
  assert (H4 : 4 * Width canvas_300x200 * Height canvas_300x200 <= maxAlloc)
    by (vm_compute; discriminate).
  repeat (split; [assumption|]).
  intros M.
  destruct (calculateJuliaSet_skips_the_remainder_rows 3 canvas_300x200 H1 H2 H3 H4 M)
    as (data & Hdata & _ & _ & Hpix).
  exists data. split; [exact Hdata|].
  intros x Hx.
  destruct (Hpix x 199 ltac:(simpl; lia) ltac:(simpl; lia)) as (c & _ & Hc).
  exact Hc.
Defined.

(* ===================================================================== *)
(** * The earlier tiled server: grid, keys and cache cleanup *)

(** The server with tiles of 256 pixels a side keeps its tiles in a
    [sync.Map] under the key of [getTileKey] and trims the map after every
    request.  Its [JuliaParams] carries the pan as two ints and has no lod;
    its [Tile] carries the time of its last use. *)
Module LegacyServer.

Record JuliaParams : Type := mkJuliaParams {
  C : Complex;
  Center : Complex;
  Zoom : float;
  Coloring : Z;
  MaxIterations : Z;
  Width : Z;
  Height : Z;
  OffsetX : Z;
  OffsetY : Z
}.

Record Tile : Type := mkTile {
  X : Z; Y : Z; Tile_Zoom : float; Image : RGBAImage; LastUsed : Z
}.

Definition TileSize : Z := 256.
Definition MaxCacheSize : Z := 1000.

(** [getTileKey]: the format is [%f,%f,%f,%f,%f,%d,%d,%d,%d,%d,%d,%f,%f],
    the tile position printed as two float64. *)
Definition getTileKey (params : JuliaParams) (x y : Z) : string :=
  Fmt.join_comma
    [ Fmt.fmt_f (Real (C params)); Fmt.fmt_f (Imag (C params));
      Fmt.fmt_f (Real (Center params)); Fmt.fmt_f (Imag (Center params));
      Fmt.fmt_f (Zoom params);
      Fmt.fmt_d (MaxIterations params); Fmt.fmt_d (Width params);
      Fmt.fmt_d (Height params); Fmt.fmt_d (OffsetX params);
      Fmt.fmt_d (OffsetY params); Fmt.fmt_d (Coloring params);
      Fmt.fmt_f (F64.of_int x); Fmt.fmt_f (F64.of_int y) ].

(** [(extent + TileSize - 1) / TileSize], the number of tiles along one
    side as [generateJuliaSet] computes it. *)
Definition tiles_along (extent : Z) : Z :=
  GoInt.div (GoInt.sub (GoInt.add extent TileSize) 1) TileSize.

(** The positions [(tx, ty)] for which [generateJuliaSet] starts a
    goroutine, in the order of its two loops. *)
Definition tile_grid (params : JuliaParams) : list (Z * Z) :=
  let tilesX := tiles_along (Width params) in
  let tilesY := tiles_along (Height params) in
  tileY ← seqZ 0 tilesY; (fun tileX => (tileX, tileY)) <$> seqZ 0 tilesX.

(** The comparison [cleanupCache] sorts by:
    [tiles[i].LastUsed.Before(tiles[j].LastUsed)]. *)
Definition before (a b : Tile) : bool := LastUsed a <? LastUsed b.

Section Cleanup.

(** The order in which [Range] visits the map and the outcome of
    [sort.Slice], neither of which the libraries fix. *)
Context (range : gmap string Tile -> list (string * Tile)).
Context (sort_Slice : (Tile -> Tile -> bool) -> list Tile -> list Tile).

(** [cleanupCache], run with no store in between. *)
Definition cleanupCache (tileCache : gmap string Tile) (params : JuliaParams)
  : gmap string Tile :=
  let tiles := (range tileCache).*2 in
  if MaxCacheSize <? Z.of_nat (length tiles) then
    let tiles := sort_Slice before tiles in
    foldl (fun tileCache tile => delete (getTileKey params (X tile) (Y tile)) tileCache)
          tileCache
          (take (Z.to_nat (Z.of_nat (length tiles) - MaxCacheSize)) tiles)
  else tileCache.

End Cleanup.

(** The operands [getTileKey] prints with [%d]. *)
Definition int_fields (params : JuliaParams) : list Z :=
  [ MaxIterations params; Width params; Height params;
    OffsetX params; OffsetY params; Coloring params ].

Lemma getTileKey_int_fields (p p' : JuliaParams) (x y x' y' : Z) :
  getTileKey p x y = getTileKey p' x' y' -> int_fields p = int_fields p'.
Proof.
  unfold getTileKey, int_fields. intros H.
  apply FmtFacts.join_comma_inj in H; [|reflexivity| |];
    [|simpl; now rewrite !FmtFacts.fmt_f_no_comma, !FmtFacts.fmt_d_no_comma ..].
  injection H as _ _ _ _ _ H1 H2 H3 H4 H5 H6 _ _.
  apply FmtFacts.fmt_d_inj in H1, H2, H3, H4, H5, H6. congruence.
Qed.

Lemma deletes_spare (params : JuliaParams) (key : string) (tiles : list Tile) :
  (forall x y, getTileKey params x y <> key) ->
  forall tileCache : gmap string Tile,
  foldl (fun tileCache tile => delete (getTileKey params (X tile) (Y tile)) tileCache)
        tileCache tiles !! key
  = tileCache !! key.
Proof.
  intros Hkey. induction tiles as [|tile tiles IH]; intros tileCache; simpl; [reflexivity|].
  rewrite IH. apply lookup_delete_ne, Hkey.
Qed.

Lemma cleanupCache_spares (range : gmap string Tile -> list (string * Tile))
    (sort_Slice : (Tile -> Tile -> bool) -> list Tile -> list Tile)
    (tileCache : gmap string Tile) (params : JuliaParams) (key : string) :
  (forall x y, getTileKey params x y <> key) ->
  cleanupCache range sort_Slice tileCache params !! key = tileCache !! key.
Proof.
  intros Hkey. unfold cleanupCache.
  destruct (MaxCacheSize <? _); [|reflexivity].
  now apply deletes_spare.
Qed.

Lemma tiles_along_exact (extent : Z) :
  0 <= extent <= 2 ^ 63 - TileSize ->
  tiles_along extent = (extent + TileSize - 1) / TileSize.
Proof.
  unfold TileSize. intros H.
  destruct (Z.eq_dec extent (2 ^ 63 - 256)) as [->|Hne]; [vm_compute; reflexivity|].
  unfold tiles_along, GoInt.div, GoInt.sub, GoInt.add, TileSize.
  rewrite (WholeFacts.wrap64_small (extent + 256)) by lia.
  rewrite (WholeFacts.wrap64_small (extent + 256 - 1)) by lia.
  rewrite Z.quot_div_nonneg by lia.
  apply WholeFacts.wrap64_small.
  pose proof (Z.div_pos (extent + 256 - 1) 256 ltac:(lia) ltac:(lia)).
  pose proof (Z.div_le_upper_bound (extent + 256 - 1) 256 (extent + 256 - 1)
                ltac:(lia) ltac:(lia)).
  lia.
Qed.

Lemma tiles_along_cover (extent v : Z) :
  0 <= extent <= 2 ^ 63 - TileSize ->
  (0 <= v < tiles_along extent <-> 0 <= v /\ v * TileSize < extent).
Proof.
  intros H. rewrite tiles_along_exact by assumption. unfold TileSize in *.
  pose proof (Z.mul_div_le (extent + 256 - 1) 256 ltac:(lia)).
  pose proof (Z.mul_succ_div_gt (extent + 256 - 1) 256 ltac:(lia)).
  split; intros Hv; (split; [lia|]); nia.
Qed.

Lemma tiles_along_nonpos (extent : Z) :
  - 2 ^ 63 <= extent <= 0 -> tiles_along extent <= 0.
Proof.
  intros H. unfold tiles_along, GoInt.div, GoInt.sub, GoInt.add, TileSize.
  rewrite (WholeFacts.wrap64_small (extent + 256)) by lia.
  rewrite (WholeFacts.wrap64_small (extent + 256 - 1)) by lia.
  destruct (Z.le_gt_cases 0 (extent + 256 - 1)) as [Hpos|Hneg].
  - rewrite Z.quot_small by lia. rewrite WholeFacts.wrap64_small; lia.
  - pose proof (Z.quot_opp_l (extent + 256 - 1) 256 ltac:(lia)) as Hq.
    pose proof (Z.quot_pos (- (extent + 256 - 1)) 256 ltac:(lia) ltac:(lia)) as Hq0.
    pose proof (Z.quot_le_upper_bound (- (extent + 256 - 1)) 256 (- (extent + 256 - 1))
                  ltac:(lia) ltac:(lia)) as Hq1.
    rewrite WholeFacts.wrap64_small; lia.
Qed.

Lemma elem_of_tile_grid (params : JuliaParams) (tx ty : Z) :
  (tx, ty) ∈ tile_grid params <->
  0 <= tx < tiles_along (Width params) /\ 0 <= ty < tiles_along (Height params).
Proof.
  unfold tile_grid. cbv zeta. rewrite list_elem_of_bind. split.
  - intros (y & Hin & Hy). apply list_elem_of_fmap in Hin as (x & Heq & Hx).
    injection Heq as -> ->. apply elem_of_seqZ in Hx, Hy. lia.
  - intros [Hx Hy]. exists ty. split; [|apply elem_of_seqZ; lia].
    apply list_elem_of_fmap. exists tx. split; [reflexivity | apply elem_of_seqZ; lia].
Qed.


(** Every entry sits under the key of its own tile for [params], as
    [generateJuliaSet] stores it. *)
Definition keyed_for (params : JuliaParams) (tileCache : gmap string Tile) : Prop :=
  forall key tile, tileCache !! key = Some tile ->
                   key = getTileKey params (X tile) (Y tile).

Section Trim.

Context (params : JuliaParams).

Let key (tile : Tile) : string := getTileKey params (X tile) (Y tile).
Let drop_tile (tileCache : gmap string Tile) (tile : Tile) : gmap string Tile :=
  delete (key tile) tileCache.

Lemma deletes_outside (tiles : list Tile) (k : string) :
  k ∉ key <$> tiles ->
  forall tileCache, foldl drop_tile tileCache tiles !! k = tileCache !! k.
Proof.
  induction tiles as [|tile tiles IH]; intros Hk tileCache; [reflexivity|].
  rewrite fmap_cons in Hk. apply not_elem_of_cons in Hk as [Hne Hk].
  simpl. rewrite IH by assumption. unfold drop_tile. now apply lookup_delete_ne.
Qed.

Lemma deletes_inside (tiles : list Tile) (k : string) :
  k ∈ key <$> tiles ->
  forall tileCache, foldl drop_tile tileCache tiles !! k = None.
Proof.
  induction tiles as [|tile tiles IH]; intros Hk tileCache.
  - now apply elem_of_nil in Hk.
  - simpl. destruct (decide (k ∈ key <$> tiles)) as [Hin|Hout]; [now apply IH|].
    rewrite deletes_outside by assumption.
    rewrite fmap_cons in Hk. apply elem_of_cons in Hk as [->|Hk]; [|contradiction].
    unfold drop_tile. apply lookup_delete_eq.
Qed.

Lemma deletes_size (tiles : list Tile) :
  NoDup (key <$> tiles) ->
  forall tileCache : gmap string Tile,
  (forall tile, tile ∈ tiles -> is_Some (tileCache !! key tile)) ->
  (size (foldl drop_tile tileCache tiles) + length tiles)%nat = size tileCache.
Proof.
  induction tiles as [|tile tiles IH]; intros Hnd tileCache Hall; [simpl; lia|].
  rewrite fmap_cons in Hnd. apply NoDup_cons in Hnd as [Hnotin Hnd].
  destruct (Hall tile ltac:(left)) as [t Ht].
  cbn [foldl length]. rewrite Nat.add_succ_r, IH.
  - unfold drop_tile. rewrite map_size_delete_Some by eauto.
    assert (size tileCache <> 0%nat).
    { intros Hz. apply map_size_empty_inv in Hz. subst. now rewrite lookup_empty in Ht. }
    lia.
  - assumption.
  - intros tile' Hin. unfold drop_tile. rewrite lookup_delete_ne.
    + apply Hall. now right.
    + intros Heq. apply Hnotin. rewrite Heq. apply list_elem_of_fmap. eauto.
Qed.

End Trim.

End LegacyServer.

Definition legacy_view : LegacyServer.JuliaParams :=
  LegacyServer.mkJuliaParams (mkComplex 0 0) (mkComplex 0 0) 1 1 10 300 200 0 0.

Definition legacy_view_deeper : LegacyServer.JuliaParams :=
  LegacyServer.mkJuliaParams (mkComplex 0 0) (mkComplex 0 0) 1 1 20 300 200 0 0.


(** X14. The cleanup of the earlier server never evicts a tile cached for
    other parameters.  [cleanupCache] rebuilds the keys to delete from the
    parameters of the request that triggered it, so a key built from
    parameters that differ in an integer field (iterations, width, height,
    pan, colouring) is never deleted, however old its tile and however the
    map is walked and sorted; a map holding only such keys comes back
    unchanged, whatever its size. *)
Theorem cleanupCache_spares_other_parameters :
  forall (params cached : LegacyServer.JuliaParams),
  LegacyServer.int_fields cached <> LegacyServer.int_fields params ->
  forall (range : gmap string LegacyServer.Tile -> list (string * LegacyServer.Tile))
         (sort_Slice : (LegacyServer.Tile -> LegacyServer.Tile -> bool) ->
                       list LegacyServer.Tile -> list LegacyServer.Tile)
         (tileCache : gmap string LegacyServer.Tile),
  (forall x y : Z,
     LegacyServer.cleanupCache range sort_Slice tileCache params
       !! LegacyServer.getTileKey cached x y
     = tileCache !! LegacyServer.getTileKey cached x y) /\
  ((forall key, is_Some (tileCache !! key) ->
      exists x y, key = LegacyServer.getTileKey cached x y) ->
   LegacyServer.cleanupCache range sort_Slice tileCache params = tileCache).
Proof.
  intros params cached Hne range sort_Slice tileCache.
  assert (Hkey : forall x y x' y',
             LegacyServer.getTileKey params x' y' <> LegacyServer.getTileKey cached x y).
  { intros x y x' y' Heq. apply LegacyServer.getTileKey_int_fields in Heq. congruence. }
  split.
  - intros x y. apply LegacyServer.cleanupCache_spares. intros x' y'. apply Hkey.
  - intros Hall. apply map_eq. intros key.
    destruct (tileCache !! key) as [tile|] eqn:Hlook.
    + destruct (Hall key ltac:(eauto)) as (x & y & ->).
      rewrite LegacyServer.cleanupCache_spares; [assumption|]. intros x' y'. apply Hkey.
    + unfold LegacyServer.cleanupCache.
      destruct (LegacyServer.MaxCacheSize <? _); [|assumption].
      generalize (take (Z.to_nat (Z.of_nat (length (sort_Slice LegacyServer.before
                   (range tileCache).*2)) - LegacyServer.MaxCacheSize))
                   (sort_Slice LegacyServer.before (range tileCache).*2)) as tiles.
      intros tiles. revert tileCache Hlook Hall.
      induction tiles as [|tile tiles IH]; intros tileCache Hlook Hall; simpl; [assumption|].
      apply IH.
      * rewrite lookup_delete_None. now right.
      * intros key' [t Ht]. apply lookup_delete_Some in Ht as [_ Ht]. apply Hall. eauto.
Qed.

Lemma cleanupCache_spares_other_parameters_witness :
  LegacyServer.int_fields legacy_view <> LegacyServer.int_fields legacy_view_deeper /\
  forall (range : gmap string LegacyServer.Tile -> list (string * LegacyServer.Tile))
         (sort_Slice : (LegacyServer.Tile -> LegacyServer.Tile -> bool) ->
                       list LegacyServer.Tile -> list LegacyServer.Tile)
         (tileCache : gmap string LegacyServer.Tile) (x y : Z),
    LegacyServer.cleanupCache range sort_Slice tileCache legacy_view_deeper
      !! LegacyServer.getTileKey legacy_view x y
    = tileCache !! LegacyServer.getTileKey legacy_view x y.
Proof.
  assert (H : LegacyServer.int_fields legacy_view
              <> LegacyServer.int_fields legacy_view_deeper) by discriminate.
  split; [exact H|].
  intros range sort_Slice tileCache.
  exact (proj1 (cleanupCache_spares_other_parameters legacy_view_deeper legacy_view H
                  range sort_Slice tileCache)).
Defined.

(** X15. The grid of the earlier server covers the canvas and no more.
    For sides that do not wrap when 255 is added, [generateJuliaSet] starts
    a goroutine for the tile [(tx, ty)] exactly when the tile's corner
    [(256*tx, 256*ty)] lies on the canvas, so every pixel of the canvas
    falls in the tile [(x / 256, y / 256)] of the grid; a canvas with a
    non-positive side gets no tile at all. *)
Theorem tile_grid_covers_the_canvas :
  forall params : LegacyServer.JuliaParams,
  LegacyServer.Width params <= 2 ^ 63 - 256 ->
  LegacyServer.Height params <= 2 ^ 63 - 256 ->
  - 2 ^ 63 <= LegacyServer.Width params -> - 2 ^ 63 <= LegacyServer.Height params ->
  (forall tx ty : Z,
     (tx, ty) ∈ LegacyServer.tile_grid params <->
     0 <= tx /\ 256 * tx < LegacyServer.Width params /\
     0 <= ty /\ 256 * ty < LegacyServer.Height params) /\
  (forall x y : Z,
     0 <= x < LegacyServer.Width params -> 0 <= y < LegacyServer.Height params ->
     (x / 256, y / 256) ∈ LegacyServer.tile_grid params) /\
  (LegacyServer.Width params <= 0 \/ LegacyServer.Height params <= 0 ->
   LegacyServer.tile_grid params = []).
Proof.
  intros params HW HH HW0 HH0.
  assert (Hgrid : forall tx ty : Z,
     (tx, ty) ∈ LegacyServer.tile_grid params <->
     0 <= tx /\ 256 * tx < LegacyServer.Width params /\
     0 <= ty /\ 256 * ty < LegacyServer.Height params).
  { intros tx ty. rewrite LegacyServer.elem_of_tile_grid.
    destruct (Z.le_gt_cases (LegacyServer.Width params) 0) as [Hw|Hw].
    { pose proof (LegacyServer.tiles_along_nonpos (LegacyServer.Width params) ltac:(lia)).
      lia. }
    destruct (Z.le_gt_cases (LegacyServer.Height params) 0) as [Hh|Hh].
    { pose proof (LegacyServer.tiles_along_nonpos (LegacyServer.Height params) ltac:(lia)).
      lia. }
    rewrite (LegacyServer.tiles_along_cover (LegacyServer.Width params) tx)
      by (unfold LegacyServer.TileSize; lia).
    rewrite (LegacyServer.tiles_along_cover (LegacyServer.Height params) ty)
      by (unfold LegacyServer.TileSize; lia).
    unfold LegacyServer.TileSize. lia. }
  split; [exact Hgrid|]. split.
  - intros x y Hx Hy. apply Hgrid.
    pose proof (Z.mul_div_le x 256 ltac:(lia)).
    pose proof (Z.mul_div_le y 256 ltac:(lia)).
    pose proof (Z.div_pos x 256 ltac:(lia) ltac:(lia)).
    pose proof (Z.div_pos y 256 ltac:(lia) ltac:(lia)).
    lia.
  - intros Hside.
    destruct (LegacyServer.tile_grid params) as [|[tx ty] rest]; [reflexivity|].
    assert (Hin : (tx, ty) ∈ (tx, ty) :: rest) by left.
    apply Hgrid in Hin. lia.
Qed.

Lemma tile_grid_covers_the_canvas_witness :
  LegacyServer.Width legacy_view <= 2 ^ 63 - 256 /\
  LegacyServer.Height legacy_view <= 2 ^ 63 - 256 /\
  - 2 ^ 63 <= LegacyServer.Width legacy_view /\
  - 2 ^ 63 <= LegacyServer.Height legacy_view /\
  (299 / 256, 199 / 256) ∈ LegacyServer.tile_grid legacy_view.
Proof.
  assert (H1 : LegacyServer.Width legacy_view <= 2 ^ 63 - 256) by (simpl; lia).
  assert (H2 : LegacyServer.Height legacy_view <= 2 ^ 63 - 256) by (simpl; lia).
  assert (H3 : - 2 ^ 63 <= LegacyServer.Width legacy_view) by (simpl; lia).
  assert (H4 : - 2 ^ 63 <= LegacyServer.Height legacy_view) by (simpl; lia).
  repeat (split; [assumption|]).
  apply (proj1 (proj2 (tile_grid_covers_the_canvas legacy_view H1 H2 H3 H4)));
    simpl; lia.
Defined.

(** X16. Within one set of parameters the cleanup trims the cache to
    [MaxCacheSize] tiles, least recently used first.  When every entry sits
    under the key of its own tile for the parameters of the request, and
    [sort.Slice] returns the tiles sorted by [LastUsed], the map
    [cleanupCache] leaves holds [min(size, MaxCacheSize)] entries, each one
    an entry of the map before, and no evicted tile was used later than a
    tile that stays. *)
Theorem cleanupCache_trims_to_the_bound :
  forall (range : gmap string LegacyServer.Tile -> list (string * LegacyServer.Tile))
         (sort_Slice : (LegacyServer.Tile -> LegacyServer.Tile -> bool) ->
                       list LegacyServer.Tile -> list LegacyServer.Tile)
         (tileCache : gmap string LegacyServer.Tile) (params : LegacyServer.JuliaParams),
  range tileCache ≡ₚ map_to_list tileCache ->
  sort_Slice_result LegacyServer.before (range tileCache).*2
                    (sort_Slice LegacyServer.before (range tileCache).*2) ->
  LegacyServer.keyed_for params tileCache ->
  let trimmed := LegacyServer.cleanupCache range sort_Slice tileCache params in
  Z.of_nat (size trimmed) = Z.min (Z.of_nat (size tileCache)) LegacyServer.MaxCacheSize /\
  trimmed ⊆ tileCache /\
  (forall key tile key' tile',
     tileCache !! key = Some tile -> trimmed !! key = None ->
     trimmed !! key' = Some tile' ->
     LegacyServer.LastUsed tile <= LegacyServer.LastUsed tile').
Proof.
  intros range sort_Slice tileCache params Hrange [Hperm Hsorted] Hkeyed trimmed.
  set (key := fun tile => LegacyServer.getTileKey params (LegacyServer.X tile)
                                                   (LegacyServer.Y tile)).
  set (tiles := (range tileCache).*2) in *.
  set (sorted := sort_Slice LegacyServer.before tiles) in *.
  assert (Hlen : length tiles = size tileCache).
  { unfold tiles. rewrite length_fmap, Hrange. apply length_map_to_list. }
  assert (Hmem : forall tile, tile ∈ sorted <-> tileCache !! key tile = Some tile).
  { intros tile. rewrite <- Hperm. unfold tiles. rewrite list_elem_of_fmap. split.
    - intros ([k t] & -> & Hin). rewrite Hrange in Hin.
      apply elem_of_map_to_list in Hin. simpl.
      unfold key. now rewrite <- (Hkeyed k t Hin).
    - intros Hlook. exists (key tile, tile). split; [reflexivity|].
      rewrite Hrange. now apply elem_of_map_to_list. }
  assert (Hinj : forall a b, a ∈ sorted -> b ∈ sorted -> key a = key b -> a = b).
  { intros a b Ha Hb Heq. apply Hmem in Ha, Hb. congruence. }
  assert (Hnd : NoDup sorted).
  { rewrite <- Hperm. unfold tiles.
    apply (NoDup_fmap_2_strong snd).
    - intros [k t] [k' t'] Hin Hin' Heq. simpl in Heq. subst t'.
      rewrite Hrange in Hin, Hin'. apply elem_of_map_to_list in Hin, Hin'.
      now rewrite (Hkeyed k t Hin), (Hkeyed k' t Hin').
    - rewrite Hrange. apply NoDup_map_to_list. }
  assert (Hndk : NoDup (key <$> sorted)).
  { apply NoDup_fmap_2_strong; assumption. }
  assert (Hss : StronglySorted (fun a b => LegacyServer.before b a = false) sorted).
  { apply Sorted_StronglySorted; [|exact Hsorted].
    intros a b c. unfold LegacyServer.before. rewrite !Z.ltb_ge. lia. }
  assert (Hlens : length sorted = size tileCache) by (now rewrite <- Hperm).
  unfold trimmed, LegacyServer.cleanupCache. fold tiles. fold sorted.
  rewrite Hlen, Hlens.
  destruct (Z.ltb_spec LegacyServer.MaxCacheSize (Z.of_nat (size tileCache))) as [Hbig|Hsmall].
  2:{ split; [lia|]. split; [reflexivity|]. intros key0 tile key' tile' H1 H2. congruence. }
  set (n := Z.to_nat (Z.of_nat (size tileCache) - LegacyServer.MaxCacheSize)).
  assert (Hn : (n <= length sorted)%nat) by (unfold LegacyServer.MaxCacheSize in *; lia).
  rewrite <- (take_drop n sorted) in Hndk, Hss.
  rewrite fmap_app in Hndk. apply NoDup_app in Hndk as (Hnd1 & Hdisj & Hnd2).
  apply StronglySorted_app in Hss as (Hcross & _ & _).
  change (foldl _ tileCache (take n sorted))
    with (foldl (fun tc tile => delete (key tile) tc) tileCache (take n sorted)).
  assert (Hparts : forall tile, tile ∈ sorted <->
                                tile ∈ take n sorted \/ tile ∈ drop n sorted).
  { intros tile. rewrite <- elem_of_app. now rewrite take_drop. }
  assert (Hlook : forall k,
             foldl (fun tc tile => delete (key tile) tc) tileCache (take n sorted) !! k
             = if decide (k ∈ key <$> take n sorted) then None else tileCache !! k).
  { intros k. destruct (decide (k ∈ key <$> take n sorted)) as [Hin|Hout].
    - now apply (LegacyServer.deletes_inside params).
    - now apply (LegacyServer.deletes_outside params). }
  split; [|split].
  - pose proof (LegacyServer.deletes_size params (take n sorted) Hnd1 tileCache) as Hsize.
    rewrite length_take in Hsize.
    assert (Hall : forall tile, tile ∈ take n sorted -> is_Some (tileCache !! key tile)).
    { intros tile Hin. exists tile. apply Hmem, Hparts. now left. }
    specialize (Hsize Hall). clear Hlook Hall Hparts Hcross Hdisj Hnd1 Hnd2 Hinj Hmem.
    subst n key. cbv beta in *. unfold LegacyServer.MaxCacheSize in *. lia.
  - apply map_subseteq_spec. intros k t. rewrite Hlook.
    now destruct (decide (k ∈ key <$> take n sorted)).
  - intros k t k' t' Ht Hgone Hstays.
    rewrite Hlook in Hgone, Hstays.
    destruct (decide (k ∈ key <$> take n sorted)) as [Hin|]; [|congruence].
    destruct (decide (k' ∈ key <$> take n sorted)) as [|Hout]; [discriminate|].
    apply list_elem_of_fmap in Hin as (d & -> & Hd).
    assert (d = t).
    { assert (Hd' : tileCache !! key d = Some d) by (apply Hmem, Hparts; now left).
      congruence. }
    subst d.
    pose proof (Hkeyed k' t' Hstays) as Hk'. fold (key t') in Hk'. subst k'.
    assert (Ht' : t' ∈ drop n sorted).
    { apply Hmem, Hparts in Hstays. destruct Hstays as [Hl|Hr]; [|assumption].
      exfalso. apply Hout. apply list_elem_of_fmap. eauto. }
    specialize (Hcross t t' Hd Ht'). unfold LegacyServer.before in Hcross.
    apply Z.ltb_ge in Hcross. exact Hcross.
Qed.

(** A cache of the earlier server that is over the bound: the tiles of one
    row of 1001 positions, number [i] last used at time [i], each under its
    own key for [legacy_view]; and a sort by [LastUsed]. *)
Definition crowded_tile (i : nat) : LegacyServer.Tile :=
  LegacyServer.mkTile (Z.of_nat i) 0 1 black_pixel (Z.of_nat i).

Definition crowded_entry (i : nat) : string * LegacyServer.Tile :=
  (LegacyServer.getTileKey legacy_view (Z.of_nat i) 0, crowded_tile i).

Definition crowded_cache : gmap string LegacyServer.Tile :=
  list_to_map (crowded_entry <$> seq 0 1001).

Definition sort_by (less : LegacyServer.Tile -> LegacyServer.Tile -> bool)
    (tiles : list LegacyServer.Tile) : list LegacyServer.Tile :=
  @merge_sort _ (fun a b => less b a = false)
              (fun a b => decide (less b a = false)) tiles.

Lemma ascii_list_of_append (a b : string) :
  list_ascii_of_string (a +:+ b) = list_ascii_of_string a ++ list_ascii_of_string b.
Proof. induction a as [|c a IH]; simpl; [reflexivity | now rewrite IH]. Qed.

Lemma append_inv_tail (a b s : string) : a +:+ s = b +:+ s -> a = b.
Proof.
  intros H. apply (f_equal list_ascii_of_string) in H.
  rewrite !ascii_list_of_append in H.
  apply app_inv_tail in H.
  apply (f_equal string_of_list_ascii) in H.
  now rewrite !string_of_list_ascii_of_string in H.
Qed.

Lemma row_coordinates_check :
  forallb (fun i => String.eqb (Fmt.fmt_f (F64.of_int (Z.of_nat i)))
                               (Fmt.fmt_d (Z.of_nat i) +:+ ".000000"))
          (seq 0 1001) = true.
Proof. vm_compute. reflexivity. Qed.

Lemma getTileKey_position (p p' : LegacyServer.JuliaParams) (x y x' y' : Z) :
  LegacyServer.getTileKey p x y = LegacyServer.getTileKey p' x' y' ->
  Fmt.fmt_f (F64.of_int x) = Fmt.fmt_f (F64.of_int x') /\
  Fmt.fmt_f (F64.of_int y) = Fmt.fmt_f (F64.of_int y').
Proof.
  unfold LegacyServer.getTileKey. intros H.
  apply FmtFacts.join_comma_inj in H; [|reflexivity| |];
    [|simpl; now rewrite !FmtFacts.fmt_f_no_comma, !FmtFacts.fmt_d_no_comma ..].
  injection H as _ _ _ _ _ _ _ _ _ _ _ Hx Hy. auto.
Qed.

Lemma crowded_keys : NoDup (crowded_entry <$> seq 0 1001).*1.
Proof.
  rewrite <- list_fmap_compose.
  apply NoDup_fmap_2_strong; [|apply NoDup_seq].
  intros i j Hi Hj Hij. unfold compose, crowded_entry in Hij. cbn [fst] in Hij.
  apply getTileKey_position in Hij as [Hx _].
  pose proof row_coordinates_check as Hall. rewrite forallb_forall in Hall.
  pose proof (Hall i ltac:(now apply list_elem_of_In)) as Hci.
  pose proof (Hall j ltac:(now apply list_elem_of_In)) as Hcj.
  apply String.eqb_eq in Hci, Hcj. rewrite Hci, Hcj in Hx.
  apply append_inv_tail, FmtFacts.fmt_d_inj in Hx. lia.
Qed.

Lemma crowded_size : size crowded_cache = 1001%nat.
Proof.
  unfold crowded_cache. rewrite map_size_list_to_map by apply crowded_keys.
  now rewrite length_fmap, length_seq.
Qed.

Lemma crowded_keyed : LegacyServer.keyed_for legacy_view crowded_cache.
Proof.
  intros key tile Hlook. apply elem_of_list_to_map_2 in Hlook.
  apply list_elem_of_fmap in Hlook as (i & Heq & _).
  injection Heq as -> ->. reflexivity.
Qed.

Lemma sort_by_sorts (tiles : list LegacyServer.Tile) :
  sort_Slice_result LegacyServer.before tiles (sort_by LegacyServer.before tiles).
Proof.
  unfold sort_by. split.
  - symmetry. apply merge_sort_Permutation.
  - apply Sorted_merge_sort.
    intros a b. unfold LegacyServer.before. rewrite !Z.ltb_ge. lia.
Qed.

Lemma cleanupCache_trims_to_the_bound_witness :
  size crowded_cache = 1001%nat /\
  map_to_list crowded_cache ≡ₚ map_to_list crowded_cache /\
  sort_Slice_result LegacyServer.before (map_to_list crowded_cache).*2
                    (sort_by LegacyServer.before (map_to_list crowded_cache).*2) /\
  LegacyServer.keyed_for legacy_view crowded_cache /\
  Z.of_nat (size (LegacyServer.cleanupCache map_to_list sort_by crowded_cache legacy_view))
  = 1000.
Proof.
  assert (H1 : map_to_list crowded_cache ≡ₚ map_to_list crowded_cache) by reflexivity.
  split; [exact crowded_size|]. split; [exact H1|].
  split; [apply sort_by_sorts|]. split; [exact crowded_keyed|].
  rewrite (proj1 (cleanupCache_trims_to_the_bound map_to_list sort_by
                    crowded_cache legacy_view H1 (sort_by_sorts _) crowded_keyed)).
  rewrite crowded_size. reflexivity.
Defined.

(* ===================================================================== *)
(** ** Reading back a well-formed tile entry *)

Module ScanFacts.

Import Scan.

Definition digits_of (d : Decimal.uint) : list ascii :=
  list_ascii_of_string (NilEmpty.string_of_uint d).

Lemma list_ascii_of_string_app (a b : string) :
  list_ascii_of_string (a +:+ b) = list_ascii_of_string a ++ list_ascii_of_string b.
Proof. induction a as [|c a IH]; simpl; [reflexivity | now rewrite IH]. Qed.

(** The token ends where the number runes end. *)
Definition ends_number (rest : list ascii) : Prop :=
  match rest with
  | [] => True
  | c :: _ => is_number_rune c = false
  end.

Lemma span_number_digits (d : Decimal.uint) (rest : list ascii) :
  ends_number rest -> span_number (digits_of d ++ rest) = (digits_of d, rest).
Proof.
  intros Hrest. unfold digits_of.
  induction d as [|d IH|d IH|d IH|d IH|d IH|d IH|d IH|d IH|d IH|d IH];
    cbn [NilEmpty.string_of_uint list_ascii_of_string app];
    try (cbn [span_number];
         match goal with
         | |- context [is_number_rune ?c] => change (is_number_rune c) with true
         end;
         cbv iota; now rewrite IH).
  destruct rest as [|c rest]; [reflexivity|].
  simpl in Hrest. cbn [span_number]. now rewrite Hrest.
Qed.

Lemma parse_digits_acc (d : Decimal.uint) :
  forall acc : positive,
  parse_digits (Z.pos acc) (digits_of d) = Some (Z.pos (Pos.of_uint_acc d acc)).
Proof.
  unfold digits_of.
  induction d as [|d IH|d IH|d IH|d IH|d IH|d IH|d IH|d IH|d IH|d IH]; intros acc;
    cbn [NilEmpty.string_of_uint list_ascii_of_string Pos.of_uint_acc];
    [reflexivity|..];
    cbn [parse_digits];
    match goal with
    | |- context [is_digit ?c] => change (is_digit c) with true
    end;
    cbv iota; rewrite <- IH; f_equal;
    match goal with
    | |- context [nat_of_ascii ?c] =>
        let v := eval vm_compute in (Z.of_nat (nat_of_ascii c)) in
        change (Z.of_nat (nat_of_ascii c)) with v
    end; lia.
Qed.

Lemma parse_digits_uint (d : Decimal.uint) :
  parse_digits 0 (digits_of d) = Some (Z.of_N (Pos.of_uint d)).
Proof.
  unfold digits_of.
  induction d as [|d IH|d IH|d IH|d IH|d IH|d IH|d IH|d IH|d IH|d IH];
    cbn [NilEmpty.string_of_uint list_ascii_of_string Pos.of_uint];
    [reflexivity|exact IH|..];
    cbn [parse_digits];
    match goal with
    | |- context [is_digit ?c] => change (is_digit c) with true
    end;
    cbv iota;
    match goal with
    | |- context [nat_of_ascii ?c] =>
        let v := eval vm_compute in (10 * 0 + (Z.of_nat (nat_of_ascii c) - 48)) in
        change (10 * 0 + (Z.of_nat (nat_of_ascii c) - 48)) with v
    end;
    apply (parse_digits_acc d).
Qed.

Lemma parse_digits_pos (p : positive) :
  parse_digits 0 (digits_of (Pos.to_uint p)) = Some (Z.pos p).
Proof. now rewrite parse_digits_uint, DecimalPos.Unsigned.of_to. Qed.

Lemma digits_of_nonnil (d : Decimal.uint) : d <> Decimal.Nil -> digits_of d <> [].
Proof. destruct d; (congruence || discriminate). Qed.

(** No white space is skipped before a digit or a minus sign. *)
Lemma SkipSpace_plain (c : ascii) (s : list ascii) :
  is_digit c || byte_is c 45 = true ->
  SkipSpace (length (c :: s)) (c :: s) = Some (c :: s).
Proof.
  intros Hc. cbn [length SkipSpace].
  destruct c as [[] [] [] [] [] [] [] []]; try discriminate Hc; reflexivity.
Qed.

Lemma digits_of_head (d : Decimal.uint) :
  d <> Decimal.Nil ->
  exists c tl, digits_of d = c :: tl /\ is_digit c = true.
Proof.
  destruct d; [congruence|..]; intros _; eexists _, _; (split; [reflexivity|reflexivity]).
Qed.

Lemma scanInt_digits (d : Decimal.uint) (rest : list ascii) :
  d <> Decimal.Nil -> ends_number rest ->
  scanInt (digits_of d ++ rest)
  = un ← parse_digits 0 (digits_of d);
    (if un <? 2 ^ 63 then Some (un, rest) else None).
Proof.
  intros Hd Hrest. destruct (digits_of_head d Hd) as (c & tl & Heq & Hc).
  unfold scanInt. rewrite Heq. cbn [app].
  rewrite SkipSpace_plain by (now rewrite Hc). cbn [mbind option_bind].
  assert (Hsign : is_sign c = false).
  { revert Hc. destruct c as [[] [] [] [] [] [] [] []]; try discriminate; reflexivity. }
  rewrite Hsign.
  change (c :: tl ++ rest) with ((c :: tl) ++ rest). rewrite <- Heq.
  rewrite span_number_digits by assumption.
  rewrite Heq. reflexivity.
Qed.

Lemma scanInt_minus_digits (d : Decimal.uint) (rest : list ascii) :
  d <> Decimal.Nil -> ends_number rest ->
  scanInt ("-"%char :: digits_of d ++ rest)
  = un ← parse_digits 0 (digits_of d);
    (if un <=? 2 ^ 63 then Some (- un, rest) else None).
Proof.
  intros Hd Hrest. destruct (digits_of_head d Hd) as (c & tl & Heq & Hc).
  unfold scanInt.
  rewrite SkipSpace_plain by reflexivity. cbn [mbind option_bind].
  change (is_sign "-") with true. change (byte_is "-" 45) with true. cbv iota.
  rewrite span_number_digits by assumption.
  rewrite Heq. reflexivity.
Qed.

(** [scanInt] reads back what [%d] prints, and stops where the digits
    stop. *)
Lemma scanInt_fmt_d (x : Z) (rest : list ascii) :
  - 2 ^ 63 <= x < 2 ^ 63 -> ends_number rest ->
  scanInt (list_ascii_of_string (Fmt.fmt_d x) ++ rest) = Some (x, rest).
Proof.
  intros Hx Hrest. unfold Fmt.fmt_d.
  destruct x as [|p|p].
  - assert (Hstr : list_ascii_of_string (NilZero.string_of_int (Z.to_int 0))
                   = digits_of (Decimal.D0 Decimal.Nil)) by reflexivity.
    rewrite Hstr, scanInt_digits by (assumption || discriminate). reflexivity.
  - pose proof (DecimalPos.Unsigned.to_uint_nonnil p) as Hnn.
    assert (Hstr : list_ascii_of_string (NilZero.string_of_int (Z.to_int (Z.pos p)))
                   = digits_of (Pos.to_uint p)).
    { unfold Z.to_int, NilZero.string_of_int, NilZero.string_of_uint, digits_of.
      now destruct (Pos.to_uint p). }
    rewrite Hstr, scanInt_digits, parse_digits_pos by assumption.
    cbn [mbind option_bind].
    destruct (Z.ltb_spec (Z.pos p) (2 ^ 63)); [reflexivity | lia].
  - pose proof (DecimalPos.Unsigned.to_uint_nonnil p) as Hnn.
    assert (Hstr : list_ascii_of_string (NilZero.string_of_int (Z.to_int (Z.neg p)))
                   = "-"%char :: digits_of (Pos.to_uint p)).
    { unfold Z.to_int, NilZero.string_of_int, NilZero.string_of_uint, digits_of.
      now destruct (Pos.to_uint p). }
    rewrite Hstr. cbn [app].
    rewrite scanInt_minus_digits, parse_digits_pos by assumption.
    cbn [mbind option_bind].
    destruct (Z.leb_spec (Z.pos p) (2 ^ 63)); [reflexivity | lia].
Qed.

End ScanFacts.

(** X17. A well-formed tile entry is read back exactly: for two [int]
    values [x] and [y], the string made of the decimal notation of [x], a
    comma and the decimal notation of [y] (what [%d,%d] prints) is parsed
    by the handler into the request for the tile at [(x, y)] with the lod of
    the parameters, negative coordinates and the extreme values of [int]
    included. *)
Theorem parse_tile_reads_back_coordinates :
  forall (params : JuliaParams) (x y : Z),
  - 2 ^ 63 <= x < 2 ^ 63 -> - 2 ^ 63 <= y < 2 ^ 63 ->
  parse_tile params (Fmt.fmt_d x +:+ "," +:+ Fmt.fmt_d y)
  = mkTileRequest x y (LOD params).
Proof.
  intros params x y Hx Hy. unfold parse_tile, Scan.Sscanf_d_d.
  rewrite !ScanFacts.list_ascii_of_string_app.
  rewrite ScanFacts.scanInt_fmt_d by (assumption || reflexivity).
  cbn [list_ascii_of_string app]. change (Scan.byte_is "," 44) with true. cbv iota.
  rewrite <- (app_nil_r (list_ascii_of_string (Fmt.fmt_d y))).
  rewrite ScanFacts.scanInt_fmt_d by (assumption || exact I).
  reflexivity.
Qed.

Lemma parse_tile_reads_back_coordinates_witness :
  - 2 ^ 63 <= 256 < 2 ^ 63 /\ - 2 ^ 63 <= -128 < 2 ^ 63 /\
  forall params : JuliaParams,
    parse_tile params (Fmt.fmt_d 256 +:+ "," +:+ Fmt.fmt_d (-128))
    = mkTileRequest 256 (-128) (LOD params).
Proof.
  assert (H1 : - 2 ^ 63 <= 256 < 2 ^ 63) by lia.
  assert (H2 : - 2 ^ 63 <= -128 < 2 ^ 63) by lia.
  repeat (split; [assumption|]).
  intros params. exact (parse_tile_reads_back_coordinates params 256 (-128) H1 H2).
Defined.

(* ===================================================================== *)
(** ** A request that starts beyond the canvas *)

Module BeyondFacts.

Import SFFacts.

(** The conversion of a negative integer of less than 53 bits. *)
Lemma of_int_negative (v : Z) :
  0 < v < 2 ^ 53 ->
  exists (m : positive) (e : Z),
    Prim2SF (F64.of_int (- v)) = S754_finite true m e /\
    -1074 <= e <= 0 /\ Z.pos m = v * 2 ^ (- e).
Proof.
  intros Hv. unfold F64.of_int.
  destruct (Z.ltb_spec (- v) 0); [|lia].
  destruct (Z.eqb_spec (- v) (- 2 ^ 63)); [lia|].
  rewrite Z.opp_involutive, opp_spec.
  pose proof (ExactInt.of_int_holds v Hv) as (m & e & Heq & _ & He & Hm).
  unfold F64.of_int in Heq. destruct (Z.ltb_spec v 0); [lia|].
  rewrite Heq. exists m, e. auto.
Qed.

(** [int(math.Min(float64(TileSize), float64(v)))] for a negative [v]. *)
Lemma int_Min_TileSize_negative (v : Z) :
  - 2 ^ 53 < v < 0 ->
  F64.to_int (F64.Min (F64.of_int TileSize) (F64.of_int v)) = v.
Proof.
  intros Hv. replace v with (- - v) by lia.
  destruct (of_int_negative (- v) ltac:(lia)) as (m & e & Heq & He & Hm).
  assert (Hmin : F64.Min (F64.of_int TileSize) (F64.of_int (- - v)) = F64.of_int (- - v)).
  { unfold F64.Min, F64.IsInf, F64.IsNaN.
    rewrite !FloatAxioms.eqb_spec, ltb_spec, F64Facts.Prim2SF_TileSize, Heq.
    change (Prim2SF neg_infinity) with (S754_infinity true).
    change (Prim2SF 0) with (S754_zero false).
    unfold SFeqb, SFltb, SFcompare.
    rewrite !Z.compare_refl, !Pos.compare_cont_refl. reflexivity. }
  rewrite Hmin. unfold F64.to_int. rewrite Heq. cbn [F64.trunc_SF].
  assert (Ha : match e with
               | Z.neg q => Z.pos m / 2 ^ Z.pos q
               | _ => Z.pos m * 2 ^ e
               end = - v).
  { destruct e as [|q|q]; try lia.
    rewrite Hm. change (- Z.neg q) with (Z.pos q).
    apply Z.div_mul. apply Z.pow_nonzero; lia. }
  rewrite Ha.
  destruct (Z.leb_spec (- 2 ^ 63) (- - v)), (Z.ltb_spec (- - v) (2 ^ 63)); simpl; lia.
Qed.

(** Beyond the edge the extent of a tile is the negative distance to the
    edge. *)
Lemma tile_extent_beyond (extent origin : Z) :
  - 2 ^ 53 < extent - origin < 0 ->
  tile_extent extent origin = extent - origin.
Proof.
  intros H. unfold tile_extent, GoInt.sub.
  rewrite WholeFacts.wrap64_small by lia.
  now apply int_Min_TileSize_negative.
Qed.

(** With a side that is not positive the loops of [generateJuliaTile] set
    no pixel. *)
Lemma tile_image_unpainted (M : MathLib) (params : JuliaParams)
    (tileX tileY tileWidth tileHeight : Z) (offset : Offset) :
  tileWidth <= 0 \/ tileHeight <= 0 ->
  tile_image M params tileX tileY tileWidth tileHeight offset
  = NewRGBA (image_Rect 0 0 tileWidth tileHeight).
Proof.
  intros Hside. unfold tile_image. rewrite render_rows_paint.
  replace (grid_points tileWidth tileHeight) with (@nil (Z * Z)); [reflexivity|].
  symmetry. destruct (grid_points tileWidth tileHeight) as [|[x y] rest] eqn:Heq;
    [reflexivity|].
  assert (Hin : (x, y) ∈ grid_points tileWidth tileHeight) by (rewrite Heq; left).
  apply elem_of_grid_points in Hin. lia.
Qed.

End BeyondFacts.

(** X18. A request for a tile that starts beyond the right edge of the
    canvas is not refused.  For [x] past the width (by less than 2^32) and
    [y] inside the canvas, the width computed for the tile is the negative
    number [Width - x]; [image.Rect] turns the corners round, so the image
    is a rectangle of [x - Width] by [height] pixels in which the loops set
    nothing; [png.Encode] accepts it, and the tile that is sent carries the
    negative width and the encoding of that fully transparent image. *)
Theorem request_beyond_the_right_edge_gets_a_blank_tile :
  forall (params : JuliaParams) (x y : Z),
  0 < x - Width params < 2 ^ 32 ->
  0 <= y < Height params -> Height params < 2 ^ 63 ->
  forall (M : MathLib) (codec : RGBAImage -> list byte) (now lod : Z) (offset : Offset),
  let tileWidth := tile_extent (Width params) x in
  let tileHeight := tile_extent (Height params) y in
  let blank :=
    mkRGBAImage (replicate (Z.to_nat (4 * (x - Width params) * tileHeight)) 0)
                (4 * (x - Width params))
                (mkRectangle (Width params - x) 0 0 tileHeight) in
  tileWidth = Width params - x /\
  tileHeight = Z.min TileSize (Height params - y) /\
  tile_image M params x y tileWidth tileHeight offset = blank /\
  generateJuliaTile M codec now params x y tileWidth tileHeight lod offset
  = mkTile x y tileWidth tileHeight lod (codec blank) now.
Proof.
  intros params x y Hx Hy HH M codec now lod offset tileWidth tileHeight blank.
  assert (Hw : tileWidth = Width params - x)
    by (apply BeyondFacts.tile_extent_beyond; lia).
  assert (Hh : tileHeight = Z.min TileSize (Height params - y))
    by (apply tile_extent_clipped; lia).
  assert (Hh' : 0 < tileHeight <= 128) by (rewrite Hh; unfold TileSize; lia).
  assert (Himg : tile_image M params x y tileWidth tileHeight offset = blank).
  { rewrite BeyondFacts.tile_image_unpainted by lia.
    unfold blank, NewRGBA, image_Rect.
    destruct (Z.ltb_spec tileWidth 0); [|lia].
    destruct (Z.ltb_spec tileHeight 0); [lia|].
    unfold Dx, Dy. cbn [MinX MinY MaxX MaxY]. rewrite Hw.
    f_equal; [f_equal; f_equal; lia | lia]. }
  repeat split; try assumption.
  unfold generateJuliaTile. rewrite Himg.
  unfold png_Encode, blank, Dx, Dy. cbn [Rect MinX MinY MaxX MaxY].
  destruct (Z.leb_spec (0 - (Width params - x)) 0); [lia|].
  destruct (Z.leb_spec (tileHeight - 0) 0); [lia|].
  destruct (Z.leb_spec (2 ^ 32) (0 - (Width params - x))); [lia|].
  destruct (Z.leb_spec (2 ^ 32) (tileHeight - 0)); [lia|].
  reflexivity.
Qed.

Lemma request_beyond_the_right_edge_gets_a_blank_tile_witness :
  0 < 344 - Width canvas_300x200 < 2 ^ 32 /\
  0 <= 128 < Height canvas_300x200 /\ Height canvas_300x200 < 2 ^ 63 /\
  tile_extent (Width canvas_300x200) 344 = -44 /\
  forall (M : MathLib) (codec : RGBAImage -> list byte) (now lod : Z) (offset : Offset),
    generateJuliaTile M codec now canvas_300x200 344 128
      (tile_extent (Width canvas_300x200) 344) (tile_extent (Height canvas_300x200) 128)
      lod offset
    = mkTile 344 128 (-44) 72 lod
        (codec (mkRGBAImage (replicate (Z.to_nat (4 * 44 * 72)) 0) (4 * 44)
                            (mkRectangle (-44) 0 0 72)))
        now.
Proof.
  assert (H1 : 0 < 344 - Width canvas_300x200 < 2 ^ 32) by (simpl; lia).
  assert (H2 : 0 <= 128 < Height canvas_300x200) by (simpl; lia).
  assert (H3 : Height canvas_300x200 < 2 ^ 63) by (simpl; lia).
  repeat (split; [assumption|]).
  split; [vm_compute; reflexivity|].
  intros M codec now lod offset.
  destruct (request_beyond_the_right_edge_gets_a_blank_tile canvas_300x200 344 128 H1 H2 H3
              M codec now lod offset) as (_ & _ & _ & Htile).
  rewrite Htile.
  replace (tile_extent (Width canvas_300x200) 344) with (-44) by (vm_compute; reflexivity).
  replace (tile_extent (Height canvas_300x200) 128) with 72 by (vm_compute; reflexivity).
  reflexivity.
Defined.


(* ===================================================================== *)
(** ** Squared distances that float64 holds exactly *)

Module ExactDist.

Import SFFacts ExactInt.

(** Shifting out zeros loses nothing. *)
Lemma iter_shr_1_exact (n : positive) :
  forall c : Z, 0 <= c ->
  SpecFloat.iter_pos shr_1 n (Build_shr_record (c * 2 ^ Z.pos n) false false)
  = Build_shr_record c false false.
Proof.
  assert (Hone : forall c : Z, 0 <= c ->
            shr_1 (Build_shr_record (c * 2) false false) = Build_shr_record c false false).
  { intros [|p|p] Hc; try lia; [reflexivity|].
    replace (Z.pos p * 2) with (Z.pos p~0) by lia. reflexivity. }
  assert (Hpow : forall k : positive, 0 < 2 ^ Z.pos k)
    by (intros k; apply Z.pow_pos_nonneg; lia).
  induction n as [n IH|n IH|]; intros c Hc; cbn [SpecFloat.iter_pos].
  - replace (c * 2 ^ Z.pos n~1) with (c * 2 ^ Z.pos n * 2 ^ Z.pos n * 2).
    + pose proof (Hpow n).
      rewrite Hone by nia. rewrite IH by nia. now apply IH.
    + replace (Z.pos n~1) with (Z.succ (Z.pos n + Z.pos n)) by lia.
      rewrite Z.pow_succ_r, Z.pow_add_r by lia. lia.
  - replace (c * 2 ^ Z.pos n~0) with (c * 2 ^ Z.pos n * 2 ^ Z.pos n).
    + pose proof (Hpow n). rewrite IH by nia. now apply IH.
    + replace (Z.pos n~0) with (Z.pos n + Z.pos n) by lia.
      rewrite Z.pow_add_r by lia. lia.
  - change (2 ^ 1) with 2. now apply Hone.
Qed.

(** A full mantissa followed by [n] zeros is rounded to itself. *)
Lemma binary_round_aux_zeros (s : bool) (c n : positive) (e : Z) :
  Z.pos (digits2_pos c) = 53 -> -1074 <= e -> e + Z.pos n <= 971 ->
  binary_round_aux prec emax s (Z.pos (Pos.iter xO c n)) e loc_Exact
  = S754_finite s c (e + Z.pos n).
Proof.
  intros Hd He Hmax.
  assert (Hshr : shr_fexp prec emax (Z.pos (Pos.iter xO c n)) e loc_Exact
                 = (Build_shr_record (Z.pos c) false false, e + Z.pos n)).
  { unfold shr_fexp, Zdigits2. rewrite iter_xO_digits, Hd, fexp_eq.
    replace (Z.max (53 + Z.pos n + e - 53) (-1074) - e) with (Z.pos n) by lia.
    cbn [shr shr_record_of_loc]. rewrite iter_xO_value.
    now rewrite iter_shr_1_exact by lia. }
  unfold binary_round_aux. rewrite Hshr.
  change (round_nearest_even _ _) with (Z.pos c).
  assert (Hshr2 : shr_fexp prec emax (Z.pos c) (e + Z.pos n) loc_Exact
                  = (Build_shr_record (Z.pos c) false false, e + Z.pos n)).
  { unfold shr_fexp, Zdigits2. rewrite Hd, fexp_eq.
    replace (Z.max (53 + (e + Z.pos n) - 53) (-1074) - (e + Z.pos n)) with 0 by lia.
    reflexivity. }
  rewrite Hshr2. cbn [shr_m].
  destruct (Z.leb_spec (e + Z.pos n) (emax - prec)) as [|Hgt]; [reflexivity|].
  change (emax - prec) with 971 in Hgt. lia.
Qed.

(** An integer below 2^53 written with a mantissa [t * 2^j] and the exponent
    [-j] is rounded to the float that holds it. *)
Lemma binary_round_aux_int (t S : positive) (j : Z) :
  Z.pos t < 2 ^ 53 -> 0 <= j <= 1074 ->
  Z.pos S = Z.pos t * 2 ^ j ->
  53 <= Z.pos (digits2_pos t) + j ->
  holds (Z.pos t) (binary_round_aux prec emax false (Z.pos S) (- j) loc_Exact).
Proof.
  intros Ht Hj HS Hfull. pose proof (digits_le_53 t Ht) as Hdt.
  pose proof (Pos2Z.is_pos (digits2_pos t)) as Hd0.
  set (u := 53 - Z.pos (digits2_pos t)) in *.
  assert (Hu : 0 <= u <= 52) by (unfold u; lia).
  assert (Hc : exists c : positive,
             Z.pos c = Z.pos t * 2 ^ u /\ Z.pos (digits2_pos c) = 53).
  { destruct u as [|pu|pu] eqn:Hueq; try lia.
    - exists t. split; [lia|]. unfold u in Hueq. lia.
    - exists (Pos.iter xO t pu). rewrite iter_xO_value, iter_xO_digits.
      split; [reflexivity|]. unfold u in Hueq. lia. }
  destruct Hc as (c & Hcv & Hcd).
  assert (Hsplit : 2 ^ j = 2 ^ u * 2 ^ (j - u)).
  { rewrite <- Z.pow_add_r by lia. f_equal. lia. }
  destruct (j - u) as [|n|n] eqn:Hn; try lia.
  - assert (S = c) by (apply Pos2Z.inj; rewrite HS, Hcv, Hsplit; change (2 ^ 0) with 1; lia).
    subst S. rewrite binary_round_aux_canonical by lia.
    exists c, (- j). repeat split; try lia.
    rewrite Hcv. do 2 f_equal. lia.
  - assert (S = Pos.iter xO c n)
      by (apply Pos2Z.inj; rewrite iter_xO_value, HS, Hcv, Hsplit; lia).
    subst S. rewrite binary_round_aux_zeros by lia.
    exists c, (- j + Z.pos n). repeat split; try lia.
    rewrite Hcv. do 2 f_equal. lia.
Qed.

Lemma digits_shift (t S : positive) (j : Z) :
  0 <= j -> Z.pos S = Z.pos t * 2 ^ j ->
  Z.pos (digits2_pos S) = Z.pos (digits2_pos t) + j.
Proof.
  intros Hj HS. destruct j as [|k|k]; try lia.
  - change (2 ^ 0) with 1 in HS. assert (S = t) by lia. subst. lia.
  - assert (S = Pos.iter xO t k) by (apply Pos2Z.inj; rewrite iter_xO_value; lia).
    subst S. apply iter_xO_digits.
Qed.

(** What a float holds: the integer [v >= 0], exactly. *)
Definition exact (v : Z) (x : spec_float) : Prop :=
  (v = 0 /\ x = S754_zero false) \/ holds v x.

Lemma holds_digits (v : Z) (m : positive) (e : Z) :
  Z.pos (digits2_pos m) = 53 -> -1074 <= e <= 0 -> Z.pos m = v * 2 ^ (- e) ->
  exists t : positive, v = Z.pos t /\ Z.pos (digits2_pos t) + (- e) = 53.
Proof.
  intros Hd He Hm.
  assert (Hp : 0 < 2 ^ (- e)) by (apply Z.pow_pos_nonneg; lia).
  destruct v as [|t|t]; try nia.
  exists t. split; [reflexivity|].
  destruct (- e) as [|k|k] eqn:Hk; try lia.
  - change (2 ^ 0) with 1 in Hm. assert (m = t) by lia. subst. lia.
  - assert (m = Pos.iter xO t k) by (apply Pos2Z.inj; rewrite iter_xO_value; lia).
    subst m. rewrite iter_xO_digits in Hd. lia.
Qed.

(** The square of a converted integer of less than 26 bits. *)
Lemma square_exact (s : bool) (v : Z) (m : positive) (e : Z) :
  0 < v < 2 ^ 26 ->
  Z.pos (digits2_pos m) = 53 -> -1074 <= e <= 0 -> Z.pos m = v * 2 ^ (- e) ->
  holds (v * v) (SFmul prec emax (S754_finite s m e) (S754_finite s m e)).
Proof.
  intros Hv Hd He Hm.
  destruct (holds_digits v m e Hd He Hm) as (t & -> & Hdt).
  cbn [SFmul]. replace (xorb s s) with false by (now destruct s).
  replace (e + e) with (- (- e + - e)) by lia.
  change (Z.pos t * Z.pos t) with (Z.pos (t * t)).
  pose proof (digits2_pos_bounds t) as [Htlo Hthi].
  pose proof (digits2_pos_bounds (t * t)) as [Hlo Hhi].
  pose proof (Pos2Z.is_pos (digits2_pos t)) as Hd0.
  assert (Hp : 0 < 2 ^ (- e)) by (apply Z.pow_pos_nonneg; lia).
  assert (Hdt26 : Z.pos (digits2_pos t) <= 26).
  { destruct (Z.le_gt_cases (Z.pos (digits2_pos t)) 26) as [|Hgt]; [assumption|].
    assert (2 ^ 26 <= 2 ^ (Z.pos (digits2_pos t) - 1)) by (apply Z.pow_le_mono_r; lia).
    lia. }
  apply binary_round_aux_int.
  - rewrite Pos2Z.inj_mul. nia.
  - lia.
  - rewrite Z.pow_add_r by lia. rewrite !Pos2Z.inj_mul, Hm. lia.
  - pose proof (Pos2Z.is_pos (digits2_pos (t * t))). lia.
Qed.

Lemma Pow2_of_int_exact (d : Z) :
  - 2 ^ 26 < d < 2 ^ 26 ->
  exact (d * d) (Prim2SF (F64.Pow2 (F64.of_int d))).
Proof.
  intros Hd. unfold F64.Pow2. rewrite mul_spec.
  destruct (Z.lt_trichotomy d 0) as [Hneg|[->|Hpos]].
  - right. replace d with (- - d) at 3 4 by lia.
    destruct (BeyondFacts.of_int_negative (- d) ltac:(lia)) as (m & e & Heq & He & Hm).
    rewrite Heq. replace (d * d) with (- d * - d) by lia.
    destruct (of_int_holds (- d) ltac:(lia)) as (m' & e' & Heq' & Hd' & _).
    assert (Hdm : Z.pos (digits2_pos m) = 53).
    { unfold F64.of_int in Heq, Heq'.
      destruct (Z.ltb_spec (- - d) 0); [|lia].
      destruct (Z.eqb_spec (- - d) (- 2 ^ 63)); [lia|].
      destruct (Z.ltb_spec (- d) 0); [lia|].
      rewrite opp_spec, Z.opp_involutive, Heq' in Heq. injection Heq as <- _. exact Hd'. }
    apply square_exact; (assumption || lia).
  - left. split; reflexivity.
  - right. destruct (of_int_holds d ltac:(lia)) as (m & e & Heq & Hdm & He & Hm).
    rewrite Heq. apply square_exact; (assumption || lia).
Qed.

(** The sum of two floats that hold integers, when it stays below 2^53. *)
Lemma add_exact (a b : Z) (x y : spec_float) :
  exact a x -> exact b y -> a + b < 2 ^ 53 -> exact (a + b) (SFadd prec emax x y).
Proof.
  intros [[-> ->]|Hx] [[-> ->]|Hy] Hsum.
  - left. split; reflexivity.
  - right. destruct Hy as (m & e & -> & H). simpl. exists m, e. auto.
  - right. rewrite Z.add_0_r. destruct Hx as (m & e & -> & H). simpl. exists m, e. auto.
  - right. pose proof (holds_range _ _ Hx) as Ha. pose proof (holds_range _ _ Hy) as Hb.
    destruct Hx as (m1 & e1 & -> & Hd1 & He1 & Hm1).
    destruct Hy as (m2 & e2 & -> & Hd2 & He2 & Hm2).
    destruct (holds_digits a m1 e1 Hd1 He1 Hm1) as (t1 & -> & Hdt1).
    destruct (holds_digits b m2 e2 Hd2 He2 Hm2) as (t2 & -> & Hdt2).
    cbn [SFadd cond_Zopp].
    set (ez := Z.min e1 e2).
    assert (Hal : forall (m : positive) (e : Z) (t : positive),
               ez <= e <= 0 -> Z.pos m = Z.pos t * 2 ^ (- e) ->
               Z.pos (shl_align m e ez).1 = Z.pos t * 2 ^ (- ez)).
    { intros m e t Hle Hm. unfold shl_align.
      assert (Hsp : 2 ^ (- ez) = 2 ^ (- e) * 2 ^ (e - ez)).
      { rewrite <- Z.pow_add_r by lia. f_equal. lia. }
      destruct (ez - e) as [|k|k] eqn:Hk; try lia; cbn [fst].
      - replace (e - ez) with 0 in Hsp by lia. change (2 ^ 0) with 1 in Hsp. lia.
      - rewrite iter_xO_value, Hm, Hsp. replace (e - ez) with (Z.pos k) by lia. lia. }
    rewrite (Hal m1 e1 t1) by (assumption || (unfold ez; lia)).
    rewrite (Hal m2 e2 t2) by (assumption || (unfold ez; lia)).
    assert (Hp : 0 < 2 ^ (- ez)) by (apply Z.pow_pos_nonneg; unfold ez; lia).
    assert (Hpos : 0 < Z.pos t1 * 2 ^ (- ez) + Z.pos t2 * 2 ^ (- ez)) by nia.
    destruct (Z.pos t1 * 2 ^ (- ez) + Z.pos t2 * 2 ^ (- ez)) as [|S|S] eqn:HS; try lia.
    cbn [binary_normalize]. unfold binary_round.
    change (Z.pos t1 + Z.pos t2) with (Z.pos (t1 + t2)) in *.
    assert (HSv : Z.pos S = Z.pos (t1 + t2) * 2 ^ (- ez)) by (rewrite Pos2Z.inj_add; lia).
    assert (HdS : Z.pos (digits2_pos S) = Z.pos (digits2_pos (t1 + t2)) + (- ez))
      by (apply digits_shift; [unfold ez; lia | exact HSv]).
    assert (Hfull : 53 <= Z.pos (digits2_pos (t1 + t2)) + (- ez)).
    { pose proof (digits2_pos_bounds (t1 + t2)) as [_ Hhi].
      pose proof (digits2_pos_bounds t1) as [Hlo1 _].
      pose proof (digits2_pos_bounds t2) as [Hlo2 _].
      destruct (Z.le_gt_cases 53 (Z.pos (digits2_pos (t1 + t2)) + - ez)) as [|Hlt];
        [assumption|exfalso].
      assert (Hdd : Z.pos (digits2_pos (t1 + t2)) <= Z.max (Z.pos (digits2_pos t1))
                                                         (Z.pos (digits2_pos t2)) - 1)
        by (unfold ez in *; lia).
      assert (Hpw : 2 ^ Z.pos (digits2_pos (t1 + t2))
                    <= 2 ^ (Z.max (Z.pos (digits2_pos t1)) (Z.pos (digits2_pos t2)) - 1))
        by (apply Z.pow_le_mono_r; lia).
      rewrite Pos2Z.inj_add in Hhi.
      destruct (Z.max_spec (Z.pos (digits2_pos t1)) (Z.pos (digits2_pos t2)))
        as [[_ Hmx]|[_ Hmx]]; rewrite Hmx in Hpw; lia. }
    unfold shl_align. rewrite fexp_eq, HdS.
    destruct (Z.max (Z.pos (digits2_pos (t1 + t2)) + - ez + ez - 53) (-1074) - ez)
      as [|k|k] eqn:Hk; try (unfold ez in *; lia).
    + replace ez with (- (- ez)) at 1 by lia.
      apply binary_round_aux_int; try assumption; unfold ez in *; lia.
    + replace ez with (- (- ez)) at 1 by lia.
      apply binary_round_aux_int; try assumption; unfold ez in *; lia.
Qed.

Lemma holds_unique (v : Z) (x y : spec_float) : holds v x -> holds v y -> x = y.
Proof.
  intros Hx Hy. pose proof (holds_range _ _ Hx) as Hv.
  destruct Hx as (m1 & e1 & -> & Hd1 & He1 & Hm1).
  destruct Hy as (m2 & e2 & -> & Hd2 & He2 & Hm2).
  destruct (holds_digits v m1 e1 Hd1 He1 Hm1) as (t1 & -> & Hdt1).
  destruct (holds_digits (Z.pos t1) m2 e2 Hd2 He2 Hm2) as (t2 & Heq & Hdt2).
  injection Heq as <-.
  assert (e1 = e2) by lia. subst e2.
  assert (m1 = m2) by lia. now subst.
Qed.

(** Floats that hold integers compare as the integers do. *)
Lemma exact_ltb (a b : Z) (x y : spec_float) :
  exact a x -> exact b y -> (SFltb x y = true <-> a < b).
Proof.
  intros Hx Hy.
  assert (Hlt : forall a b x y, exact a x -> exact b y -> a < b -> SFltb x y = true).
  { clear. intros a b x y [[-> ->]|Hx] [[-> ->]|Hy] Hab; try lia.
    - destruct Hy as (m & e & -> & _). reflexivity.
    - pose proof (holds_range _ _ Hx). lia.
    - now apply (holds_lt a b). }
  split; [|now apply Hlt].
  intros Htrue. destruct (Z.lt_trichotomy a b) as [|[Heq|Hgt]]; [assumption|exfalso..].
  - subst b. assert (x = y).
    { destruct Hx as [[Ha ->]|Hx], Hy as [[Hb ->]|Hy]; try reflexivity.
      - pose proof (holds_range _ _ Hy). lia.
      - pose proof (holds_range _ _ Hx). lia.
      - now apply (holds_unique a). }
    subst y. pose proof (DistFacts.SFltb_asym x x Htrue). congruence.
  - pose proof (Hlt b a y x Hy Hx Hgt) as Hrev.
    apply DistFacts.SFltb_asym in Hrev. congruence.
Qed.

End ExactDist.

(** The squared distance of a request to the centre of the canvas, in
    integers; the centre is [(Width / 2, Height / 2)] as the comparison
    function computes it. *)
Definition request_dist_exact (params : JuliaParams) (r : TileRequest) : Z :=
  let centerX := GoInt.div (Width params) 2 in
  let centerY := GoInt.div (Height params) 2 in
  (Req_X r - centerX) * (Req_X r - centerX) + (Req_Y r - centerY) * (Req_Y r - centerY).

(** A request less than 2^26 pixels from the centre along each axis. *)
Definition near_centre (params : JuliaParams) (r : TileRequest) : Prop :=
  - 2 ^ 26 < Req_X r - GoInt.div (Width params) 2 < 2 ^ 26 /\
  - 2 ^ 26 < Req_Y r - GoInt.div (Height params) 2 < 2 ^ 26.

Module DispatchFacts.

(** Near the centre the float64 distance is the exact one. *)
Lemma request_dist_is_exact (params : JuliaParams) (r : TileRequest) :
  near_centre params r ->
  ExactDist.exact (request_dist_exact params r) (Prim2SF (request_dist params r)).
Proof.
  intros [Hx Hy]. unfold request_dist, request_dist_exact. cbv zeta.
  unfold GoInt.sub at 1 2.
  rewrite !WholeFacts.wrap64_small by lia.
  rewrite add_spec. apply ExactDist.add_exact.
  - apply ExactDist.Pow2_of_int_exact. lia.
  - apply ExactDist.Pow2_of_int_exact. lia.
  - nia.
Qed.

Lemma near_centre_ltb (params : JuliaParams) (a b : TileRequest) :
  near_centre params a -> near_centre params b ->
  ((request_dist params a <? request_dist params b)%float = true <->
   request_dist_exact params a < request_dist_exact params b).
Proof.
  intros Ha Hb. rewrite ltb_spec.
  apply ExactDist.exact_ltb; now apply request_dist_is_exact.
Qed.

Lemma StronglySorted_later {A : Type} (R : A -> A -> Prop) (l : list A) :
  StronglySorted R l ->
  forall (i j : nat) (a b : A),
    l !! i = Some a -> l !! j = Some b -> (i < j)%nat -> R a b.
Proof.
  induction 1 as [|x l Hl IH Hx]; intros i j a b Hi Hj Hij.
  - now rewrite lookup_nil in Hi.
  - destruct j as [|j]; [lia|]. cbn in Hj.
    destruct i as [|i]; cbn in Hi.
    + injection Hi as <-. rewrite Forall_forall in Hx. apply Hx.
      eapply list_elem_of_lookup_2. exact Hj.
    + apply (IH i j); (assumption || lia).
Qed.

(** In a list in which no request is less than an earlier one, a request
    of lower lod, or of equal lod and smaller distance, comes first. *)
Lemma ordered_precedence (params : JuliaParams) (l : list TileRequest) :
  StronglySorted (DispatchOrder.dispatch_before params) l ->
  forall (i j : nat) (a b : TileRequest),
    l !! i = Some a -> l !! j = Some b ->
    (Req_LOD a < Req_LOD b -> (i < j)%nat) /\
    (Req_LOD a = Req_LOD b ->
     (request_dist params a <? request_dist params b)%float = true -> (i < j)%nat) /\
    (Req_LOD a = Req_LOD b -> near_centre params a -> near_centre params b ->
     request_dist_exact params a < request_dist_exact params b -> (i < j)%nat).
Proof.
  intros Hss i j a b Hi Hj.
  assert (Hlod : Req_LOD a < Req_LOD b -> (i < j)%nat).
  { intros Hlt. destruct (Nat.lt_trichotomy i j) as [|[->|Hji]]; [assumption|exfalso..].
    - rewrite Hi in Hj. injection Hj as ->. lia.
    - destruct (StronglySorted_later _ l Hss j i b a Hj Hi Hji) as [Hle _]. lia. }
  assert (Hdist : Req_LOD a = Req_LOD b ->
                  (request_dist params a <? request_dist params b)%float = true ->
                  (i < j)%nat).
  { intros Heq Hlt. rewrite ltb_spec in Hlt.
    destruct (Nat.lt_trichotomy i j) as [|[->|Hji]]; [assumption|exfalso..].
    - rewrite Hi in Hj. injection Hj as ->.
      pose proof (DistFacts.SFltb_asym _ _ Hlt). congruence.
    - destruct (StronglySorted_later _ l Hss j i b a Hj Hi Hji) as [_ Hle].
      specialize (Hle (eq_sym Heq)). rewrite leb_spec in Hle.
      apply DispatchOrder.SFleb_ltb_false in Hle. congruence. }
  split; [exact Hlod|]. split; [exact Hdist|].
  intros Heq Ha Hb Hlt. apply Hdist; [assumption|].
  now apply near_centre_ltb.
Qed.

Lemma sorted_is_ordered (params : JuliaParams) (l : list TileRequest) :
  Sorted (fun a b => request_less params b a = false) l ->
  StronglySorted (DispatchOrder.dispatch_before params) l.
Proof.
  intros Hs.
  assert (Hss : StronglySorted (fun a b => request_less params b a = false) l)
    by (apply Sorted_StronglySorted; [exact (DispatchOrder.not_less_transitive params) | exact Hs]).
  clear Hs. induction Hss as [|x l Hl IH Hx]; constructor; [assumption|].
  eapply Forall_impl; [exact Hx|].
  intros b Hb. now apply DispatchOrder.not_less_dispatch_before.
Qed.

End DispatchFacts.

(** C6 (as amended).  The dispatch list is a rearrangement of the
    requests in which every request of a lower lod comes before every
    request of a higher lod and, within one lod, a request whose squared
    distance to the centre [(Width / 2, Height / 2)] is smaller as the code
    computes it, in float64, comes before one whose distance is larger.
    For requests less than 2^26 pixels from the centre along each axis the
    float64 distance is the exact integer one, so there a nearer request
    comes before a farther one.  This holds of the list the insertion sort
    of [sort.Slice] makes and of any list [sort.Slice] may return. *)
Theorem dispatch_order_by_lod_then_distance :
  forall (params : JuliaParams) (requestedTiles dispatch : list TileRequest),
  dispatch = insertionSort (request_less params) requestedTiles \/
  sort_Slice_result (request_less params) requestedTiles dispatch ->
  requestedTiles ≡ₚ dispatch /\
  forall (i j : nat) (a b : TileRequest),
    dispatch !! i = Some a -> dispatch !! j = Some b ->
    (Req_LOD a < Req_LOD b -> (i < j)%nat) /\
    (Req_LOD a = Req_LOD b ->
     (request_dist params a <? request_dist params b)%float = true -> (i < j)%nat) /\
    (Req_LOD a = Req_LOD b -> near_centre params a -> near_centre params b ->
     request_dist_exact params a < request_dist_exact params b -> (i < j)%nat).
Proof.
  intros params requestedTiles dispatch Hdispatch.
  assert (Hres : sort_Slice_result (request_less params) requestedTiles dispatch).
  { destruct Hdispatch as [->|H]; [|exact H].
    split; [apply insertionSort_perm|].
    apply StronglySorted_Sorted, DispatchOrder.insertionSort_strongly_sorted. }
  destruct Hres as [Hperm Hsorted].
  split; [exact Hperm|].
  apply DispatchFacts.ordered_precedence.
  now apply DispatchFacts.sorted_is_ordered.
Qed.

(** The batch of the specification's example: lods 1 and 2 on the 300x200
    canvas, whose centre is (150, 100). *)
Definition mixed_batch : list TileRequest :=
  [mkTileRequest 0 0 2; mkTileRequest 0 0 1; mkTileRequest 128 128 2;
   mkTileRequest 128 128 1].

Lemma dispatch_order_by_lod_then_distance_witness :
  insertionSort (request_less canvas_300x200) mixed_batch
  = [mkTileRequest 128 128 1; mkTileRequest 0 0 1;
     mkTileRequest 128 128 2; mkTileRequest 0 0 2] /\
  near_centre canvas_300x200 (mkTileRequest 128 128 1) /\
  near_centre canvas_300x200 (mkTileRequest 0 0 1) /\
  request_dist_exact canvas_300x200 (mkTileRequest 128 128 1)
  < request_dist_exact canvas_300x200 (mkTileRequest 0 0 1) /\
  forall i j : nat,
    insertionSort (request_less canvas_300x200) mixed_batch !! i
    = Some (mkTileRequest 128 128 1) ->
    insertionSort (request_less canvas_300x200) mixed_batch !! j
    = Some (mkTileRequest 0 0 1) ->
    (i < j)%nat.
Proof.
  assert (H1 : near_centre canvas_300x200 (mkTileRequest 128 128 1))
    by (vm_compute; repeat split; discriminate).
  assert (H2 : near_centre canvas_300x200 (mkTileRequest 0 0 1))
    by (vm_compute; repeat split; discriminate).
  assert (H3 : request_dist_exact canvas_300x200 (mkTileRequest 128 128 1)
               < request_dist_exact canvas_300x200 (mkTileRequest 0 0 1))
    by (vm_compute; reflexivity).
  split; [vm_compute; reflexivity|].
  repeat (split; [assumption|]).
  intros i j Hi Hj.
  destruct (dispatch_order_by_lod_then_distance canvas_300x200 mixed_batch
              (insertionSort (request_less canvas_300x200) mixed_batch) (or_introl eq_refl))
    as [_ Hord].
  destruct (Hord i j _ _ Hi Hj) as (_ & _ & Hnear).
  exact (Hnear eq_refl H1 H2 H3).
Defined.

(** A canvas 268435458 pixels wide, whose centre is at x = 2^27 + 1, and
    two requests of one lod in column 0: the one at y = 128 lies on the
    centre's row, the one at y = 129 one pixel off it.  Their exact squared
    distances, (2^27 + 1)^2 and (2^27 + 1)^2 + 1, lie above 2^53. *)
Definition wide_canvas : JuliaParams :=
  mkJuliaParams (mkComplex 0 0) (mkComplex 0 0) 1 1 10 268435458 256 1.

Definition centre_row_request : TileRequest := mkTileRequest 0 128 1.
Definition off_row_request : TileRequest := mkTileRequest 0 129 1.

(** The request on the centre's row is strictly nearer, yet both squared
    distances round to the same float64, the comparison calls neither
    smaller, and the farther request, asked for first, is dispatched
    first. *)
Lemma nearer_request_dispatched_later :
  Req_LOD centre_row_request = Req_LOD off_row_request /\
  request_dist_exact wide_canvas centre_row_request
  < request_dist_exact wide_canvas off_row_request /\
  request_dist wide_canvas centre_row_request = request_dist wide_canvas off_row_request /\
  request_less wide_canvas centre_row_request off_row_request = false /\
  insertionSort (request_less wide_canvas) [off_row_request; centre_row_request]
  = [off_row_request; centre_row_request] /\
  ~ (forall i j : nat,
       insertionSort (request_less wide_canvas) [off_row_request; centre_row_request] !! i
       = Some centre_row_request ->
       insertionSort (request_less wide_canvas) [off_row_request; centre_row_request] !! j
       = Some off_row_request ->
       (i < j)%nat).
Proof.
  assert (Hs : insertionSort (request_less wide_canvas) [off_row_request; centre_row_request]
               = [off_row_request; centre_row_request])
    by (vm_compute; reflexivity).
  split; [reflexivity|]. split; [vm_compute; reflexivity|].
  split; [vm_compute; reflexivity|]. split; [vm_compute; reflexivity|].
  split; [exact Hs|].
  intros H. specialize (H 1%nat 0%nat).
  rewrite Hs in H. specialize (H eq_refl eq_refl). lia.
Qed.
